(** * Iterative magnitude pruning: a shallow embedding of
      [src/iterative_pruning.py]

    The development follows the Python source function by function:
    [prune_iteratively] (the orchestrator, lines 14-133) and [test]
    (evaluation, lines 135-165), and the script that calls them (lines
    167-209).  Tensors hold rationals in place of floats; where the code
    converts a number to the tensors' dtype (the threshold, line 75) or
    computes with Python floats (lines 159-164) the conversion is written
    out.  The optimizer, the network's forward pass, the loss and its
    gradient, and these conversions are external collaborators and enter
    through the class [collaborators]. *)

From Stdlib Require Import QArith Qabs Qround Lia Lqa Sorted.
From stdpp Require Import gmap strings list.

Local Open Scope Q_scope.

(** ** Numbers *)

(** [x > t] on tensor entries, as a boolean ([Tensor.gt]). *)
Definition Qgtb (x t : Q) : bool := negb (Qle_bool x t).

(** Rounding to [ndigits] decimals, half to even: scale, round, scale back.
    Python's [round(x, ndigits)] on a float does this on the exact value of
    [x] and returns the nearest float (see [float_round]). *)
Definition round_half_even (y : Q) : Z :=
  let f := Qfloor y in
  match Qcompare (y - inject_Z f) (1 # 2) with
  | Lt => f
  | Gt => (f + 1)%Z
  | Eq => if Z.even f then f else (f + 1)%Z
  end.

Definition py_round (x : Q) (ndigits : nat) : Q :=
  let scale := inject_Z (10 ^ Z.of_nat ndigits) in
  inject_Z (round_half_even (x * scale)) / scale.

(** Insertion sort; [np.percentile] orders the flattened array first. *)
Fixpoint insert_sorted (x : Q) (l : list Q) : list Q :=
  match l with
  | [] => [x]
  | y :: r => if Qle_bool x y then x :: y :: r else y :: insert_sorted x r
  end.

Definition sort_Q (l : list Q) : list Q := foldr insert_sorted [] l.

(** The interpolated order statistic of [np.percentile] (method "linear"):
    the virtual index is [q/100 * (n-1)], and the result lies between the
    two neighbouring order statistics. *)
Definition lerp_index (sorted : list Q) (q : Q) : Q :=
  let n := length sorted in
  let idx := q / 100 * inject_Z (Z.of_nat (n - 1)) in
  let lo := Z.to_nat (Qfloor idx) in
  let hi := Nat.min (lo + 1) (n - 1) in
  let gamma := idx - inject_Z (Qfloor idx) in
  let a := nth lo sorted 0 in
  let b := nth hi sorted 0 in
  a + (b - a) * gamma.

(** The exceptions a run can end in. *)
Inductive exn :=
| ValueError (msg : string)
| ZeroDivisionError
| IndexError
| NameError (var : string)
| RuntimeError (msg : string)
| FileNotFoundError
| LoadError.

(** [np.percentile(a, q)].  numpy rejects [q] outside [0, 100]; on an empty
    array it has no order statistic to return (depending on the version it
    raises or yields nan, and the round then stops at the division by
    [total = 0]). *)
Definition percentile (a : list Q) (q : Q) : exn + Q :=
  if negb (Qle_bool 0 q && Qle_bool q 100)
  then inl (ValueError "Percentiles must be in the range [0, 100]")
  else match a with
       | [] => inl IndexError
       | _ => inr (lerp_index (sort_Q a) q)
       end.

(** [torch.max(outputs, 1)[1]] on one row: index of the first maximum. *)
Fixpoint argmax_from (best : Q) (besti i : nat) (row : list Q) : nat :=
  match row with
  | [] => besti
  | x :: r => if Qgtb x best then argmax_from x i (S i) r
              else argmax_from best besti (S i) r
  end.

Definition argmax (row : list Q) : nat :=
  match row with
  | [] => 0%nat
  | x :: r => argmax_from x 0 1 r
  end.

(** ** Data model *)

(** A tensor is modelled by its flattened entries; its shape is represented
    by its number of elements (every operation of the program on parameter
    tensors is elementwise or flattens). *)
Abbreviation tensor := (list Q).

(** [model.named_parameters()] / [model.state_dict()], in iteration order. *)
Abbreviation state_dict := (list (string * tensor)).

(** [sub in s] on Python strings. *)
Definition contains (sub s : string) : bool :=
  match String.index 0 sub s with Some _ => true | None => false end.

(** [if "weight" in name] *)
Definition is_weight (name : string) : bool := contains "weight" name.

Definition layout (m : state_dict) : list (string * nat) :=
  map (fun p => (p.1, length p.2)) m.

Inductive optimizer_kind := SGD | Adam.

(** The accumulators [test_accuracys] and [test_losses] are Python list
    objects; an element is a float or a reference to a list object. *)
Inductive list_id := TestAccuracys | TestLosses.

Inductive pyobj :=
| PyFloat (x : Q)
| PyListRef (r : list_id).

(** What the run prints and which collaborators it calls, in order. *)
Inductive event :=
| PrintStarted
| PrintRunning (pruning_iter : nat)
| PrintFraction (zeros total : nat)
| PrintTest (pruning_iter : nat) (test_loss test_accuracy : Q)
| PrintAccuracys (l : list pyobj)
| PrintLosses (l : list pyobj)
| PrintFinished
| CallNewOptimizer (k : optimizer_kind)
| CallTorchLoad (pruning_iter epoch : nat)
| CallLoadStateDict
| CallPermuteMasks (n_masks : nat)
| CallLoadWeights
| CallForward (grad_enabled : bool)
| CallOptimizerStep
| CallTorchSave (pruning_iter epoch : nat).

(** The external collaborators of [prune_iteratively]. *)
Class collaborators := {
  input : Type;
  buffers : Type;
  rng_state : Type;
  (** momentum buffers / moment estimates of a freshly built optimizer *)
  no_buffers : buffers;
  (** [optimizer.step()]: learning rate, buffers, parameters, gradients *)
  optimizer_step :
    optimizer_kind -> Q -> buffers -> state_dict -> list tensor ->
    buffers * state_dict;
  (** [model(inputs)]: one row of class scores per input *)
  forward : state_dict -> list input -> list (list Q);
  (** [nn.CrossEntropyLoss()(outputs, labels)] *)
  criterion : list (list Q) -> list nat -> Q;
  (** what [loss.backward()] leaves in the parameters' [.grad] *)
  gradient : state_dict -> list input -> list nat -> list tensor;
  (** [get_weight_fractions()] of [utils] *)
  weight_fractions : list Q;
  (** one draw of [np.random]: a reordering of the entries of a tensor *)
  shuffle : rng_state -> tensor -> tensor * rng_state;
  (** names of the final classification layer's parameters *)
  final_layer : string -> bool;
  (** conversion of a number to the dtype of the parameter tensors
      (float32 unless the model says otherwise): the nearest value of the
      dtype, so the conversion keeps the order *)
  to_dtype : Q -> Q;
  to_dtype_mono : forall x y, x <= y -> to_dtype x <= to_dtype y;
  (** the nearest Python float (a double), which is what an arithmetic
      operation on Python floats returns for its exact result; it keeps
      the order, and the integers up to 2^53 are floats *)
  to_float : Q -> Q;
  to_float_mono : forall x y, x <= y -> to_float x <= to_float y;
  to_float_int : forall z : Z,
    (Z.abs z <= 2 ^ 53)%Z -> to_float (inject_Z z) == inject_Z z
}.

Record batch `{collaborators} := { inputs : list input; labels : list nat }.

Section Model.
Context `{C : collaborators}.

Record optimizer := {
  kind : optimizer_kind;
  lr : Q;
  state : buffers
}.

(** [{'epoch': .., 'model_state_dict': .., 'optimizer_state_dict': ..}] *)
Record checkpoint := {
  cp_epoch : nat;
  model_state_dict : state_dict;
  optimizer_state_dict : optimizer
}.

(** Everything [prune_iteratively] reads and writes: the model object, the
    files under [models_path] keyed by [(round, epoch)], the random state,
    the autograd mode, the function's locals that outlive a loop iteration,
    the two accumulator lists, and the log of prints and calls. *)
Record world := {
  model : state_dict;
  files : gmap (nat * nat) checkpoint;
  rng : rng_state;
  grad_enabled : bool;
  the_optimizer : option optimizer;
  masks : option (list tensor);
  last_epoch : option nat;
  test_accuracys : list pyobj;
  test_losses : list pyobj;
  trace : list event
}.

Definition set_model (m : state_dict) (w : world) : world :=
  {| model := m; files := files w; rng := rng w;
     grad_enabled := grad_enabled w; the_optimizer := the_optimizer w;
     masks := masks w; last_epoch := last_epoch w;
     test_accuracys := test_accuracys w; test_losses := test_losses w;
     trace := trace w |}.

Definition set_files (f : gmap (nat * nat) checkpoint) (w : world) : world :=
  {| model := model w; files := f; rng := rng w;
     grad_enabled := grad_enabled w; the_optimizer := the_optimizer w;
     masks := masks w; last_epoch := last_epoch w;
     test_accuracys := test_accuracys w; test_losses := test_losses w;
     trace := trace w |}.

Definition set_rng (g : rng_state) (w : world) : world :=
  {| model := model w; files := files w; rng := g;
     grad_enabled := grad_enabled w; the_optimizer := the_optimizer w;
     masks := masks w; last_epoch := last_epoch w;
     test_accuracys := test_accuracys w; test_losses := test_losses w;
     trace := trace w |}.

Definition set_grad_enabled (b : bool) (w : world) : world :=
  {| model := model w; files := files w; rng := rng w;
     grad_enabled := b; the_optimizer := the_optimizer w;
     masks := masks w; last_epoch := last_epoch w;
     test_accuracys := test_accuracys w; test_losses := test_losses w;
     trace := trace w |}.

Definition set_optimizer (o : option optimizer) (w : world) : world :=
  {| model := model w; files := files w; rng := rng w;
     grad_enabled := grad_enabled w; the_optimizer := o;
     masks := masks w; last_epoch := last_epoch w;
     test_accuracys := test_accuracys w; test_losses := test_losses w;
     trace := trace w |}.

Definition set_masks (ms : option (list tensor)) (w : world) : world :=
  {| model := model w; files := files w; rng := rng w;
     grad_enabled := grad_enabled w; the_optimizer := the_optimizer w;
     masks := ms; last_epoch := last_epoch w;
     test_accuracys := test_accuracys w; test_losses := test_losses w;
     trace := trace w |}.

Definition set_last_epoch (e : option nat) (w : world) : world :=
  {| model := model w; files := files w; rng := rng w;
     grad_enabled := grad_enabled w; the_optimizer := the_optimizer w;
     masks := masks w; last_epoch := e;
     test_accuracys := test_accuracys w; test_losses := test_losses w;
     trace := trace w |}.

Definition set_test_accuracys (l : list pyobj) (w : world) : world :=
  {| model := model w; files := files w; rng := rng w;
     grad_enabled := grad_enabled w; the_optimizer := the_optimizer w;
     masks := masks w; last_epoch := last_epoch w;
     test_accuracys := l; test_losses := test_losses w;
     trace := trace w |}.

Definition set_test_losses (l : list pyobj) (w : world) : world :=
  {| model := model w; files := files w; rng := rng w;
     grad_enabled := grad_enabled w; the_optimizer := the_optimizer w;
     masks := masks w; last_epoch := last_epoch w;
     test_accuracys := test_accuracys w; test_losses := l;
     trace := trace w |}.

Definition log (ev : event) (w : world) : world :=
  {| model := model w; files := files w; rng := rng w;
     grad_enabled := grad_enabled w; the_optimizer := the_optimizer w;
     masks := masks w; last_epoch := last_epoch w;
     test_accuracys := test_accuracys w; test_losses := test_losses w;
     trace := trace w ++ [ev] |}.

(** ** The monad of the run: a world in, a value or an exception out *)

Inductive result (A : Type) :=
| Ok (a : A) (w : world)
| Raise (e : exn) (w : world).
Global Arguments Ok {A} a w.
Global Arguments Raise {A} e w.

Definition world_of {A} (r : result A) : world :=
  match r with Ok _ w => w | Raise _ w => w end.

Definition succeeds {A} (r : result A) : bool :=
  match r with Ok _ _ => true | Raise _ _ => false end.

Definition value_of {A} (r : result A) : option A :=
  match r with Ok a _ => Some a | Raise _ _ => None end.

Definition error_of {A} (r : result A) : option exn :=
  match r with Ok _ _ => None | Raise e _ => Some e end.

Definition M (A : Type) : Type := world -> result A.

Definition ret {A} (a : A) : M A := fun w => Ok a w.

Definition bind {A B} (m : M A) (k : A -> M B) : M B :=
  fun w => match m w with
           | Ok a w' => k a w'
           | Raise e w' => Raise e w'
           end.

Definition raise {A} (e : exn) : M A := fun w => Raise e w.

Definition gets {A} (f : world -> A) : M A := fun w => Ok (f w) w.

Definition modify (f : world -> world) : M unit := fun w => Ok tt (f w).

Definition emit (ev : event) : M unit := modify (log ev).

Definition lift {A} (r : exn + A) : M A :=
  match r with inl e => raise e | inr a => ret a end.

(** a local that is read before it was ever assigned *)
Definition local {A} (name : string) (f : world -> option A) : M A :=
  fun w => match f w with
           | Some a => Ok a w
           | None => Raise (NameError name) w
           end.

End Model.

Declare Scope run_scope.
Delimit Scope run_scope with run.
Notation "x <- m ;; k" := (bind m (fun x => k))
  (at level 100, m at next level, right associativity) : run_scope.
Notation "m ;; k" := (bind m (fun _ => k))
  (at level 100, right associativity) : run_scope.

Section Program.
Context `{C : collaborators}.
Local Open Scope run_scope.

Fixpoint for_each {X} (l : list X) (body : X -> M unit) : M unit :=
  match l with
  | [] => ret tt
  | x :: r => body x ;; for_each r body
  end.

Fixpoint fold_each {X S} (l : list X) (body : S -> X -> M S) (s : S) : M S :=
  match l with
  | [] => ret s
  | x :: r => s' <- body s x ;; fold_each r body s'
  end.

Definition when (b : bool) (m : M unit) : M unit := if b then m else ret tt.

(** *** Lines 51-56: a new optimizer each round

    The momentum and the weight decay are fixed per kind of optimizer and
    belong to [optimizer_step]; the learning rate is annealed by the epochs
    and is kept here. *)
Definition new_optimizer (optimizer_type : string) : M unit :=
  if String.eqb optimizer_type "sgd" then
    emit (CallNewOptimizer SGD) ;;
    modify (set_optimizer (Some {| kind := SGD; lr := 1 # 10; state := no_buffers |}))
  else if String.eqb optimizer_type "adam" then
    emit (CallNewOptimizer Adam) ;;
    modify (set_optimizer (Some {| kind := Adam; lr := 3 # 10000; state := no_buffers |}))
  else raise (ValueError (optimizer_type ++ " optimizer not supported")).

(** *** Lines 59-60: read the previous round's checkpoint *)

(** [model.load_state_dict(sd)] (strict): the keys and shapes of [sd] must
    be those of the model; the values are then copied over. *)
Definition load_state_dict (sd : state_dict) : M unit :=
  m <- gets model ;;
  if decide (layout sd = layout m)
  then emit CallLoadStateDict ;; modify (set_model sd)
  else raise (RuntimeError "Error(s) in loading state_dict").

Definition torch_load (pruning_iter epoch : nat) : M checkpoint :=
  emit (CallTorchLoad pruning_iter epoch) ;;
  f <- gets files ;;
  match f !! (pruning_iter, epoch) with
  | Some cpt => ret cpt
  | None => raise FileNotFoundError
  end.

(** *** Lines 62-68: the global magnitude threshold *)

(** Lines 63-67: the weights of every parameter with "weight" in its name,
    concatenated in iteration order. *)
Fixpoint flat_model_weights (named_parameters : state_dict) (acc : list Q)
  : list Q :=
  match named_parameters with
  | [] => acc
  | (name, params) :: rest =>
      if is_weight name then flat_model_weights rest (acc ++ params)
      else flat_model_weights rest acc
  end.

(** Python's [l[i]] *)
Definition py_index {A} (l : list A) (i : nat) : exn + A :=
  match l !! i with Some a => inr a | None => inl IndexError end.

(** Line 68 *)
Definition compute_threshold (m : state_dict) (pruning_iter : nat) : exn + Q :=
  match py_index weight_fractions pruning_iter with
  | inl e => inl e
  | inr q => percentile (map Qabs (flat_model_weights m [])) q
  end.

(** *** Lines 70-80: one mask per weight tensor *)

(** Lines 74-75: [params.data.abs().clone().gt(threshold).float()].
    [Tensor.gt] with a number compares in the dtype of the tensor:
    [threshold], a float64 of numpy, is converted to that dtype first.  The
    entries of [weight_copy] are values of the dtype already, which the
    conversion leaves as they are; it is written on both sides, so that two
    values of the dtype are compared whatever rational stands for an
    entry. *)
Definition build_mask (threshold : Q) (params : tensor) : tensor :=
  map (fun x => if Qgtb (to_dtype (Qabs x)) (to_dtype threshold) then 1 else 0)
      params.

(** [mask.nonzero().size(0)] *)
Definition nonzero_count (mask : tensor) : nat :=
  length (List.filter (fun x => negb (Qeq_bool x 0)) mask).

(** Modelled from the spec: [permute_masks] of [utils] is not part of the
    sources at hand.  Section 4.3 of the specification: it returns a new
    sequence of masks with the shapes of the input and, tensor by tensor, the
    same number of ones, the entries being randomly shuffled.  Each tensor is
    reordered by one draw of the random source. *)
Fixpoint permute_masks_with (g : rng_state) (old_masks : list tensor)
  : list tensor * rng_state :=
  match old_masks with
  | [] => ([], g)
  | mask :: rest =>
      let '(mask', g1) := shuffle g mask in
      let '(rest', g2) := permute_masks_with g1 rest in
      (mask' :: rest', g2)
  end.

Definition permute_masks (old_masks : list tensor) : M (list tensor) :=
  emit (CallPermuteMasks (length old_masks)) ;;
  g <- gets rng ;;
  let '(new_masks, g') := permute_masks_with g old_masks in
  modify (set_rng g') ;;
  ret new_masks.

(** Lines 72-80: the body of the second loop over [named_parameters]; the
    accumulator is [(zeros, total)], [masks] is the function's local. *)
Definition mask_loop_body (threshold : Q) (random : string)
    (acc : nat * nat) (p : string * tensor) : M (nat * nat) :=
  let '(zeros, total) := acc in
  let '(name, params) := p in
  if is_weight name then
    let mask := build_mask threshold params in
    let zeros := (zeros + (length mask - nonzero_count mask))%nat in
    let total := (total + length mask)%nat in
    ms <- local "masks" masks ;;
    modify (set_masks (Some (ms ++ [mask]))) ;;
    (if negb (String.eqb random "false") then
       ms <- local "masks" masks ;;
       ms' <- permute_masks ms ;;
       modify (set_masks (Some ms'))
     else ret tt) ;;
    ret (zeros, total)
  else ret (zeros, total).

(** Lines 59-81: what a round [pruning_iter != 0] does before training. *)
Definition load_and_build_masks (pruning_iter : nat) (random : string)
  : M unit :=
  last <- local "last_epoch" last_epoch ;;
  cpt <- torch_load (pruning_iter - 1) last ;;
  load_state_dict (model_state_dict cpt) ;;
  modify (set_masks (Some [])) ;;
  m <- gets model ;;
  threshold <- lift (compute_threshold m pruning_iter) ;;
  zt <- fold_each m (mask_loop_body threshold random) (0%nat, 0%nat) ;;
  let '(zeros, total) := zt in
  if (total =? 0)%nat then raise ZeroDivisionError
  else emit (PrintFraction zeros total).

(** *** Line 84: rewinding to the initialization snapshot *)

Fixpoint assoc (name : string) (sd : state_dict) : option tensor :=
  match sd with
  | [] => None
  | (n, t) :: rest => if String.eqb n name then Some t else assoc name rest
  end.

(** Modelled from the spec: [load_weights] of [utils] is not part of the
    sources at hand.  Section 4.4 of the specification: it loads the
    snapshot's parameter values into the model; if the class counts differ
    the final classification layer's parameters are left out of the load and
    keep their current values; it fails with a load error if the snapshot is
    missing or a shape mismatches outside the excluded layer. *)
Fixpoint load_weights_into (m snapshot : state_dict) (is_equal_classes : bool)
  : exn + state_dict :=
  match m with
  | [] => inr []
  | (name, params) :: rest =>
      match load_weights_into rest snapshot is_equal_classes with
      | inl e => inl e
      | inr rest' =>
          if negb is_equal_classes && final_layer name
          then inr ((name, params) :: rest')
          else match assoc name snapshot with
               | Some v => if decide (length v = length params)
                           then inr ((name, v) :: rest')
                           else inl LoadError
               | None => inl LoadError
               end
      end
  end.

Definition load_weights (init_file : option state_dict)
    (is_equal_classes : bool) : M unit :=
  emit CallLoadWeights ;;
  match init_file with
  | None => raise LoadError
  | Some snapshot =>
      m <- gets model ;;
      m' <- lift (load_weights_into m snapshot is_equal_classes) ;;
      modify (set_model m')
  end.

(** *** Lines 103-107 and 116-120: [params.data.mul_(masks[layer_index])] *)

Definition mul_ (params mask : tensor) : tensor :=
  zip_with Qmult params mask.

(** The loop over [named_parameters] with its [layer_index].  A mask of
    another shape makes [mul_] fail; a missing mask makes the indexing fail.
    (When the loop fails midway the tensors already multiplied stay so in
    Python; here the model is then left as it was.) *)
Fixpoint apply_masks_from (ms : list tensor) (layer_index : nat)
    (named_parameters : state_dict) : exn + state_dict :=
  match named_parameters with
  | [] => inr []
  | (name, params) :: rest =>
      if is_weight name then
        match ms !! layer_index with
        | None => inl IndexError
        | Some mask =>
            if decide (length mask = length params) then
              match apply_masks_from ms (S layer_index) rest with
              | inl e => inl e
              | inr rest' => inr ((name, mul_ params mask) :: rest')
              end
            else inl (RuntimeError "The size of tensor a must match the size of tensor b")
        end
      else
        match apply_masks_from ms layer_index rest with
        | inl e => inl e
        | inr rest' => inr ((name, params) :: rest')
        end
  end.

Definition apply_masks : M unit :=
  ms <- local "masks" masks ;;
  m <- gets model ;;
  m' <- lift (apply_masks_from ms 0 m) ;;
  modify (set_model m').

(** *** Lines 96-112: one training batch

    [optimizer.zero_grad()] and [loss.backward()] together leave the
    gradient of this batch's loss in [.grad]: that is [gradient]. *)
Definition train_batch (pruning_iter : nat) (data : batch) : M unit :=
  when (negb (pruning_iter =? 0)%nat) apply_masks ;;
  m <- gets model ;;
  ge <- gets grad_enabled ;;
  emit (CallForward ge) ;;
  let grads := gradient m (inputs data) (labels data) in
  o <- local "optimizer" the_optimizer ;;
  let '(bufs, m') := optimizer_step (kind o) (lr o) (state o) m grads in
  emit CallOptimizerStep ;;
  modify (set_optimizer (Some {| kind := kind o; lr := lr o; state := bufs |})) ;;
  modify (set_model m').

(** Line 121 *)
Definition torch_save (pruning_iter epoch : nat) : M unit :=
  m <- gets model ;;
  o <- local "optimizer" the_optimizer ;;
  emit (CallTorchSave pruning_iter epoch) ;;
  f <- gets files ;;
  modify (set_files (<[(pruning_iter, epoch) :=
    {| cp_epoch := epoch; model_state_dict := m; optimizer_state_dict := o |}]> f)).

(** Line 94: [optimizer.param_groups[0]['lr'] /= 10] *)
Definition anneal : M unit :=
  o <- local "optimizer" the_optimizer ;;
  modify (set_optimizer (Some {| kind := kind o; lr := lr o / 10; state := state o |})).

(** *** Lines 91-123: one epoch *)
Definition train_epoch (pruning_iter num_epochs : nat)
    (lr_anneal_epochs : list nat) (dataloader_train : list batch)
    (epoch : nat) : M unit :=
  modify (set_last_epoch (Some epoch)) ;;
  when (bool_decide (epoch ∈ lr_anneal_epochs)) anneal ;;
  for_each dataloader_train (train_batch pruning_iter) ;;
  when (epoch =? num_epochs)%nat
    (when (negb (pruning_iter =? 0)%nat) apply_masks ;;
     torch_save pruning_iter epoch).

(** *** Lines 135-165: [test] *)

(** Line 162: [(predicted == labels).sum().item()] *)
Definition hits (predicted labels : list nat) : nat :=
  length (List.filter (fun pl => (pl.1 =? pl.2)%nat) (combine predicted labels)).

(** Lines 156-162, one batch; the accumulator is
    [(correct, total, total_loss)].  [total_loss += loss.item()] adds two
    Python floats. *)
Definition test_batch (acc : nat * nat * Q) (data : batch) : M (nat * nat * Q) :=
  let '(correct, total, total_loss) := acc in
  m <- gets model ;;
  ge <- gets grad_enabled ;;
  emit (CallForward ge) ;;
  let outputs := forward m (inputs data) in
  let loss := criterion outputs (labels data) in
  let predicted := map argmax outputs in
  ret ((correct + hits predicted (labels data))%nat,
       (total + length (labels data))%nat,
       to_float (total_loss + loss)).

Definition nat_Q (n : nat) : Q := inject_Z (Z.of_nat n).

(** Python's [round(x, ndigits)] on a float: the float nearest to the
    decimal that [x] rounds to. *)
Definition float_round (x : Q) (ndigits : nat) : Q :=
  to_float (py_round x ndigits).

(** Lines 163-164: the divisions and the product are operations on Python
    numbers, each returning the float nearest to its exact result. *)
Definition test (dataloader : list batch) : M (Q * Q) :=
  before <- gets grad_enabled ;;
  modify (set_grad_enabled false) ;;
  acc <- fold_each dataloader test_batch (0%nat, 0%nat, 0) ;;
  modify (set_grad_enabled before) ;;
  let '(correct, total, total_loss) := acc in
  if (total =? 0)%nat then raise ZeroDivisionError
  else
    let test_loss := float_round (to_float (total_loss / nat_Q total)) 4 in
    let test_accuracy :=
      float_round (to_float (to_float (nat_Q correct / nat_Q total) * 100)) 3 in
    ret (test_loss, test_accuracy).

(** *** Lines 125-129: periodic evaluation and the two accumulators *)

(** Lines 128-129: [test_accuracys.append(test_accuracys)] and
    [test_losses.append(test_losses)]; the object appended is the list
    itself. *)
Definition append_results (test_loss test_accuracy : Q) : M unit :=
  modify (fun w => set_test_accuracys
                     (test_accuracys w ++ [PyListRef TestAccuracys]) w) ;;
  modify (fun w => set_test_losses
                     (test_losses w ++ [PyListRef TestLosses]) w).

Definition evaluates (pruning_iter : nat) : bool :=
  (pruning_iter <? 7)%nat || (pruning_iter mod 3 =? 0)%nat.

Definition evaluate (pruning_iter : nat) (dataloader_test : list batch)
  : M unit :=
  r <- test dataloader_test ;;
  let '(test_loss, test_accuracy) := r in
  emit (PrintTest pruning_iter test_loss test_accuracy) ;;
  append_results test_loss test_accuracy.

(** *** Lines 50-129: one pruning round

    Lines 86-88 wrap the model for several devices and move it to the
    device, lines 98-99 change the dtype of the labels; neither changes a
    parameter value or the control flow, and they are left out. *)
Definition pruning_round (num_epochs : nat) (lr_anneal_epochs : list nat)
    (optimizer_type : string) (dataloader_train dataloader_test : list batch)
    (init_file : option state_dict) (random : string)
    (is_equal_classes : bool) (pruning_iter : nat) : M unit :=
  emit (PrintRunning pruning_iter) ;;
  new_optimizer optimizer_type ;;
  when (negb (pruning_iter =? 0)%nat)
    (load_and_build_masks pruning_iter random) ;;
  when (String.eqb random "false")
    (load_weights init_file is_equal_classes) ;;
  for_each (seq 1 num_epochs)
    (train_epoch pruning_iter num_epochs lr_anneal_epochs dataloader_train) ;;
  when (evaluates pruning_iter) (evaluate pruning_iter dataloader_test).

(** Lines 50-84: a round up to its first epoch. *)
Definition round_setup (optimizer_type : string)
    (init_file : option state_dict) (random : string)
    (is_equal_classes : bool) (pruning_iter : nat) : M unit :=
  emit (PrintRunning pruning_iter) ;;
  new_optimizer optimizer_type ;;
  when (negb (pruning_iter =? 0)%nat)
    (load_and_build_masks pruning_iter random) ;;
  when (String.eqb random "false")
    (load_weights init_file is_equal_classes).

(** Lines 34-41 *)
Definition schedule (architecture : string) : M (nat * list nat) :=
  if String.eqb architecture "vgg19" then ret (160%nat, [80; 120]%nat)
  else if String.eqb architecture "resnet50" then ret (90%nat, [50; 65; 80]%nat)
  else raise (ValueError (architecture ++ " architecture not supported")).

(** *** Lines 14-133 *)
Definition prune_iteratively (dataloader_train dataloader_test : list batch)
    (architecture optimizer_type : string) (init_file : option state_dict)
    (random : string) (is_equal_classes : bool) : M unit :=
  sch <- schedule architecture ;;
  let '(num_epochs, lr_anneal_epochs) := sch in
  emit PrintStarted ;;
  modify (set_test_accuracys []) ;;
  modify (set_test_losses []) ;;
  for_each (seq 0 31)
    (pruning_round num_epochs lr_anneal_epochs optimizer_type
       dataloader_train dataloader_test init_file random is_equal_classes) ;;
  accs <- gets test_accuracys ;;
  emit (PrintAccuracys accs) ;;
  losses <- gets test_losses ;;
  emit (PrintLosses losses) ;;
  emit PrintFinished.

End Program.

(** ** The script (lines 167-209)

    The arguments come from the command line; [load_dataset] and
    [load_model] are collaborators that may fail, and the file at
    [init_path] is read later, by [load_weights].  The prints, the choice of
    the device and [random.seed] (it seeds Python's [random] module, of which
    the code at hand shows no use) are left out. *)
Module Script.

Record args := {
  seed : nat;
  source_dataset : string;
  target_dataset : string;
  batch_size : nat;
  architecture : string;
  optimizer : string;
  model_saving_path : string;
  init_path : string;
  random : string
}.

Section Main.
Context `{C : collaborators}.
Variable load_dataset : string -> nat -> bool -> exn + list batch.
Variable load_model : string -> nat -> exn + state_dict.
(** what the file system holds at a path given as [init_path] *)
Variable snapshot_at : string -> option state_dict.
Local Open Scope run_scope.

(** Lines 186-191 and 193-198: the number of classes of a dataset; [role]
    is "source" or "target" in the message. *)
Definition num_classes (dataset role : string) : exn + nat :=
  if bool_decide (dataset ∈ ["cifar10"; "svhn"; "fashionmnist"]%string)
  then inr 10%nat
  else if bool_decide (dataset ∈ ["cifar100"]%string)
  then inr 100%nat
  else inl (ValueError
              (dataset ++ " as a " ++ role ++ " dataset is not supported")).

(** Lines 181-209. *)
Definition main (a : args) : M unit :=
  dataloader_train <-
    lift (load_dataset (target_dataset a) (batch_size a) true) ;;
  dataloader_test <-
    lift (load_dataset (target_dataset a) (batch_size a) false) ;;
  num_classes_source <- lift (num_classes (source_dataset a) "source") ;;
  num_classes_target <- lift (num_classes (target_dataset a) "target") ;;
  m <- lift (load_model (architecture a) num_classes_target) ;;
  modify (set_model m) ;;
  if (num_classes_source =? num_classes_target)%nat then
    prune_iteratively dataloader_train dataloader_test (architecture a)
      (optimizer a) (snapshot_at (init_path a)) (random a) true
  else
    prune_iteratively dataloader_train dataloader_test (architecture a)
      (optimizer a) (snapshot_at (init_path a)) (random a) false.

End Main.

End Script.

(** ** Vocabulary of the statements *)

(** *** Kinds of events *)

Definition is_load_weights (e : event) : bool :=
  match e with CallLoadWeights => true | _ => false end.

Definition is_new_optimizer (e : event) : bool :=
  match e with CallNewOptimizer _ => true | _ => false end.

Definition is_permute (e : event) : bool :=
  match e with CallPermuteMasks _ => true | _ => false end.

(** Events of the block that reads the checkpoint and builds the masks. *)
Definition of_mask_building (e : event) : bool :=
  match e with
  | CallTorchLoad _ _ | CallLoadStateDict | CallPermuteMasks _
  | PrintFraction _ _ => true
  | _ => false
  end.

(** Events of an epoch of training. *)
Definition of_training (e : event) : bool :=
  match e with
  | CallForward _ | CallOptimizerStep | CallTorchSave _ _ => true
  | _ => false
  end.

Definition is_forward (e : event) : bool :=
  match e with CallForward _ => true | _ => false end.

(** The sizes of the mask lists [permute_masks] is called on. *)
Definition as_permute (e : event) : option nat :=
  match e with CallPermuteMasks n => Some n | _ => None end.

(** [load_weights] as an observation of the log. *)
Definition as_load_weights (e : event) : option unit :=
  match e with CallLoadWeights => Some tt | _ => None end.

(** The rounds whose test result is printed. *)
Definition as_tested_round (e : event) : option nat :=
  match e with PrintTest i _ _ => Some i | _ => None end.

(** The checkpoints written, by round and epoch. *)
Definition as_save (e : event) : option (nat * nat) :=
  match e with CallTorchSave i epoch => Some (i, epoch) | _ => None end.

(** The optimizer steps. *)
Definition as_step (e : event) : option unit :=
  match e with CallOptimizerStep => Some tt | _ => None end.

(** Events of one training batch. *)
Definition of_batch (e : event) : bool :=
  match e with CallForward _ | CallOptimizerStep => true | _ => false end.

(** The three prints that end a run (lines 131-133). *)
Definition is_final_print (e : event) : bool :=
  match e with
  | PrintAccuracys _ | PrintLosses _ | PrintFinished => true
  | _ => false
  end.

(** *** Parameters and masks *)

(** The prunable tensors: the parameters with "weight" in their name, in
    the iteration order of [named_parameters]. *)
Definition weights (m : state_dict) : list tensor :=
  map snd (List.filter (fun p => is_weight p.1) m).

(** Which parameters are prunable and how many elements each holds, in
    iteration order: the names apart. *)
Definition shapes (m : state_dict) : list (bool * nat) :=
  map (fun p => (is_weight p.1, length p.2)) m.

(** [zeros] of line 76, summed over the prunable tensors. *)
Definition zeros_below `{collaborators} (threshold : Q) (ts : list tensor)
  : nat :=
  foldr (fun t n => (length (build_mask threshold t)
                     - nonzero_count (build_mask threshold t) + n)%nat) 0%nat ts.

(** Every position where the mask of a prunable tensor is zero holds a
    zero: [ms] pairs with the prunable tensors of [m] in order. *)
Definition masked_zero (ms : list tensor) (m : state_dict) : Prop :=
  forall k t mask j x,
    weights m !! k = Some t -> ms !! k = Some mask ->
    mask !! j = Some x -> x == 0 ->
    exists y, t !! j = Some y /\ y == 0.


(** Position [j] of the [k]-th prunable tensor is pruned by the masks [ms]:
    the mask entry there is zero. *)
Definition pruned (ms : list tensor) (k j : nat) : Prop :=
  exists mask x, ms !! k = Some mask /\ mask !! j = Some x /\ x == 0.

(** How many of the epochs [l] are anneal breakpoints. *)
Definition anneals (lr_anneal_epochs l : list nat) : nat :=
  length (filter (fun epoch => epoch ∈ lr_anneal_epochs) l).

(** The learning rate after [k] divisions by 10. *)
Definition annealed (k : nat) (lr0 : Q) : Q :=
  Nat.iter k (fun x => x / 10) lr0.

(** *** Observations of a computation *)

Section Observations.
Context `{C : collaborators}.

(** Frame: the computation leaves the observation [f] of the world alone,
    whether it returns or raises. *)
Definition preserves {X A} (f : world -> X) (m : M A) : Prop :=
  forall w, f (world_of (m w)) = f w.

(** Every event the computation adds to the log satisfies [P]. *)
Definition emits {A} (P : event -> bool) (m : M A) : Prop :=
  forall w, exists d, trace (world_of (m w)) = trace w ++ d /\ forallb P d = true.

(** What a successful run adds to the log, seen through a projection [obs]
    of the events of interest. *)
Definition yields {A T} (obs : event -> option T) (v : list T) (m : M A)
  : Prop :=
  forall w a w', m w = Ok a w' ->
    exists d, trace w' = trace w ++ d /\ omap obs d = v.

(** What lines 156-162 add to [(correct, total, total_loss)] for one batch,
    as a function of the parameter values. *)
Definition tally (m : state_dict) (acc : nat * nat * Q) (data : batch)
  : nat * nat * Q :=
  let '(correct, total, total_loss) := acc in
  let outputs := forward m (inputs data) in
  ((correct + hits (map argmax outputs) (labels data))%nat,
   (total + length (labels data))%nat,
   to_float (total_loss + criterion outputs (labels data))).


(** The correct top-1 predictions of a batch, sample by sample: the label
    of sample [k] is the class the scores of sample [k] are largest at. *)
Definition top1_correct (outputs : list (list Q)) (labels : list nat) : nat :=
  length (List.filter
            (fun k => match outputs !! k, labels !! k with
                      | Some row, Some label => (argmax row =? label)%nat
                      | _, _ => false
                      end)
            (seq 0 (length labels))).

(** The masks a round trains with: none in round 0 (nothing is pruned, the
    all-ones mask), the local [masks] afterwards. *)
Definition round_masks (pruning_iter : nat) (w : world)
  : list tensor :=
  if (pruning_iter =? 0)%nat then [] else default [] (masks w).

End Observations.

(** ** A small concrete environment

    A two-class linear scorer on one rational feature, trained on the
    squared error with SGD (momentum 0.9, weight decay 0.0001, as line 52
    configures it) computing with six decimals. *)
Module Example.

Definition scores (m : state_dict) (x : Q) : list Q :=
  match m with
  | [(_, [w0; w1]); (_, [b0; b1])] => [w0 * x + b0; w1 * x + b1]
  | _ => [0; 0]
  end.

Definition onehot (label c : nat) : Q := if (label =? c)%nat then 1 else 0.

Definition residuals (m : state_dict) (x : Q) (label : nat) : list Q :=
  imap (fun c s => s - onehot label c) (scores m x).

Definition Qsum (l : list Q) : Q := foldr Qplus 0 l.

(** The loss of one sample. *)
Definition sample_error (row : list Q) (label : nat) : Q :=
  Qsum (imap (fun c s => (s - onehot label c) ^ 2) row).

(** The criterion: the mean of the batch's sample losses, as
    [nn.CrossEntropyLoss()] reduces a batch. *)
Definition squared_error (outputs : list (list Q)) (labels : list nat) : Q :=
  Qred (Qsum (zip_with sample_error outputs labels)
        / inject_Z (Z.of_nat (length labels))).

Definition squared_error_gradient (m : state_dict) (xs : list Q)
    (labels : list nat) : list tensor :=
  let n := inject_Z (Z.of_nat (length labels)) in
  let rs := zip_with (fun x l => (x, residuals m x l)) xs labels in
  let gw c := Qred (Qsum (map (fun xr => 2 * nth c xr.2 0 * xr.1) rs) / n) in
  let gb c := Qred (Qsum (map (fun xr => 2 * nth c xr.2 0) rs) / n) in
  match m with
  | [(_, [_; _]); (_, [_; _])] => [[gw 0%nat; gw 1%nat]; [gb 0%nat; gb 1%nat]]
  | _ => map (fun p => map (fun _ => 0) p.2) m
  end.

Definition six_decimals (x : Q) : Q := Qred (py_round x 6).

(** [torch.optim.SGD.step] on one tensor: the decayed gradient, the momentum
    buffer (the decayed gradient itself on the first step), the update. *)
Definition sgd_tensor (lr : Q) (buf : option tensor) (p g : tensor)
  : tensor * tensor :=
  let d_p := imap (fun i pi => nth i g 0 + (1 # 10000) * pi) p in
  let buf' := match buf with
              | None => d_p
              | Some b => imap (fun i di => (9 # 10) * nth i b 0 + di) d_p
              end in
  (map six_decimals buf',
   imap (fun i pi => six_decimals (pi - lr * nth i buf' 0)) p).

Definition sgd_step (k : optimizer_kind) (lr : Q) (bufs : list tensor)
    (m : state_dict) (grads : list tensor) : list tensor * state_dict :=
  let r := imap (fun i p =>
             let '(b, t) := sgd_tensor lr (bufs !! i) p.2 (nth i grads []) in
             (b, (p.1, t))) m in
  (map fst r, map snd r).

Definition fractions : list Q :=
  map (fun i => Qred (100 * (1 - (4 # 5) ^ Z.of_nat i))) (seq 0 31).

(** The tensors of the environment hold six decimals, and its Python floats
    are exact. *)
#[export] Instance env : collaborators.
Proof.
  refine {|
    input := Q;
    buffers := list tensor;
    rng_state := nat;
    no_buffers := [];
    optimizer_step := sgd_step;
    forward := fun m xs => map (scores m) xs;
    criterion := squared_error;
    gradient := squared_error_gradient;
    weight_fractions := fractions;
    shuffle := fun g t => (rev t, S g);
    final_layer := contains "fc";
    to_dtype := six_decimals;
    to_dtype_mono := _;
    to_float := fun x => x;
    to_float_mono := fun _ _ H => H;
    to_float_int := fun z _ => Qeq_refl (inject_Z z)
  |}.
  (* rounding to six decimals keeps the order *)
  intros x y Hxy. unfold six_decimals, py_round. apply Qred_le.
  set (s := inject_Z (10 ^ Z.of_nat 6)).
  assert (0 < s) as Hs by reflexivity.
  assert (x * s <= y * s) as Hle
    by (apply Qmult_le_compat_r; [exact Hxy | apply Qlt_le_weak, Hs]).
  apply Qmult_le_compat_r; [|apply Qlt_le_weak, Qinv_lt_0_compat, Hs].
  rewrite <- Zle_Qle. revert Hle. generalize (x * s), (y * s).
  clear. intros a b Hab.
  pose proof (Qfloor_resp_le a b Hab) as Hf.
  pose proof (Qfloor_le a) as Ha0. pose proof (Qlt_floor a) as Ha1.
  pose proof (Qfloor_le b) as Hb0. pose proof (Qlt_floor b) as Hb1.
  rewrite inject_Z_plus in Ha1, Hb1.
  change (inject_Z 1) with 1 in Ha1, Hb1.
  unfold round_half_even.
  destruct (Z.eq_dec (Qfloor a) (Qfloor b)) as [E|E].
  - rewrite <- E in *.
    destruct (Qcompare_spec (a - inject_Z (Qfloor a)) (1 # 2));
      destruct (Qcompare_spec (b - inject_Z (Qfloor a)) (1 # 2));
      destruct (Z.even (Qfloor a)); first [lia | exfalso; lra].
  - assert (Qfloor a + 1 <= Qfloor b)%Z as Hlt by lia.
    destruct (Qcompare (a - inject_Z (Qfloor a)) (1 # 2));
      destruct (Qcompare (b - inject_Z (Qfloor b)) (1 # 2));
      destruct (Z.even (Qfloor a)); destruct (Z.even (Qfloor b)); lia.
Defined.

Definition net (w0 w1 b0 b1 : Q) : state_dict :=
  [("fc.weight"%string, [w0; w1]); ("fc.bias"%string, [b0; b1])].

Definition data : list batch :=
  [ {| inputs := [1; -1] : list (@input env); labels := [0; 1]%nat |} ].

Definition start (m : state_dict) : world :=
  {| model := m; files := ∅; rng := 0%nat; grad_enabled := true;
     the_optimizer := None; masks := None; last_epoch := None;
     test_accuracys := []; test_losses := []; trace := [] |}.

Definition init_net : state_dict := net (1 # 2) (-1 # 100) 0 0.

(** All scores are 0. *)
Definition zero_net : state_dict := net 0 0 0 0.

(** Rounds of two epochs, annealing at the first, rewinding to [init_net]. *)
Abbreviation round :=
  (pruning_round 2 [1%nat] "sgd" data data (Some init_net) "false" true).

Definition after_round0 : world := world_of (round 0%nat (start init_net)).
Abbreviation after_round1 := (world_of (round 1%nat after_round0)).
Abbreviation after_round2 := (world_of (round 2%nat after_round1)).

(** Round 1 up to its first batch. *)
Definition before_first_batch : world :=
  world_of (round_setup "sgd" (Some init_net) "false" true 1 after_round0).

Definition first_batch : batch :=
  {| inputs := [1; -1] : list (@input env); labels := [0; 1]%nat |}.

(** Two prunable tensors, for the random-ticket mode. *)
Definition two_weights : state_dict :=
  [("conv.weight"%string, [3 # 10; -1 # 100]);
   ("fc.weight"%string, [1 # 2; 1 # 5])].

Definition random_after_round0 : world :=
  world_of (pruning_round 2 [1%nat] "sgd" data data None "true" true 0
              (start two_weights)).

Definition random_round1_start : world :=
  world_of (new_optimizer "sgd" random_after_round0).



(** The collaborators of the script: every dataset is [data], every
    architecture the two-class scorer. *)
Definition load_dataset (name : string) (batch_size : nat) (train : bool)
  : exn + list batch := inr data.

Definition load_model (architecture : string) (num_classes : nat)
  : exn + state_dict := inr init_net.

Definition snapshot_at (path : string) : option state_dict := Some init_net.

Definition arguments (source target : string) : Script.args :=
  {| Script.seed := 0; Script.source_dataset := source;
     Script.target_dataset := target; Script.batch_size := 2;
     Script.architecture := "resnet50"; Script.optimizer := "sgd";
     Script.model_saving_path := "models"; Script.init_path := "init";
     Script.random := "false" |}.

(** A whole run on the small environment. *)
Abbreviation whole_run :=
  (prune_iteratively data data "resnet50" "sgd" (Some init_net) "false" true
     (start init_net)).

End Example.

(** ** Reasoning about runs *)

Section Reasoning.
Context `{C : collaborators}.
Local Open Scope run_scope.

Lemma succeeds_Ok (r : result unit) :
  succeeds r = true -> r = Ok tt (world_of r).
Proof. by destruct r as [[] w|e w]. Qed.

Lemma value_of_Ok {A} (r : result A) a :
  value_of r = Some a -> r = Ok a (world_of r).
Proof. destruct r as [b w|e w]; [by intros [= ->] | discriminate]. Qed.

Lemma error_of_Raise {A} (r : result A) e :
  error_of r = Some e -> r = Raise e (world_of r).
Proof. destruct r as [b w|e' w]; [discriminate | by intros [= ->]]. Qed.

Lemma bind_Ok {A B} (m : M A) (k : A -> M B) w b w2 :
  bind m k w = Ok b w2 <-> exists a w1, m w = Ok a w1 /\ k a w1 = Ok b w2.
Proof.
  unfold bind. split.
  - destruct (m w) as [a w1|e w1]; [eauto | discriminate].
  - intros (a & w1 & -> & Hk). exact Hk.
Qed.

Lemma lift_Ok {A} (r : exn + A) w a w' :
  lift r w = Ok a w' <-> r = inr a /\ w' = w.
Proof.
  destruct r as [e|x]; simpl; unfold raise, ret; split.
  - discriminate.
  - intros [? _]. discriminate.
  - intros [= -> ->]. auto.
  - intros [[= ->] ->]. reflexivity.
Qed.

Lemma local_Ok {A} name (f : world -> option A) w a w' :
  local name f w = Ok a w' <-> f w = Some a /\ w' = w.
Proof.
  unfold local. destruct (f w); split.
  - intros [= -> ->]. auto.
  - intros [[= ->] ->]. reflexivity.
  - discriminate.
  - intros [? _]. discriminate.
Qed.

Lemma when_Ok b (m : M unit) w u w' :
  when b m w = Ok u w' <-> (b = true /\ m w = Ok u w') \/ (b = false /\ w' = w).
Proof.
  destruct u, b; simpl; unfold ret; split.
  - auto.
  - intros [[_ ?]|[? _]]; [assumption | discriminate].
  - intros [= <-]. auto.
  - intros [[? _]|[_ ->]]; [discriminate | reflexivity].
Qed.

Lemma for_each_app {X} (l1 l2 : list X) body w :
  for_each (l1 ++ l2) body w
  = bind (for_each l1 body) (fun _ => for_each l2 body) w.
Proof.
  revert w. induction l1 as [|x l1 IH]; intros w; simpl.
  - reflexivity.
  - unfold bind. destruct (body x w) as [[] w1|e w1]; [|reflexivity].
    rewrite IH. reflexivity.
Qed.

(** An invariant of the body is an invariant of the loop. *)
Lemma for_each_inv {X} (I : world -> Prop) (l : list X) body :
  (forall x w w', x ∈ l -> I w -> body x w = Ok tt w' -> I w') ->
  forall w w', I w -> for_each l body w = Ok tt w' -> I w'.
Proof.
  induction l as [|x l IH]; intros Hbody w w' HI Hrun; simpl in Hrun.
  - injection Hrun as <-. exact HI.
  - apply bind_Ok in Hrun as ([] & w1 & Hx & Hrest).
    eapply IH; [| |exact Hrest].
    + intros y v v' Hy. apply Hbody. by right.
    + eapply Hbody; [by left | exact HI | exact Hx].
Qed.

(** *** Frame: a computation that leaves an observation of the world alone *)

Lemma preserves_ret {X A} (f : world -> X) (a : A) : preserves f (ret a).
Proof. intros w. reflexivity. Qed.

Lemma preserves_raise {X A} (f : world -> X) e : preserves f (@raise _ A e).
Proof. intros w. reflexivity. Qed.

Lemma preserves_gets {X A} (f : world -> X) (g : world -> A) :
  preserves f (gets g).
Proof. intros w. reflexivity. Qed.

Lemma preserves_local {X A} (f : world -> X) name (g : world -> option A) :
  preserves f (local name g).
Proof. intros w. unfold local. by destruct (g w). Qed.

Lemma preserves_lift {X A} (f : world -> X) (r : exn + A) :
  preserves f (lift r).
Proof. intros w. by destruct r. Qed.

Lemma preserves_modify {X} (f : world -> X) (g : world -> world) :
  (forall w, f (g w) = f w) -> preserves f (modify g).
Proof. intros H w. apply H. Qed.

Lemma preserves_bind {X A B} (f : world -> X) (m : M A) (k : A -> M B) :
  preserves f m -> (forall a, preserves f (k a)) -> preserves f (bind m k).
Proof.
  intros Hm Hk w. unfold bind. specialize (Hm w).
  destruct (m w) as [a w1|e w1]; simpl in *.
  - rewrite Hk. exact Hm.
  - exact Hm.
Qed.

Lemma preserves_when {X} (f : world -> X) b (m : M unit) :
  preserves f m -> preserves f (when b m).
Proof. intros H. destruct b; [exact H | apply preserves_ret]. Qed.

Lemma preserves_for_each {X Y} (f : world -> X) (l : list Y) body :
  (forall y, preserves f (body y)) -> preserves f (for_each l body).
Proof.
  intros H. induction l as [|y l IH]; simpl.
  - apply preserves_ret.
  - apply preserves_bind; auto.
Qed.

Lemma preserves_fold_each {X Y S} (f : world -> X) (l : list Y)
    (body : S -> Y -> M S) s :
  (forall s y, preserves f (body s y)) -> preserves f (fold_each l body s).
Proof.
  intros H. revert s. induction l as [|y l IH]; intros s; simpl.
  - apply preserves_ret.
  - apply preserves_bind; auto.
Qed.

Lemma preserves_Ok {X A} (f : world -> X) (m : M A) w a w' :
  preserves f m -> m w = Ok a w' -> f w' = f w.
Proof. intros H E. specialize (H w). by rewrite E in H. Qed.

(** *** The log: what a computation prints and calls *)

Lemma emits_ret {A} P (a : A) : emits P (ret a).
Proof. intros w. exists []. by rewrite app_nil_r. Qed.

Lemma emits_raise {A} P e : emits P (@raise _ A e).
Proof. intros w. exists []. by rewrite app_nil_r. Qed.

Lemma emits_gets {A} P (g : world -> A) : emits P (gets g).
Proof. intros w. exists []. by rewrite app_nil_r. Qed.

Lemma emits_local {A} P name (g : world -> option A) : emits P (local name g).
Proof.
  intros w. exists []. rewrite app_nil_r. unfold local. by destruct (g w).
Qed.

Lemma emits_lift {A} P (r : exn + A) : emits P (lift r).
Proof. intros w. exists []. rewrite app_nil_r. by destruct r. Qed.

Lemma emits_modify P (g : world -> world) :
  (forall w, trace (g w) = trace w) -> emits P (modify g).
Proof. intros H w. exists []. rewrite app_nil_r. split; [apply H | done]. Qed.

Lemma emits_emit (P : event -> bool) ev : P ev = true -> emits P (emit ev).
Proof. intros H w. exists [ev]. simpl. by rewrite H. Qed.

Lemma emits_bind {A B} P (m : M A) (k : A -> M B) :
  emits P m -> (forall a, emits P (k a)) -> emits P (bind m k).
Proof.
  intros Hm Hk w. unfold bind. destruct (Hm w) as (d1 & E1 & F1).
  destruct (m w) as [a w1|e w1]; simpl in *.
  - destruct (Hk a w1) as (d2 & E2 & F2). exists (d1 ++ d2).
    rewrite E2, E1, app_assoc, forallb_app, F1, F2. done.
  - eauto.
Qed.

Lemma emits_when P b (m : M unit) : emits P m -> emits P (when b m).
Proof. intros H. destruct b; [exact H | apply emits_ret]. Qed.

Lemma emits_for_each {Y} P (l : list Y) body :
  (forall y, emits P (body y)) -> emits P (for_each l body).
Proof.
  intros H. induction l as [|y l IH]; simpl.
  - apply emits_ret.
  - apply emits_bind; auto.
Qed.

Lemma emits_fold_each {Y S} P (l : list Y) (body : S -> Y -> M S) s :
  (forall s y, emits P (body s y)) -> emits P (fold_each l body s).
Proof.
  intros H. revert s. induction l as [|y l IH]; intros s; simpl.
  - apply emits_ret.
  - apply emits_bind; auto.
Qed.

Lemma omap_none {T} (obs : event -> option T) (P : event -> bool) d :
  (forall e, P e = true -> obs e = None) ->
  forallb P d = true -> omap obs d = [].
Proof.
  intros HP. induction d as [|e d IH]; simpl; [done|].
  intros [He Hd]%andb_prop. rewrite (HP e He). auto.
Qed.

Lemma emits_yields {A T} (obs : event -> option T) P (m : M A) :
  (forall e, P e = true -> obs e = None) -> emits P m -> yields obs [] m.
Proof.
  intros HP H w a w' E. destruct (H w) as (d & Ed & F). rewrite E in Ed.
  exists d. split; [exact Ed | by eapply omap_none].
Qed.

Lemma yields_bind {A B T} (obs : event -> option T) v1 v2
    (m : M A) (k : A -> M B) :
  yields obs v1 m -> (forall a, yields obs v2 (k a)) ->
  yields obs (v1 ++ v2) (bind m k).
Proof.
  intros Hm Hk w b w2 E. apply bind_Ok in E as (a & w1 & E1 & E2).
  destruct (Hm _ _ _ E1) as (d1 & T1 & N1).
  destruct (Hk _ _ _ _ E2) as (d2 & T2 & N2).
  exists (d1 ++ d2). rewrite T2, T1, app_assoc, omap_app, N1, N2. auto.
Qed.

Lemma yields_emit {T} (obs : event -> option T) ev :
  yields obs (option_list (obs ev)) (emit ev).
Proof.
  intros w [] w' [= <-]. exists [ev]. split; [reflexivity|].
  simpl. by destruct (obs ev).
Qed.

Lemma yields_when {T} (obs : event -> option T) v (b : bool) (m : M unit) :
  yields obs v m -> yields obs (if b then v else []) (when b m).
Proof.
  intros H. destruct b; [exact H|]. intros w [] w' [= <-].
  exists []. by rewrite app_nil_r.
Qed.

Lemma yields_for_each {X T} (obs : event -> option T) (g : X -> list T)
    (l : list X) body :
  (forall x, yields obs (g x) (body x)) ->
  yields obs (concat (map g l)) (for_each l body).
Proof.
  intros H. induction l as [|x l IH]; simpl.
  - intros w [] w' [= <-]. exists []. by rewrite app_nil_r.
  - apply yields_bind; auto.
Qed.

Lemma yields_eq {A T} (obs : event -> option T) v v' (m : M A) :
  yields obs v m -> v = v' -> yields obs v' m.
Proof. by intros H <-. Qed.

End Reasoning.

Create HintDb frame.
#[export] Hint Resolve preserves_ret preserves_raise preserves_gets
  preserves_local preserves_lift : frame.

(** Walks down a computation, leaving the [modify] steps to [reflexivity]. *)
Ltac frame :=
  repeat first
    [ solve [auto 1 with frame]
    | apply preserves_modify; intros; reflexivity
    | apply preserves_bind; [|intros]
    | apply preserves_when
    | apply preserves_for_each; intros
    | apply preserves_fold_each; intros
    | match goal with
      | |- preserves _ (match ?x with _ => _ end) => destruct x
      end ].

(** The same walk for the log; an [emit] is checked by evaluation. *)
Ltac quiet :=
  repeat first
    [ apply emits_ret | apply emits_raise | apply emits_gets
    | apply emits_local | apply emits_lift
    | apply emits_modify; intros; reflexivity
    | apply emits_emit; reflexivity
    | apply emits_bind; [|intros]
    | apply emits_when
    | apply emits_for_each; intros
    | apply emits_fold_each; intros
    | match goal with
      | |- emits _ (match ?x with _ => _ end) => destruct x
      end ].

(** ** Facts about the numbers *)

Example round_half_even_examples :
  round_half_even (5 # 2) = 2%Z /\ round_half_even (7 # 2) = 4%Z /\
  round_half_even (13 # 5) = 3%Z /\ round_half_even (-1 # 2) = 0%Z.
Proof. repeat split; reflexivity. Qed.

Example py_round_examples :
  Qred (py_round (12345 # 100000) 4) = 617 # 5000 /\
  Qred (py_round (200 # 3) 3) = 66667 # 1000.
Proof. split; reflexivity. Qed.

(** [np.percentile([4, 1, 3, 2], 50) = 2.5], and 20 percent of two values
    is a fifth of the way from the smaller to the larger. *)
Example percentile_examples :
  sum_map id Qred (percentile [4; 1; 3; 2] 50) = inr (5 # 2) /\
  sum_map id Qred (percentile [1 # 2; 1 # 100] 20) = inr (27 # 250) /\
  percentile [1; 2] 101
  = inl (ValueError "Percentiles must be in the range [0, 100]").
Proof. repeat split; reflexivity. Qed.

Example is_weight_examples :
  is_weight "features.0.weight" = true /\ is_weight "fc.bias" = false /\
  is_weight "module.fc.weight" = true.
Proof. repeat split; reflexivity. Qed.

Example argmax_examples :
  argmax [1 # 2; 3; 3; -1] = 1%nat /\ argmax [] = 0%nat.
Proof. split; reflexivity. Qed.

Lemma round_half_even_cases y :
  round_half_even y = Qfloor y \/
  (round_half_even y = (Qfloor y + 1)%Z /\ inject_Z (Qfloor y) < y).
Proof.
  unfold round_half_even.
  destruct (Qcompare (y - inject_Z (Qfloor y)) (1 # 2)) eqn:E.
  - apply Qeq_alt in E. destruct (Z.even (Qfloor y)); [by left | right].
    split; [done | lra].
  - by left.
  - apply Qgt_alt in E. right. split; [done | lra].
Qed.

Lemma round_half_even_nonneg y : 0 <= y -> (0 <= round_half_even y)%Z.
Proof.
  intros Hy. assert (0 <= Qfloor y)%Z.
  { change 0%Z with (Qfloor 0). by apply Qfloor_resp_le. }
  destruct (round_half_even_cases y) as [->|[-> _]]; lia.
Qed.

Lemma round_half_even_le y (n : Z) :
  y <= inject_Z n -> (round_half_even y <= n)%Z.
Proof.
  intros Hy. destruct (round_half_even_cases y) as [->|[-> Hlt]].
  - rewrite <- (Qfloor_Z n). by apply Qfloor_resp_le.
  - assert (inject_Z (Qfloor y) < inject_Z n) as Hf by lra.
    rewrite <- Zlt_Qlt in Hf. lia.
Qed.

Lemma scale_pos n : 0 < inject_Z (10 ^ Z.of_nat n).
Proof.
  change 0 with (inject_Z 0). rewrite <- Zlt_Qlt. apply Z.pow_pos_nonneg; lia.
Qed.

Lemma py_round_nonneg x n : 0 <= x -> 0 <= py_round x n.
Proof.
  intros Hx. unfold py_round. pose proof (scale_pos n) as Hs.
  apply Qle_shift_div_l; [exact Hs|]. rewrite Qmult_0_l.
  change 0 with (inject_Z 0). rewrite <- Zle_Qle.
  apply round_half_even_nonneg. by apply Qmult_le_0_compat; [|apply Qlt_le_weak].
Qed.

Lemma py_round_le x n (b : Z) : x <= inject_Z b -> py_round x n <= inject_Z b.
Proof.
  intros Hx. unfold py_round. pose proof (scale_pos n) as Hs.
  apply Qle_shift_div_r; [exact Hs|].
  rewrite <- inject_Z_mult, <- Zle_Qle. apply round_half_even_le.
  rewrite inject_Z_mult. apply Qmult_le_compat_r; [exact Hx | by apply Qlt_le_weak].
Qed.

Lemma insert_sorted_Forall (P : Q -> Prop) x l :
  P x -> Forall P l -> Forall P (insert_sorted x l).
Proof.
  intros Hx. induction 1 as [|y l Hy Hl IH]; simpl.
  - by constructor.
  - destruct (Qle_bool x y); repeat constructor; auto.
Qed.

Lemma sort_Q_Forall (P : Q -> Prop) l : Forall P l -> Forall P (sort_Q l).
Proof.
  induction 1 as [|x l Hx Hl IH]; simpl; [constructor|].
  by apply insert_sorted_Forall.
Qed.

Lemma nth_nonneg l i : Forall (fun x => 0 <= x) l -> 0 <= nth i l 0.
Proof.
  intros H. revert i. induction H as [|x l Hx Hl IH]; intros [|i]; simpl;
    auto; lra.
Qed.

Lemma lerp_index_nonneg sorted q :
  Forall (fun x => 0 <= x) sorted -> 0 <= lerp_index sorted q.
Proof.
  intros H. unfold lerp_index.
  set (idx := q / 100 * _).
  pose proof (Qfloor_le idx) as Hlo. pose proof (Qlt_floor idx) as Hhi.
  rewrite inject_Z_plus in Hhi.
  set (g := idx - inject_Z (Qfloor idx)).
  assert (0 <= g /\ g <= 1) as [Hg0 Hg1] by (unfold g; change (inject_Z 1) with 1 in Hhi; lra).
  pose proof (nth_nonneg sorted (Z.to_nat (Qfloor idx)) H) as Ha.
  pose proof (nth_nonneg sorted
                (Nat.min (Z.to_nat (Qfloor idx) + 1) (length sorted - 1)) H) as Hb.
  revert Ha Hb. generalize (nth (Z.to_nat (Qfloor idx)) sorted 0).
  generalize (nth (Nat.min (Z.to_nat (Qfloor idx) + 1) (length sorted - 1)) sorted 0).
  intros b a Ha Hb. clearbody g. clear Hlo Hhi.
  nra.
Qed.

Lemma abs_all_nonneg l : Forall (fun x => 0 <= x) (map Qabs l).
Proof. induction l; constructor; [apply Qabs_nonneg | done]. Qed.

Lemma Qgtb_false x t : x <= t -> Qgtb x t = false.
Proof. intros H. unfold Qgtb. apply Qle_bool_iff in H. by rewrite H. Qed.

Lemma Qgtb_true x t : Qgtb x t = true <-> t < x.
Proof.
  unfold Qgtb. rewrite negb_true_iff. split.
  - intros H. apply Qnot_le_lt. intros Hle. apply Qle_bool_iff in Hle. congruence.
  - intros H. destruct (Qle_bool x t) eqn:E; [|done].
    apply Qle_bool_iff in E. lra.
Qed.

(** ** Evaluation *)

Section Evaluation.
Context `{C : collaborators}.
Local Open Scope run_scope.

Lemma test_batch_run acc data w :
  test_batch acc data w
  = Ok (tally (model w) acc data) (log (CallForward (grad_enabled w)) w).
Proof. destruct acc as [[c t] l]. reflexivity. Qed.

Lemma test_loop dl : forall acc w,
  grad_enabled w = false ->
  exists w', fold_each dl test_batch acc w
             = Ok (fold_left (tally (model w)) dl acc) w' /\
    model w' = model w /\ grad_enabled w' = false /\
    trace w' = trace w ++ replicate (length dl) (CallForward false).
Proof.
  induction dl as [|data dl IH]; intros acc w Hg; simpl.
  - exists w. by rewrite app_nil_r.
  - unfold bind. rewrite test_batch_run, Hg.
    destruct (IH (tally (model w) acc data) (log (CallForward false) w) Hg)
      as (w' & Hrun & Hm & Hg' & Ht).
    exists w'. rewrite Hrun. repeat split; try assumption.
    rewrite Ht. simpl. by rewrite <- app_assoc.
Qed.

Lemma hits_le predicted labels : (hits predicted labels <= length labels)%nat.
Proof.
  unfold hits. etransitivity; [apply List.filter_length_le|].
  rewrite length_combine. lia.
Qed.

Lemma filter_map_S (f : nat -> bool) l :
  List.filter f (map S l) = map S (List.filter (fun k => f (S k)) l).
Proof.
  induction l as [|k l IH]; simpl; [done|].
  destruct (f (S k)); simpl; by rewrite IH.
Qed.

(** Line 162 counts the samples whose label is the predicted class. *)
Lemma hits_top1 outputs : forall labels,
  hits (map argmax outputs) labels = top1_correct outputs labels.
Proof.
  unfold hits, top1_correct.
  induction outputs as [|row outputs IH]; intros [|label labels]; simpl;
    try done.
  - rewrite <- seq_shift, filter_map_S, length_map. simpl.
    induction (seq 0 (length labels)) as [|k l IHl]; [done | exact IHl].
  - rewrite <- seq_shift, filter_map_S. simpl.
    destruct (argmax row =? label)%nat; simpl; rewrite length_map;
      by rewrite IH.
Qed.

(** [argmax] is the index of a largest score. *)
Lemma argmax_from_max row : forall pre best besti,
  pre !! besti = Some best ->
  (forall j x, pre !! j = Some x -> x <= best) ->
  exists y, (pre ++ row) !! argmax_from best besti (length pre) row = Some y /\
            forall j x, (pre ++ row) !! j = Some x -> x <= y.
Proof.
  induction row as [|x row IH]; intros pre best besti Hbest Hmax; simpl.
  - rewrite app_nil_r. eauto.
  - replace (pre ++ x :: row) with ((pre ++ [x]) ++ row)
      by (by rewrite <- app_assoc).
    replace (S (length pre)) with (length (pre ++ [x]))
      by (rewrite length_app; simpl; lia).
    destruct (Qgtb x best) eqn:E.
    + apply Qgtb_true in E. apply IH.
      * by rewrite lookup_app_r, Nat.sub_diag.
      * intros j z Hj. apply lookup_app_Some in Hj as [Hj|[_ Hj]].
        -- apply Hmax in Hj. lra.
        -- destruct (j - length pre)%nat; [|done]. injection Hj as <-. lra.
    + assert (x <= best) as Hx.
      { destruct (Qlt_le_dec best x) as [Hlt|Hle]; [|exact Hle].
        apply Qgtb_true in Hlt. congruence. }
      apply IH.
      * rewrite lookup_app_l; [exact Hbest|]. by eapply lookup_lt_Some.
      * intros j z Hj. apply lookup_app_Some in Hj as [Hj|[_ Hj]].
        -- by apply Hmax in Hj.
        -- destruct (j - length pre)%nat; [|done]. by injection Hj as <-.
Qed.

Lemma argmax_max row j x :
  row !! j = Some x -> exists y, row !! argmax row = Some y /\ x <= y.
Proof.
  destruct row as [|x0 row]; [done|]. intros Hj. unfold argmax.
  destruct (argmax_from_max row [x0] x0 0) as (y & Hy & Hall).
  - reflexivity.
  - intros [|k] z Hk; [|done]. injection Hk as <-. lra.
  - exists y. split; [exact Hy|]. by apply (Hall j).
Qed.

(** *** Python floats *)

Lemma to_float_nonneg x : 0 <= x -> 0 <= to_float x.
Proof.
  intros Hx. apply Qle_trans with (to_float (inject_Z 0)).
  - apply Qle_lteq. right. symmetry. apply to_float_int. simpl. lia.
  - by apply to_float_mono.
Qed.

Lemma to_float_le x (z : Z) :
  (Z.abs z <= 2 ^ 53)%Z -> x <= inject_Z z -> to_float x <= inject_Z z.
Proof.
  intros Hz Hx. apply Qle_trans with (to_float (inject_Z z)).
  - by apply to_float_mono.
  - apply Qle_lteq. right. by apply to_float_int.
Qed.

Lemma float_round_nonneg x n : 0 <= x -> 0 <= float_round x n.
Proof. intros Hx. by apply to_float_nonneg, py_round_nonneg. Qed.

Lemma float_round_le x n (z : Z) :
  (Z.abs z <= 2 ^ 53)%Z -> x <= inject_Z z -> float_round x n <= inject_Z z.
Proof. intros Hz Hx. by apply to_float_le, py_round_le. Qed.

(** *** The three counters *)

(** What the loop of lines 155-162 leaves in [(correct, total,
    total_loss)]: the hits and the samples of the batches, and the float
    sum of the criterion's values, one value per batch. *)
Lemma tally_fold m dl : forall correct total total_loss,
  fold_left (tally m) dl (correct, total, total_loss)
  = ((correct + list_sum (map (fun b => hits (map argmax (forward m (inputs b)))
                                          (labels b)) dl))%nat,
     (total + list_sum (map (fun b => length (labels b)) dl))%nat,
     fold_left (fun s b =>
                  to_float (s + criterion (forward m (inputs b)) (labels b)))
       dl total_loss).
Proof.
  induction dl as [|data dl IH]; intros c t l; simpl.
  - by rewrite !Nat.add_0_r.
  - rewrite IH. f_equal. f_equal; lia.
Qed.

Lemma samples_pos dl :
  Exists (fun b => labels b <> []) dl ->
  (0 < list_sum (map (fun b => length (labels b)) dl))%nat.
Proof.
  induction 1 as [data dl Hd|data dl _ IH]; simpl.
  - destruct (labels data); [done | simpl; lia].
  - lia.
Qed.

Lemma hits_sum_le m dl :
  (list_sum (map (fun b => hits (map argmax (forward m (inputs b))) (labels b)) dl)
   <= list_sum (map (fun b => length (labels b)) dl))%nat.
Proof.
  induction dl as [|data dl IH]; simpl; [done|].
  pose proof (hits_le (map argmax (forward m (inputs data))) (labels data)).
  lia.
Qed.

Lemma loss_sum_nonneg m dl : forall total_loss,
  Forall (fun b => 0 <= criterion (forward m (inputs b)) (labels b)) dl ->
  0 <= total_loss ->
  0 <= fold_left (fun s b =>
                    to_float (s + criterion (forward m (inputs b)) (labels b)))
         dl total_loss.
Proof.
  induction dl as [|data dl IH]; intros l Hpos Hl; simpl; [done|].
  inversion Hpos as [|? ? Hd Hdl]; subst. apply IH; [exact Hdl|].
  apply to_float_nonneg. lra.
Qed.

Lemma nat_Q_pos n : (0 < n)%nat -> 0 < nat_Q n.
Proof.
  intros H. unfold nat_Q. change 0 with (inject_Z 0). rewrite <- Zlt_Qlt. lia.
Qed.

Lemma nat_Q_le a b : (a <= b)%nat -> nat_Q a <= nat_Q b.
Proof. intros H. unfold nat_Q. rewrite <- Zle_Qle. lia. Qed.

(** C8, as the code has it: on batches that hold a sample, and with a
    criterion that is never negative, [test] returns
    [(round(total_loss / total, 4), round(correct / total * 100, 3))], the
    divisions, the product and the rounding being those of Python floats.
    [total] is the number of samples; [correct] the number of samples whose
    label is the class its scores are largest at; [total_loss] is the float
    sum of the criterion's values, one value per batch.  The first component
    is therefore the sum of the batches' losses over the number of samples:
    it is the mean loss only when every batch holds one sample.  The loss
    returned is at least 0, the accuracy lies in [0, 100], every forward
    pass runs with gradient tracking off, and the parameter values and the
    autograd mode are as before. *)
Theorem test_contract dl w :
  Exists (fun b => labels b <> []) dl ->
  Forall (fun b => 0 <= criterion (forward (model w) (inputs b)) (labels b)) dl ->
  exists correct total total_loss w',
    total = list_sum (map (fun b => length (labels b)) dl) /\
    correct = list_sum (map (fun b => top1_correct (forward (model w) (inputs b))
                                        (labels b)) dl) /\
    total_loss
    = fold_left (fun s b => to_float (s + criterion (forward (model w) (inputs b))
                                            (labels b))) dl 0 /\
    (forall row j x, row !! j = Some x ->
       exists y, row !! argmax row = Some y /\ x <= y) /\
    test dl w
    = Ok (float_round (to_float (total_loss / nat_Q total)) 4,
          float_round (to_float (to_float (nat_Q correct / nat_Q total) * 100)) 3)
         w' /\
    0 <= float_round (to_float (total_loss / nat_Q total)) 4 /\
    0 <= float_round (to_float (to_float (nat_Q correct / nat_Q total) * 100)) 3
      <= 100 /\
    model w' = model w /\ grad_enabled w' = grad_enabled w /\
    trace w' = trace w ++ replicate (length dl) (CallForward false).
Proof.
  intros Hsome Hpos.
  destruct (test_loop dl (0%nat, 0%nat, 0) (set_grad_enabled false w) eq_refl)
    as (w1 & Hrun & Hm & Hg & Ht).
  simpl in Hrun, Hm, Ht. rewrite tally_fold in Hrun. simpl in Hrun.
  pose proof (samples_pos dl Hsome) as Htpos.
  pose proof (hits_sum_le (model w) dl) as Hct.
  pose proof (loss_sum_nonneg (model w) dl 0 Hpos (Qle_refl 0)) as Hl.
  set (total := list_sum (map (fun b => length (labels b)) dl)) in *.
  set (correct := list_sum (map (fun b => hits _ _) dl)) in *.
  set (total_loss := fold_left _ dl 0) in *.
  pose proof (nat_Q_pos total Htpos) as HT.
  exists correct, total, total_loss, (set_grad_enabled (grad_enabled w) w1).
  split; [reflexivity|]. split.
  { unfold correct. f_equal. apply map_ext. intros b. apply hits_top1. }
  split; [reflexivity|]. split; [exact argmax_max|]. split.
  { unfold test, bind. simpl. rewrite Hrun. simpl.
    destruct (Nat.eqb_spec total 0); [lia | reflexivity]. }
  split.
  { apply float_round_nonneg, to_float_nonneg.
    apply Qle_shift_div_l; [exact HT | lra]. }
  split.
  { pose proof (nat_Q_le 0 correct (Nat.le_0_l _)) as Hc0.
    pose proof (nat_Q_le correct total Hct) as Hc1.
    change (nat_Q 0) with 0 in Hc0.
    assert (0 <= to_float (nat_Q correct / nat_Q total)) as H0
      by (apply to_float_nonneg, Qle_shift_div_l; [exact HT | lra]).
    assert (to_float (nat_Q correct / nat_Q total) <= 1) as H1.
    { apply (to_float_le _ 1); [simpl; lia|].
      apply Qle_shift_div_r; [exact HT | change (inject_Z 1) with 1; lra]. }
    split.
    - apply float_round_nonneg, to_float_nonneg. lra.
    - apply (float_round_le _ 3 100); [simpl; lia|].
      apply (to_float_le _ 100); [simpl; lia|].
      change (inject_Z 100) with 100. lra. }
  repeat split; assumption.
Qed.

End Evaluation.

(** ** The mask builder *)

Section MaskBuilder.
Context `{C : collaborators}.
Local Open Scope run_scope.

Lemma weights_cons name params m :
  weights ((name, params) :: m)
  = if is_weight name then params :: weights m else weights m.
Proof. unfold weights. simpl. by destruct (is_weight name). Qed.

Lemma flat_model_weights_concat m : forall acc,
  flat_model_weights m acc = acc ++ concat (weights m).
Proof.
  induction m as [|[name params] m IH]; intros acc; simpl.
  - by rewrite app_nil_r.
  - rewrite weights_cons. destruct (is_weight name); simpl.
    + rewrite IH. by rewrite <- app_assoc.
    + apply IH.
Qed.

Lemma build_mask_length threshold t :
  length (build_mask threshold t) = length t.
Proof. apply length_map. Qed.

Lemma build_mask_entry threshold t j x :
  t !! j = Some x ->
  (to_dtype threshold < to_dtype (Qabs x) ->
   build_mask threshold t !! j = Some 1) /\
  (~ to_dtype threshold < to_dtype (Qabs x) ->
   build_mask threshold t !! j = Some 0).
Proof.
  intros Hx. unfold build_mask. rewrite list_lookup_fmap, Hx. simpl.
  destruct (Qgtb (to_dtype (Qabs x)) (to_dtype threshold)) eqn:E.
  - apply Qgtb_true in E. split; [done | by intros []].
  - split; [|done]. intros Hlt. apply Qgtb_true in Hlt. congruence.
Qed.

(** A weight that is not above the threshold is pruned, whatever the
    conversion rounds to. *)
Lemma build_mask_below threshold t j x :
  t !! j = Some x -> Qabs x <= threshold ->
  build_mask threshold t !! j = Some 0.
Proof.
  intros Hx Hle. apply (build_mask_entry threshold t j x Hx).
  apply Qle_not_lt. by apply to_dtype_mono.
Qed.

Lemma torch_load_Ok i e w cpt w' :
  torch_load i e w = Ok cpt w' ->
  files w !! (i, e) = Some cpt /\ w' = log (CallTorchLoad i e) w.
Proof.
  unfold torch_load, bind. simpl.
  destruct (files w !! (i, e)) as [c|]; simpl; [|discriminate].
  by intros [= -> <-].
Qed.

Lemma load_state_dict_Ok sd w w' :
  load_state_dict sd w = Ok tt w' ->
  layout sd = layout (model w) /\ w' = set_model sd (log CallLoadStateDict w).
Proof.
  unfold load_state_dict, bind. simpl.
  destruct (decide (layout sd = layout (model w))); simpl; [|discriminate].
  by intros [= <-].
Qed.

Lemma permute_masks_with_length ms : forall g,
  length (permute_masks_with g ms).1 = length ms.
Proof.
  induction ms as [|mask ms IH]; intros g; simpl; [done|].
  destruct (shuffle g mask) as [mask' g1].
  specialize (IH g1). destruct (permute_masks_with g1 ms) as [rest' g2].
  simpl in *. by rewrite IH.
Qed.

Lemma permute_masks_Ok ms w ms' w' :
  permute_masks ms w = Ok ms' w' ->
  length ms' = length ms /\ model w' = model w /\
  trace w' = trace w ++ [CallPermuteMasks (length ms)].
Proof.
  unfold permute_masks, bind. simpl.
  pose proof (permute_masks_with_length ms (rng w)) as Hlen.
  destruct (permute_masks_with (rng w) ms) as [new_masks g']. simpl.
  intros [= <- <-]. auto.
Qed.

(** The second loop, in any mode: the counters it prints, and one mask per
    prunable tensor. *)
Lemma mask_loop_counts threshold random m : forall zeros total w zt w' ms,
  masks w = Some ms ->
  fold_each m (mask_loop_body threshold random) (zeros, total) w = Ok zt w' ->
  zt = ((zeros + zeros_below threshold (weights m))%nat,
        (total + length (concat (weights m)))%nat) /\
  model w' = model w /\
  exists ms', masks w' = Some ms' /\
              length ms' = (length ms + length (weights m))%nat.
Proof.
  induction m as [|[name params] m IH]; intros zeros total w zt w' ms Hms Hrun;
    simpl in Hrun.
  - injection Hrun as <- <-. unfold weights. simpl.
    rewrite !Nat.add_0_r. eauto.
  - apply bind_Ok in Hrun as (zt1 & w1 & Hbody & Hrest).
    rewrite weights_cons. destruct (is_weight name) eqn:Ew; simpl.
    + apply bind_Ok in Hbody as (ms0 & w2 & Hl & Hbody).
      apply local_Ok in Hl as [Hl ->]. rewrite Hms in Hl. injection Hl as <-.
      apply bind_Ok in Hbody as ([] & w3 & Hmod & Hbody).
      injection Hmod as <-.
      apply bind_Ok in Hbody as ([] & w4 & Hperm & Hret).
      injection Hret as <- <-.
      assert (model w4 = model w /\ exists ms4, masks w4 = Some ms4 /\
              length ms4 = S (length ms)) as (Hm4 & ms4 & Hms4 & Hlen4).
      { destruct (negb (String.eqb random "false")).
        - apply bind_Ok in Hperm as (ms1 & w5 & Hl1 & Hperm).
          apply local_Ok in Hl1 as [Hl1 ->]. simpl in Hl1.
          injection Hl1 as <-.
          apply bind_Ok in Hperm as (ms2 & w6 & Hp & Hset).
          apply permute_masks_Ok in Hp as (Hlen & Hm6 & _).
          injection Hset as <-. simpl. split; [exact Hm6|].
          exists ms2. split; [done|]. rewrite Hlen, length_app. simpl. lia.
        - injection Hperm as <-. simpl. split; [done|].
          eexists. split; [done|]. rewrite length_app. simpl. lia. }
      destruct (IH _ _ _ _ _ _ Hms4 Hrest) as (-> & Hm' & ms' & Hms' & Hlen').
      split; [|split].
      * f_equal; rewrite ?length_app, ?build_mask_length; lia.
      * congruence.
      * exists ms'. split; [exact Hms'|]. lia.
    + injection Hbody as <- <-. eapply IH; eassumption.
Qed.

(** The second loop when [random == 'false']: the masks are appended as
    built. *)
Lemma mask_loop_plain threshold m : forall zeros total w zt w' ms,
  masks w = Some ms ->
  fold_each m (mask_loop_body threshold "false") (zeros, total) w = Ok zt w' ->
  masks w' = Some (ms ++ map (build_mask threshold) (weights m)) /\
  trace w' = trace w.
Proof.
  induction m as [|[name params] m IH]; intros zeros total w zt w' ms Hms Hrun;
    simpl in Hrun.
  - injection Hrun as <- <-. unfold weights. simpl. by rewrite app_nil_r.
  - apply bind_Ok in Hrun as (zt1 & w1 & Hbody & Hrest).
    rewrite weights_cons. destruct (is_weight name) eqn:Ew; simpl.
    + apply bind_Ok in Hbody as (ms0 & w2 & Hl & Hbody).
      apply local_Ok in Hl as [Hl ->]. rewrite Hms in Hl. injection Hl as <-.
      simpl in Hbody. unfold bind in Hbody. simpl in Hbody.
      injection Hbody as <- <-.
      destruct (fun H => IH _ _ _ _ _ (ms ++ [build_mask threshold params])
                            H Hrest) as (Hms' & Ht); [reflexivity|].
      split; [|exact Ht]. rewrite Hms'. by rewrite <- app_assoc.
    + injection Hbody as <- <-. eapply IH; eassumption.
Qed.

Lemma compute_threshold_Ok m i threshold :
  compute_threshold m i = inr threshold ->
  exists q, weight_fractions !! i = Some q /\
            percentile (map Qabs (concat (weights m))) q = inr threshold.
Proof.
  unfold compute_threshold, py_index.
  destruct (weight_fractions !! i) as [q|]; [|discriminate].
  rewrite flat_model_weights_concat. simpl. eauto.
Qed.

Lemma mask_loop_emits threshold random m zt :
  emits is_permute (fold_each m (mask_loop_body threshold random) zt).
Proof. unfold mask_loop_body. quiet. Qed.

(** In random-ticket mode the second loop calls [permute_masks] once per
    prunable tensor, each time on the masks collected so far. *)
Lemma mask_loop_permutes threshold random m : forall zt w zt' w' ms,
  random <> "false"%string ->
  masks w = Some ms ->
  fold_each m (mask_loop_body threshold random) zt w = Ok zt' w' ->
  trace w' = trace w ++ map CallPermuteMasks
                          (seq (S (length ms)) (length (weights m))).
Proof.
  induction m as [|[name params] m IH]; intros [zeros total] w zt' w' ms
    Hrandom Hms Hrun; simpl in Hrun.
  - injection Hrun as <- <-. simpl. by rewrite app_nil_r.
  - apply bind_Ok in Hrun as (zt1 & w1 & Hbody & Hrest).
    rewrite weights_cons. destruct (is_weight name) eqn:Ew; simpl.
    + apply bind_Ok in Hbody as (ms0 & w2 & Hl & Hbody).
      apply local_Ok in Hl as [Hl ->]. rewrite Hms in Hl. injection Hl as <-.
      apply bind_Ok in Hbody as ([] & w3 & Hmod & Hbody).
      injection Hmod as <-.
      apply bind_Ok in Hbody as ([] & w4 & Hperm & Hret).
      injection Hret as <- <-.
      apply String.eqb_neq in Hrandom. rewrite Hrandom in Hperm. simpl in Hperm.
      apply bind_Ok in Hperm as (ms1 & w5 & Hl1 & Hperm).
      apply local_Ok in Hl1 as [Hl1 ->]. simpl in Hl1. injection Hl1 as <-.
      apply bind_Ok in Hperm as (ms2 & w6 & Hp & Hset).
      apply permute_masks_Ok in Hp as (Hlen & _ & Ht).
      injection Hset as <-.
      assert (Hne : random <> "false"%string) by (by apply String.eqb_neq).
      assert (Hm2 : masks (set_masks (Some ms2) w6) = Some ms2) by reflexivity.
      rewrite (IH _ _ _ _ ms2 Hne Hm2 Hrest).
      simpl. rewrite Ht, Hlen, length_app. simpl.
      rewrite <- app_assoc. simpl.
      by replace (length ms + 1)%nat with (S (length ms)) by lia.
    + injection Hbody as <- <-. eapply IH; eassumption.
Qed.

(** What lines 59-81 leave behind when they complete. *)
Lemma load_and_build_masks_Ok i random w w' :
  load_and_build_masks i random w = Ok tt w' ->
  exists last cpt q threshold ms d,
    last_epoch w = Some last /\
    files w !! ((i - 1)%nat, last) = Some cpt /\
    model w' = model_state_dict cpt /\
    weight_fractions !! i = Some q /\
    percentile (map Qabs (concat (weights (model w')))) q = inr threshold /\
    masks w' = Some ms /\
    length ms = length (weights (model w')) /\
    (random = "false"%string ->
     ms = map (build_mask threshold) (weights (model w'))) /\
    forallb is_permute d = true /\
    trace w' = trace w
               ++ [CallTorchLoad (i - 1) last; CallLoadStateDict] ++ d
               ++ [PrintFraction (zeros_below threshold (weights (model w')))
                     (length (concat (weights (model w'))))] /\
    (random <> "false"%string ->
     d = map CallPermuteMasks (seq 1 (length (weights (model w'))))).
Proof.
  unfold load_and_build_masks. intros H.
  apply bind_Ok in H as (last & w1 & Hlast & H).
  apply local_Ok in Hlast as [Hlast ->].
  apply bind_Ok in H as (cpt & w1 & Hload & H).
  apply torch_load_Ok in Hload as [Hfile ->].
  apply bind_Ok in H as ([] & w2 & Hsd & H).
  apply load_state_dict_Ok in Hsd as [Hlay ->].
  apply bind_Ok in H as ([] & w3 & Hmod & H). injection Hmod as <-.
  apply bind_Ok in H as (m & w4 & Hget & H). injection Hget as <- <-.
  simpl in H.
  apply bind_Ok in H as (threshold & w5 & Hthr & H).
  apply lift_Ok in Hthr as [Hthr ->].
  apply compute_threshold_Ok in Hthr as (q & Hq & Hperc).
  apply bind_Ok in H as ([zeros total] & w6 & Hloop & H).
  set (w0 := set_masks (Some []) _) in *.
  destruct (mask_loop_emits threshold random (model_state_dict cpt)
              (0%nat, 0%nat) w0) as (d & Hd & Hperm).
  rewrite Hloop in Hd. simpl in Hd.
  assert (Hm0 : masks w0 = Some []) by reflexivity.
  pose proof (mask_loop_counts _ _ _ _ _ _ _ _ [] Hm0 Hloop)
    as (Hzt & Hm6 & ms & Hms & Hlen).
  injection Hzt as -> ->.
  destruct (_ =? _)%nat; [discriminate|]. injection H as <-.
  exists last, cpt, q, threshold, ms, d. simpl. rewrite Hm6. simpl.
  repeat split; try assumption.
  - intros ->. destruct (mask_loop_plain _ _ _ _ _ _ _ [] Hm0 Hloop) as [E _].
    simpl in E. congruence.
  - rewrite Hd. simpl. rewrite <- !app_assoc. reflexivity.
  - intros Hrandom.
    pose proof (mask_loop_permutes _ _ _ _ _ _ _ [] Hrandom Hm0 Hloop) as Hp.
    rewrite Hd in Hp. apply app_inv_head in Hp. exact Hp.
Qed.

Lemma load_and_build_masks_layout i random w w' :
  load_and_build_masks i random w = Ok tt w' ->
  layout (model w') = layout (model w).
Proof.
  unfold load_and_build_masks. intros H.
  apply bind_Ok in H as (last & w1 & Hlast & H).
  apply local_Ok in Hlast as [Hlast ->].
  apply bind_Ok in H as (cpt & w1 & Hload & H).
  apply torch_load_Ok in Hload as [Hfile ->].
  apply bind_Ok in H as ([] & w2 & Hsd & H).
  apply load_state_dict_Ok in Hsd as [Hlay ->].
  apply bind_Ok in H as ([] & w3 & Hmod & H). injection Hmod as <-.
  apply bind_Ok in H as (m & w4 & Hget & H). injection Hget as <- <-.
  simpl in H.
  apply bind_Ok in H as (threshold & w5 & Hthr & H).
  apply lift_Ok in Hthr as [Hthr ->].
  apply bind_Ok in H as ([zeros total] & w6 & Hloop & H).
  eapply (mask_loop_counts _ _ _ _ _ _ _ _ []) in Hloop as (_ & Hm6 & _);
    [|reflexivity].
  destruct (_ =? _)%nat; [discriminate|]. injection H as <-.
  simpl. rewrite Hm6. exact Hlay.
Qed.

Lemma mask_loop_plain_runs threshold m : forall zeros total w ms,
  masks w = Some ms ->
  exists w',
    fold_each m (mask_loop_body threshold "false") (zeros, total) w
    = Ok ((zeros + zeros_below threshold (weights m))%nat,
          (total + length (concat (weights m)))%nat) w'.
Proof.
  induction m as [|[name params] m IH]; intros zeros total w ms Hms; simpl.
  - exists w. unfold weights, ret. simpl. by rewrite !Nat.add_0_r.
  - rewrite weights_cons. unfold bind at 1.
    destruct (is_weight name) eqn:Ew; simpl.
    + unfold bind, local. rewrite Hms. simpl.
      set (w1 := set_masks _ w).
      destruct (IH (zeros + (length (build_mask threshold params)
                             - nonzero_count (build_mask threshold params)))%nat
                  (total + length (build_mask threshold params))%nat
                  w1 (ms ++ [build_mask threshold params]) eq_refl)
        as [w' Hw'].
      exists w'. rewrite Hw'. f_equal. f_equal.
      * lia.
      * rewrite length_app, build_mask_length. lia.
    + apply (IH _ _ _ ms Hms).
Qed.

(** The block returns whenever the previous round's checkpoint is there
    with the model's layout, the schedule has a percentile for the round,
    and there is a weight to prune. *)
Lemma mask_builder_returns i w last cpt q :
  last_epoch w = Some last ->
  files w !! ((i - 1)%nat, last) = Some cpt ->
  layout (model_state_dict cpt) = layout (model w) ->
  weight_fractions !! i = Some q -> 0 <= q <= 100 ->
  concat (weights (model_state_dict cpt)) <> [] ->
  exists w', load_and_build_masks i "false" w = Ok tt w'.
Proof.
  intros Hlast Hfile Hlay Hq [Hq0 Hq100] Hne.
  unfold load_and_build_masks, bind, local, torch_load, load_state_dict.
  rewrite Hlast. simpl. unfold bind. simpl. rewrite Hfile. simpl.
  destruct (decide _) as [_|Hno]; [|done]. simpl.
  unfold compute_threshold, py_index. rewrite Hq.
  rewrite flat_model_weights_concat. simpl. unfold percentile.
  apply Qle_bool_iff in Hq0, Hq100. rewrite Hq0, Hq100. simpl.
  destruct (map Qabs (concat (weights (model_state_dict cpt)))) as [|x l] eqn:E.
  { apply map_eq_nil in E. done. }
  simpl.
  set (w0 := set_masks (Some []) _).
  destruct (mask_loop_plain_runs (lerp_index (insert_sorted x (sort_Q l)) q)
              (model_state_dict cpt) 0 0 w0 [] eq_refl) as [w' Hw'].
  rewrite Hw'. simpl.
  destruct (concat (weights (model_state_dict cpt))); [done|].
  simpl. eauto.
Qed.





(** The permuter as specified keeps each tensor's shape and its number of
    ones, whatever the draws, as long as a draw reorders a tensor. *)
Lemma permute_masks_with_reorders :
  (forall g t, (shuffle g t).1 ≡ₚ t) ->
  forall ms g, Forall2 (fun new old => new ≡ₚ old) (permute_masks_with g ms).1 ms.
Proof.
  intros Hshuffle. induction ms as [|mask ms IH]; intros g; simpl.
  - constructor.
  - pose proof (Hshuffle g mask) as Hm.
    destruct (shuffle g mask) as [mask' g1].
    specialize (IH g1). destruct (permute_masks_with g1 ms) as [rest' g2].
    simpl in *. by constructor.
Qed.

Lemma reorder_keeps_shape_and_ones (new old : tensor) :
  new ≡ₚ old ->
  length new = length old /\ nonzero_count new = nonzero_count old.
Proof.
  intros H. split; [by rewrite H|]. unfold nonzero_count.
  induction H as [|x l l' _ IH|x y l|l l' l'' _ IH1 _ IH2]; simpl.
  - done.
  - destruct (negb (Qeq_bool x 0)); simpl; by rewrite IH.
  - destruct (negb (Qeq_bool x 0)), (negb (Qeq_bool y 0)); reflexivity.
  - by rewrite IH1.
Qed.

Lemma permute_masks_value ms w ms' w' :
  permute_masks ms w = Ok ms' w' -> ms' = (permute_masks_with (rng w) ms).1.
Proof.
  unfold permute_masks, bind. simpl.
  destruct (permute_masks_with (rng w) ms) as [new_masks g']. simpl.
  by intros [= <- <-].
Qed.

(** Permuting after every append still only reorders each tensor's mask:
    in either mode the masks the loop ends with are, tensor by tensor,
    reorderings of the masks as built. *)
Lemma mask_loop_reorders threshold random m :
  (forall g t, (shuffle g t).1 ≡ₚ t) ->
  forall zt w zt' w' ms built,
    masks w = Some ms ->
    Forall2 (fun new old => new ≡ₚ old) ms built ->
    fold_each m (mask_loop_body threshold random) zt w = Ok zt' w' ->
    exists ms', masks w' = Some ms' /\
      Forall2 (fun new old => new ≡ₚ old) ms'
        (built ++ map (build_mask threshold) (weights m)).
Proof.
  intros Hshuffle.
  induction m as [|[name params] m IH]; intros [zeros total] w zt' w' ms built
    Hms Hbuilt Hrun; simpl in Hrun.
  - injection Hrun as <- <-. exists ms. unfold weights. simpl.
    by rewrite app_nil_r.
  - apply bind_Ok in Hrun as (zt1 & w1 & Hbody & Hrest).
    rewrite weights_cons. destruct (is_weight name) eqn:Ew; simpl.
    + apply bind_Ok in Hbody as (ms0 & w2 & Hl & Hbody).
      apply local_Ok in Hl as [Hl ->]. rewrite Hms in Hl. injection Hl as <-.
      apply bind_Ok in Hbody as ([] & w3 & Hmod & Hbody).
      injection Hmod as <-.
      apply bind_Ok in Hbody as ([] & w4 & Hperm & Hret).
      injection Hret as <- <-.
      assert (Happ : Forall2 (fun new old => new ≡ₚ old)
                       (ms ++ [build_mask threshold params])
                       (built ++ [build_mask threshold params]))
        by (apply Forall2_app; [exact Hbuilt | by constructor]).
      assert (exists ms4, masks w4 = Some ms4 /\
                Forall2 (fun new old => new ≡ₚ old) ms4
                  (built ++ [build_mask threshold params]))
        as (ms4 & Hms4 & H4).
      { destruct (negb (String.eqb random "false")).
        - apply bind_Ok in Hperm as (ms1 & w5 & Hl1 & Hperm).
          apply local_Ok in Hl1 as [Hl1 ->]. simpl in Hl1.
          injection Hl1 as <-.
          apply bind_Ok in Hperm as (ms2 & w6 & Hp & Hset).
          apply permute_masks_value in Hp as ->. injection Hset as <-.
          eexists. split; [reflexivity|].
          eapply Forall2_trans; [|apply permute_masks_with_reorders|exact Happ];
            [|exact Hshuffle].
          intros x y z Hxy Hyz. by rewrite Hxy.
        - injection Hperm as <-. eauto. }
      destruct (IH _ _ _ _ _ _ Hms4 H4 Hrest) as (ms' & Hms' & H').
      exists ms'. split; [exact Hms'|]. by rewrite <- app_assoc in H'.
    + injection Hbody as <- <-. eapply IH; eassumption.
Qed.

(** So the masks a round trains with have, tensor by tensor, the shape and
    the number of ones of the thresholded masks, in random-ticket mode too
    (for the permuter as specified). *)
Lemma trained_masks_keep_density i random w w' :
  (forall g t, (shuffle g t).1 ≡ₚ t) ->
  load_and_build_masks i random w = Ok tt w' ->
  exists q threshold ms,
    weight_fractions !! i = Some q /\
    percentile (map Qabs (concat (weights (model w')))) q = inr threshold /\
    masks w' = Some ms /\
    Forall2 (fun new built => length new = length built /\
                              nonzero_count new = nonzero_count built)
      ms (map (build_mask threshold) (weights (model w'))).
Proof.
  intros Hshuffle. unfold load_and_build_masks. intros H.
  apply bind_Ok in H as (last & w1 & Hlast & H).
  apply local_Ok in Hlast as [Hlast ->].
  apply bind_Ok in H as (cpt & w1 & Hload & H).
  apply torch_load_Ok in Hload as [Hfile ->].
  apply bind_Ok in H as ([] & w2 & Hsd & H).
  apply load_state_dict_Ok in Hsd as [Hlay ->].
  apply bind_Ok in H as ([] & w3 & Hmod & H). injection Hmod as <-.
  apply bind_Ok in H as (m & w4 & Hget & H). injection Hget as <- <-.
  simpl in H.
  apply bind_Ok in H as (threshold & w5 & Hthr & H).
  apply lift_Ok in Hthr as [Hthr ->].
  apply compute_threshold_Ok in Hthr as (q & Hq & Hperc).
  apply bind_Ok in H as ([zeros total] & w6 & Hloop & H).
  set (w0 := set_masks (Some []) _) in *.
  assert (Hm0 : masks w0 = Some []) by reflexivity.
  pose proof (mask_loop_counts _ _ _ _ _ _ _ _ [] Hm0 Hloop) as (_ & Hm6 & _).
  assert (Hnil : Forall2 (fun new old : tensor => new ≡ₚ old) [] [])
    by constructor.
  destruct (mask_loop_reorders _ _ _ Hshuffle _ _ _ _ [] [] Hm0 Hnil Hloop)
    as (ms & Hms & Hre).
  destruct (_ =? _)%nat; [discriminate|]. injection H as <-.
  exists q, threshold, ms. simpl. rewrite Hm6. simpl.
  repeat split; try assumption.
  eapply Forall2_impl; [exact Hre|]. intros new built.
  apply reorder_keeps_shape_and_ones.
Qed.

(** C4, as the code has it: in random-ticket mode ([random != 'false'])
    [permute_masks] is called inside the loop that builds the masks, after
    each mask is appended: once per prunable tensor, the k-th call on the
    k masks collected so far, and not once on the complete sequence. *)
Theorem permuter_called_per_tensor i random w w' :
  random <> "false"%string ->
  load_and_build_masks i random w = Ok tt w' ->
  exists d, trace w' = trace w ++ d /\
            omap as_permute d = seq 1 (length (weights (model w'))).
Proof.
  intros Hrandom H. apply load_and_build_masks_Ok in H
    as (lst & cpt & q & threshold & ms & d & _ & _ & _ & _ & _ & _ & _
        & _ & _ & Ht & Hd).
  eexists. split; [exact Ht|]. rewrite (Hd Hrandom).
  rewrite !omap_app. simpl. rewrite app_nil_r.
  generalize (seq 1 (length (weights (model w')))). intros l.
  induction l as [|n l IH]; simpl; [done | f_equal; exact IH].
Qed.

End MaskBuilder.

(** ** Masked training *)

Section MaskedTraining.
Context `{C : collaborators}.
Local Open Scope run_scope.

Lemma apply_masks_from_weights ms m : forall li m',
  apply_masks_from ms li m = inr m' ->
  forall k t', weights m' !! k = Some t' ->
    exists t mask, weights m !! k = Some t /\ ms !! (li + k)%nat = Some mask /\
                   length mask = length t /\ t' = mul_ t mask.
Proof.
  induction m as [|[name params] m IH]; intros li m' H k t' Hk; simpl in H.
  - injection H as <-. done.
  - rewrite weights_cons. destruct (is_weight name) eqn:Ew.
    + destruct (ms !! li) as [mask|] eqn:Emask; [|discriminate].
      destruct (decide (length mask = length params)) as [Hlen|]; [|discriminate].
      destruct (apply_masks_from ms (S li) m) as [e|rest'] eqn:Erest;
        [discriminate|].
      injection H as <-. rewrite weights_cons, Ew in Hk.
      destruct k as [|k]; simpl in Hk.
      * injection Hk as <-. exists params, mask.
        rewrite Nat.add_0_r. auto.
      * destruct (IH _ _ Erest k t' Hk) as (t & mk & ? & Hmk & ? & ?).
        exists t, mk. simpl. replace (li + S k)%nat with (S li + k)%nat by lia.
        auto.
    + destruct (apply_masks_from ms li m) as [e|rest'] eqn:Erest;
        [discriminate|].
      injection H as <-. rewrite weights_cons, Ew in Hk.
      eapply IH; eassumption.
Qed.

Lemma apply_masks_from_masked_zero ms m m' :
  apply_masks_from ms 0 m = inr m' -> masked_zero ms m'.
Proof.
  intros H k t' mask j x Hk Hmask Hj Hx.
  destruct (apply_masks_from_weights _ _ _ _ H k t' Hk)
    as (t & mask' & _ & Hmask' & Hlen & ->).
  simpl in Hmask'. rewrite Hmask in Hmask'. injection Hmask' as <-.
  assert (j < length t)%nat as Hjt
    by (rewrite <- Hlen; eapply lookup_lt_Some; eassumption).
  destruct (lookup_lt_is_Some_2 t j Hjt) as [y Hy].
  exists (y * x). split.
  - unfold mul_. rewrite lookup_zip_with, Hy. simpl. by rewrite Hj.
  - rewrite Hx. ring.
Qed.

Lemma apply_masks_Ok w w' :
  apply_masks w = Ok tt w' ->
  exists ms m', masks w = Some ms /\ apply_masks_from ms 0 (model w) = inr m' /\
                w' = set_model m' w.
Proof.
  unfold apply_masks. intros H.
  apply bind_Ok in H as (ms & w1 & Hms & H). apply local_Ok in Hms as [Hms ->].
  apply bind_Ok in H as (m & w1 & Hm & H). injection Hm as <- <-.
  apply bind_Ok in H as (m' & w1 & Hm' & H). apply lift_Ok in Hm' as [Hm' ->].
  injection H as <-. eauto.
Qed.


Lemma apply_masks_frame {X} (f : world -> X) :
  (forall m w, f (set_model m w) = f w) -> preserves f apply_masks.
Proof. intros H. unfold apply_masks. frame. apply preserves_modify, H. Qed.

Lemma train_batch_last_epoch i data : preserves last_epoch (train_batch i data).
Proof. unfold train_batch, apply_masks. frame. Qed.

Lemma train_epoch_masks i ne la dtr epoch :
  preserves masks (train_epoch i ne la dtr epoch).
Proof.
  unfold train_epoch, anneal, train_batch, apply_masks, torch_save. frame.
Qed.

Lemma torch_save_Ok i epoch w w' :
  torch_save i epoch w = Ok tt w' ->
  exists o, the_optimizer w = Some o /\
    w' = set_files (<[(i, epoch) :=
           {| cp_epoch := epoch; model_state_dict := model w;
              optimizer_state_dict := o |}]> (files w))
           (log (CallTorchSave i epoch) w).
Proof.
  unfold torch_save. intros H.
  apply bind_Ok in H as (m & w1 & Hm & H). injection Hm as <- <-.
  apply bind_Ok in H as (o & w1 & Ho & H). apply local_Ok in Ho as [Ho ->].
  unfold bind in H. simpl in H. injection H as <-. eauto.
Qed.


(** The epochs of a round: the last one masks the parameters (when
    [pruning_iter != 0]) and writes them to the round's checkpoint. *)
Lemma training_Ok i ne la dtr w w' :
  (1 <= ne)%nat ->
  for_each (seq 1 ne) (train_epoch i ne la dtr) w = Ok tt w' ->
  last_epoch w' = Some ne /\ masks w' = masks w /\
  (exists cp, files w' !! (i, ne) = Some cp /\
              model_state_dict cp = model w' /\
              Some (optimizer_state_dict cp) = the_optimizer w') /\
  (i <> 0%nat -> exists ms, masks w = Some ms /\ masked_zero ms (model w')).
Proof.
  intros Hne Hrun.
  assert (Hmasks : masks w' = masks w).
  { eapply (preserves_Ok masks); [|exact Hrun].
    apply preserves_for_each. intros. apply train_epoch_masks. }
  destruct ne as [|n]; [lia|]. rewrite seq_S, for_each_app in Hrun.
  apply bind_Ok in Hrun as ([] & wa & _ & Hlast). simpl in Hlast.
  apply bind_Ok in Hlast as ([] & wb & Hepoch & Hret). injection Hret as <-.
  assert (Hma : masks wb = masks wa).
  { eapply (preserves_Ok masks); [|exact Hepoch]. apply train_epoch_masks. }
  unfold train_epoch in Hepoch.
  apply bind_Ok in Hepoch as ([] & w1 & Hset & H). injection Hset as <-.
  apply bind_Ok in H as ([] & w2 & Hanneal & H).
  apply bind_Ok in H as ([] & w3 & Hbatches & H).
  rewrite Nat.eqb_refl in H. simpl in H.
  apply bind_Ok in H as ([] & w4 & Hmask & Hsave).
  apply torch_save_Ok in Hsave as (o & Ho & ->). simpl.
  assert (last_epoch w4 = Some (S n)) as ->.
  { transitivity (last_epoch w3).
    { eapply (preserves_Ok last_epoch); [|exact Hmask].
      apply preserves_when, apply_masks_frame. reflexivity. }
    transitivity (last_epoch w2).
    { eapply (preserves_Ok last_epoch); [|exact Hbatches].
      apply preserves_for_each. intros. apply train_batch_last_epoch. }
    transitivity (last_epoch (set_last_epoch (Some (S n)) wa)); [|done].
    eapply (preserves_Ok last_epoch); [|exact Hanneal].
    unfold anneal. frame. }
  split; [reflexivity|]. split; [exact Hmasks|]. split.
  - eexists. rewrite lookup_insert_eq. split; [reflexivity|]. simpl.
    split; [reflexivity | by rewrite Ho].
  - intros Hi. destruct (Nat.eqb_spec i 0) as [|_]; [done|]. simpl in Hmask.
    apply apply_masks_Ok in Hmask as (ms & masked & Hms & Hmasked & ->).
    exists ms. simpl in *. split.
    + rewrite <- Hmasks. exact Hms.
    + eapply apply_masks_from_masked_zero. exact Hmasked.
Qed.

End MaskedTraining.

(** ** The orchestrator's control flow *)

Section Orchestrator.
Context `{C : collaborators}.
Local Open Scope run_scope.

Lemma new_optimizer_emits optimizer_type :
  emits is_new_optimizer (new_optimizer optimizer_type).
Proof. unfold new_optimizer. quiet. Qed.

Lemma load_and_build_masks_emits i random :
  emits of_mask_building (load_and_build_masks i random).
Proof.
  unfold load_and_build_masks, torch_load, load_state_dict, mask_loop_body.
  quiet.
Qed.

Lemma train_epoch_emits i ne la dtr epoch :
  emits of_training (train_epoch i ne la dtr epoch).
Proof.
  unfold train_epoch, anneal, train_batch, torch_save.
  quiet.
Qed.

Lemma test_emits dl : emits is_forward (test dl).
Proof. unfold test, test_batch. quiet. Qed.

Lemma append_results_emits P l a : emits P (append_results l a).
Proof. unfold append_results. quiet. Qed.

(** What a round adds to the log, for a projection that ignores the
    bookkeeping, mask-building and training events. *)
Lemma pruning_round_yields {T} (obs : event -> option T) a b
    ne la ot dtr dte init random eq i :
  obs (PrintRunning i) = None ->
  (forall e, is_new_optimizer e = true -> obs e = None) ->
  (forall e, of_mask_building e = true -> obs e = None) ->
  (forall e, of_training e = true -> obs e = None) ->
  yields obs a (load_weights init eq) ->
  yields obs b (evaluate i dte) ->
  yields obs ((if String.eqb random "false" then a else [])
              ++ (if evaluates i then b else []))
    (pruning_round ne la ot dtr dte init random eq i).
Proof.
  intros H0 H1 H2 H3 Ha Hb. unfold pruning_round.
  eapply yields_eq.
  - eapply yields_bind.
    { generalize (yields_emit obs (PrintRunning i)). rewrite H0. intros H; exact H. }
    intros _. eapply yields_bind.
    { eapply emits_yields; [exact H1 | apply new_optimizer_emits]. }
    intros _. eapply yields_bind.
    { apply yields_when. eapply emits_yields;
        [exact H2 | apply load_and_build_masks_emits]. }
    intros _. eapply yields_bind.
    { apply yields_when. exact Ha. }
    intros _. eapply yields_bind.
    { eapply emits_yields; [exact H3|]. apply emits_for_each. intros epoch.
      apply train_epoch_emits. }
    intros _. apply yields_when. exact Hb.
  - simpl. by destruct (negb (i =? 0)%nat).
Qed.

Lemma load_weights_yields init eq :
  yields as_load_weights [tt] (load_weights init eq).
Proof.
  unfold load_weights. apply (yields_bind _ [tt] []).
  - apply (yields_emit as_load_weights CallLoadWeights).
  - intros _. eapply (emits_yields _ (fun _ => false)); [done|]. quiet.
Qed.

Lemma evaluate_yields i dte : yields as_tested_round [i] (evaluate i dte).
Proof.
  unfold evaluate. apply (yields_bind _ [] [i]).
  - eapply emits_yields; [|apply test_emits]. by intros [].
  - intros [l a]. apply (yields_bind _ [i] []).
    + apply (yields_emit as_tested_round (PrintTest i l a)).
    + intros _. eapply (emits_yields _ (fun _ => false)); [done|].
      apply append_results_emits.
Qed.

Lemma evaluate_no_load_weights i dte :
  yields as_load_weights [] (evaluate i dte).
Proof.
  unfold evaluate. apply (yields_bind _ [] []).
  - eapply emits_yields; [|apply test_emits]. by intros [].
  - intros [l a]. apply (yields_bind _ [] []).
    + apply (yields_emit as_load_weights (PrintTest i l a)).
    + intros _. eapply (emits_yields _ (fun _ => false)); [done|].
      apply append_results_emits.
Qed.

Lemma load_weights_not_tested init eq :
  yields as_tested_round [] (load_weights init eq).
Proof.
  eapply (emits_yields _ is_load_weights); [by intros []|].
  unfold load_weights. quiet.
Qed.

(** C6: a round that completes calls [load_weights] once when [random] is
    ['false'], and not at all in random-ticket mode ([random != 'false']). *)
Theorem weight_reset_iff_not_random ne la ot dtr dte init random eq i w w' :
  pruning_round ne la ot dtr dte init random eq i w = Ok tt w' ->
  exists d, trace w' = trace w ++ d /\
    (random = "false"%string -> omap as_load_weights d = [tt]) /\
    (random <> "false"%string -> omap as_load_weights d = []).
Proof.
  intros Hrun.
  assert (Hy := pruning_round_yields as_load_weights [tt] []
                  ne la ot dtr dte init random eq i).
  destruct (Hy eq_refl) with (4 := load_weights_yields init eq)
    (5 := evaluate_no_load_weights i dte) (6 := Hrun) as (d & Hd & Hobs);
    try (by intros []).
  exists d. split; [exact Hd|]. rewrite Hobs.
    destruct (String.eqb_spec random "false") as [->|Hne].
    + split; [by destruct (evaluates i) | done].
    + split; [done | by destruct (evaluates i)].
Qed.


Lemma round_tested ne la ot dtr dte init random eq i :
  yields as_tested_round (if evaluates i then [i] else [])
    (pruning_round ne la ot dtr dte init random eq i).
Proof.
  eapply yields_eq.
  - apply (pruning_round_yields as_tested_round [] [i]);
      try done; try (by intros []).
    + apply load_weights_not_tested.
    + apply evaluate_yields.
  - by destruct (String.eqb random "false").
Qed.

(** C9: in a run that completes, the rounds of the loop over 0..30 after
    which the evaluation is run and its result printed are, in order, those
    with [i <= 6] or [i] a multiple of 3. *)
Theorem evaluation_rounds dtr dte architecture ot init random eq w w' :
  prune_iteratively dtr dte architecture ot init random eq w = Ok tt w' ->
  exists d, trace w' = trace w ++ d /\
    omap as_tested_round d
    = filter (fun i => i <= 6 \/ i mod 3 = 0)%nat (seq 0 31).
Proof.
  intros Hrun.
  assert (Hy : yields as_tested_round
                 (concat (map (fun i => if evaluates i then [i] else [])
                            (seq 0 31)))
                 (prune_iteratively dtr dte architecture ot init random eq)).
  { unfold prune_iteratively. eapply yields_eq.
    - eapply (yields_bind _ []).
      { eapply (emits_yields _ (fun _ => false)); [done|].
        unfold schedule. quiet. }
      intros [ne la]. eapply (yields_bind _ []).
      { apply (yields_emit as_tested_round PrintStarted). }
      intros _. eapply (yields_bind _ []).
      { eapply (emits_yields _ (fun _ => false)); [done | quiet]. }
      intros _. eapply (yields_bind _ []).
      { eapply (emits_yields _ (fun _ => false)); [done | quiet]. }
      intros _. eapply yields_bind.
      { apply yields_for_each. intros i. apply round_tested. }
      intros _. eapply (yields_bind _ []).
      { eapply (emits_yields _ (fun _ => false)); [done | quiet]. }
      intros accs. eapply (yields_bind _ []).
      { apply (yields_emit as_tested_round (PrintAccuracys accs)). }
      intros _. eapply (yields_bind _ []).
      { eapply (emits_yields _ (fun _ => false)); [done | quiet]. }
      intros losses. eapply (yields_bind _ []).
      { apply (yields_emit as_tested_round (PrintLosses losses)). }
      intros _. apply (yields_emit as_tested_round PrintFinished).
    - reflexivity. }
  destruct (Hy _ _ _ Hrun) as (d & Hd & Hobs).
  exists d. split; [exact Hd|]. rewrite Hobs. reflexivity.
Qed.

(** C7: with an architecture other than the two supported ones, or an
    optimizer other than the two supported ones, the run raises a
    [ValueError]; the model and the checkpoint files are untouched, and
    nothing of a training epoch (forward pass, optimizer step, checkpoint
    write) has happened. *)
Theorem unsupported_configuration_fails_fast
    dtr dte architecture ot init random eq w :
  (architecture <> "vgg19" /\ architecture <> "resnet50")%string \/
  (ot <> "sgd" /\ ot <> "adam")%string ->
  exists msg w',
    prune_iteratively dtr dte architecture ot init random eq w
    = Raise (ValueError msg) w' /\
    model w' = model w /\ files w' = files w /\
    exists d, trace w' = trace w ++ d /\
              forallb (fun e => negb (of_training e)) d = true.
Proof.
  intros Hbad. unfold prune_iteratively, schedule.
  destruct (String.eqb_spec architecture "vgg19") as [Ev|Nv];
    [|destruct (String.eqb_spec architecture "resnet50") as [Er|Nr]].
  3: { exists (architecture ++ " architecture not supported")%string, w.
       repeat split; try reflexivity. exists []. by rewrite app_nil_r. }
  all: destruct Hbad as [[? ?]|[Ns Na]]; [congruence|].
  all: exists (ot ++ " optimizer not supported")%string.
  all: eexists; split;
    [ unfold bind at 1; simpl; unfold pruning_round, new_optimizer;
      apply String.eqb_neq in Ns, Na; rewrite Ns, Na; reflexivity |].
  all: repeat split; try reflexivity.
  all: exists [PrintStarted; PrintRunning 0]; split; [|reflexivity].
  all: simpl; by rewrite <- app_assoc.
Qed.

(** *** The phases of a round *)

Lemma pruning_round_Ok ne la ot dtr dte init random eq i w w' :
  pruning_round ne la ot dtr dte init random eq i w = Ok tt w' ->
  exists w1 w2 w3 w4,
    new_optimizer ot (log (PrintRunning i) w) = Ok tt w1 /\
    when (negb (i =? 0)%nat) (load_and_build_masks i random) w1 = Ok tt w2 /\
    when (String.eqb random "false") (load_weights init eq) w2 = Ok tt w3 /\
    for_each (seq 1 ne) (train_epoch i ne la dtr) w3 = Ok tt w4 /\
    when (evaluates i) (evaluate i dte) w4 = Ok tt w'.
Proof.
  unfold pruning_round. intros H.
  apply bind_Ok in H as ([] & w0 & Hp & H). injection Hp as <-.
  apply bind_Ok in H as ([] & w1 & H1 & H).
  apply bind_Ok in H as ([] & w2 & H2 & H).
  apply bind_Ok in H as ([] & w3 & H3 & H).
  apply bind_Ok in H as ([] & w4 & H4 & H).
  exists w1, w2, w3, w4. auto.
Qed.

Lemma evaluate_frame {X} (f : world -> X) i dte :
  (forall ev w, f (log ev w) = f w) ->
  (forall b w, f (set_grad_enabled b w) = f w) ->
  (forall l w, f (set_test_accuracys l w) = f w) ->
  (forall l w, f (set_test_losses l w) = f w) ->
  preserves f (when (evaluates i) (evaluate i dte)).
Proof.
  intros H1 H2 H3 H4. apply preserves_when.
  unfold evaluate, test, test_batch, append_results, emit. frame;
    apply preserves_modify; intros; rewrite ?H3, ?H4, ?H2, ?H1; reflexivity.
Qed.

Lemma load_weights_frame {X} (f : world -> X) init eq b :
  (forall ev w, f (log ev w) = f w) ->
  (forall m w, f (set_model m w) = f w) ->
  preserves f (when b (load_weights init eq)).
Proof.
  intros H1 H2. apply preserves_when. unfold load_weights, emit. frame;
    apply preserves_modify; intros; rewrite ?H2, ?H1; reflexivity.
Qed.

Lemma new_optimizer_frame {X} (f : world -> X) ot :
  (forall ev w, f (log ev w) = f w) ->
  (forall o w, f (set_optimizer o w) = f w) ->
  preserves f (new_optimizer ot).
Proof.
  intros H1 H2. unfold new_optimizer, emit. frame;
    apply preserves_modify; intros; rewrite ?H2, ?H1; reflexivity.
Qed.

Lemma evaluate_keeps i dte w w' :
  when (evaluates i) (evaluate i dte) w = Ok tt w' ->
  model w' = model w /\ files w' = files w /\ masks w' = masks w /\
  last_epoch w' = last_epoch w /\ the_optimizer w' = the_optimizer w.
Proof.
  intros H. repeat split.
  - eapply (preserves_Ok model); [apply evaluate_frame; done | exact H].
  - eapply (preserves_Ok files); [apply evaluate_frame; done | exact H].
  - eapply (preserves_Ok masks); [apply evaluate_frame; done | exact H].
  - eapply (preserves_Ok last_epoch); [apply evaluate_frame; done | exact H].
  - eapply (preserves_Ok the_optimizer); [apply evaluate_frame; done | exact H].
Qed.

(** What a completed round leaves behind: [last_epoch], the round's
    checkpoint holding the parameters and the optimizer state, and, from
    round 1 on, parameters that are zero wherever the round's masks are. *)
Lemma round_checkpoint ne la ot dtr dte init random eq i w w' :
  (1 <= ne)%nat ->
  pruning_round ne la ot dtr dte init random eq i w = Ok tt w' ->
  last_epoch w' = Some ne /\
  (exists cp, files w' !! (i, ne) = Some cp /\
              model_state_dict cp = model w' /\
              Some (optimizer_state_dict cp) = the_optimizer w') /\
  (i <> 0%nat -> exists ms, masks w' = Some ms /\ masked_zero ms (model w')).
Proof.
  intros Hne H.
  apply pruning_round_Ok in H as (w1 & w2 & w3 & w4 & _ & _ & _ & Htrain & Hev).
  destruct (training_Ok _ _ _ _ _ _ Hne Htrain) as (Hlast & Hmasks & Hcp & Hz).
  destruct (evaluate_keeps _ _ _ _ Hev) as (-> & -> & -> & -> & ->).
  split; [exact Hlast|]. split; [exact Hcp|].
  intros Hi. destruct (Hz Hi) as (ms & Hms & Hzero).
  exists ms. split; [congruence | exact Hzero].
Qed.


Lemma test_keeps_accumulators dl w r w' :
  test dl w = Ok r w' ->
  test_accuracys w' = test_accuracys w /\ test_losses w' = test_losses w.
Proof.
  intros H. split.
  - eapply (preserves_Ok test_accuracys); [|exact H].
    unfold test, test_batch. frame.
  - eapply (preserves_Ok test_losses); [|exact H].
    unfold test, test_batch. frame.
Qed.

(** C5, as the code has it: an evaluated round computes the scalar test
    loss and accuracy and prints them, but what it appends to each of the
    two accumulated sequences is a reference to that sequence itself (lines
    128-129), not the scalar. *)
Theorem evaluation_appends_the_list_itself i dte w w' :
  evaluate i dte w = Ok tt w' ->
  exists test_loss test_accuracy w1,
    test dte w = Ok (test_loss, test_accuracy) w1 /\
    last (trace w') = Some (PrintTest i test_loss test_accuracy) /\
    test_accuracys w' = test_accuracys w ++ [PyListRef TestAccuracys] /\
    test_losses w' = test_losses w ++ [PyListRef TestLosses].
Proof.
  unfold evaluate. intros H.
  apply bind_Ok in H as ([test_loss test_accuracy] & w1 & Htest & H).
  apply bind_Ok in H as ([] & w2 & Hemit & H). injection Hemit as <-.
  unfold append_results, bind in H. simpl in H. injection H as <-.
  destruct (test_keeps_accumulators _ _ _ _ Htest) as [Ha Hl].
  exists test_loss, test_accuracy, w1. simpl. rewrite Ha, Hl.
  repeat split; try done. apply last_snoc.
Qed.

Lemma load_and_build_masks_frame {X} (f : world -> X) i random :
  (forall ev w, f (log ev w) = f w) ->
  (forall m w, f (set_model m w) = f w) ->
  (forall ms w, f (set_masks ms w) = f w) ->
  (forall g w, f (set_rng g w) = f w) ->
  preserves f (load_and_build_masks i random).
Proof.
  intros H1 H2 H3 H4.
  unfold load_and_build_masks, torch_load, load_state_dict, mask_loop_body,
    permute_masks, emit.
  frame; apply preserves_modify; intros; rewrite ?H4, ?H3, ?H2, ?H1; reflexivity.
Qed.

Lemma train_epoch_frame {X} (f : world -> X) i ne la dtr epoch :
  (forall ev w, f (log ev w) = f w) ->
  (forall m w, f (set_model m w) = f w) ->
  (forall o w, f (set_optimizer o w) = f w) ->
  (forall e w, f (set_last_epoch e w) = f w) ->
  (forall fs w, f (set_files fs w) = f w) ->
  preserves f (train_epoch i ne la dtr epoch).
Proof.
  intros H1 H2 H3 H4 H5.
  unfold train_epoch, anneal, train_batch, apply_masks, torch_save, emit.
  frame; apply preserves_modify; intros;
    rewrite ?H5, ?H4, ?H3, ?H2, ?H1; reflexivity.
Qed.

Lemma evaluate_appends i dte w w' :
  evaluate i dte w = Ok tt w' ->
  test_accuracys w' = test_accuracys w ++ [PyListRef TestAccuracys] /\
  test_losses w' = test_losses w ++ [PyListRef TestLosses].
Proof.
  unfold evaluate. intros H.
  apply bind_Ok in H as ([test_loss test_accuracy] & w1 & Htest & H).
  apply test_keeps_accumulators in Htest as [<- <-].
  unfold append_results, emit, bind in H. simpl in H. by injection H as <-.
Qed.

(** A round appends to each accumulator once if it is evaluated, and the
    element is the list itself. *)
Lemma round_accumulators ne la ot dtr dte init random eq i w w' :
  pruning_round ne la ot dtr dte init random eq i w = Ok tt w' ->
  test_accuracys w'
  = test_accuracys w ++ (if evaluates i then [PyListRef TestAccuracys] else [])
  /\
  test_losses w'
  = test_losses w ++ (if evaluates i then [PyListRef TestLosses] else []).
Proof.
  intros H. apply pruning_round_Ok in H
    as (w1 & w2 & w3 & w4 & H1 & H2 & H3 & H4 & H5).
  assert (test_accuracys w4 = test_accuracys w /\
          test_losses w4 = test_losses w) as [Ha Hl].
  { split.
    - transitivity (test_accuracys w3).
      { eapply (preserves_Ok test_accuracys); [|exact H4].
        apply preserves_for_each. intros. by apply train_epoch_frame. }
      transitivity (test_accuracys w2).
      { eapply (preserves_Ok test_accuracys); [|exact H3].
        by apply load_weights_frame. }
      transitivity (test_accuracys w1).
      { eapply (preserves_Ok test_accuracys); [|exact H2].
        by apply preserves_when, load_and_build_masks_frame. }
      eapply (preserves_Ok test_accuracys) in H1; [exact H1|].
      by apply new_optimizer_frame.
    - transitivity (test_losses w3).
      { eapply (preserves_Ok test_losses); [|exact H4].
        apply preserves_for_each. intros. by apply train_epoch_frame. }
      transitivity (test_losses w2).
      { eapply (preserves_Ok test_losses); [|exact H3].
        by apply load_weights_frame. }
      transitivity (test_losses w1).
      { eapply (preserves_Ok test_losses); [|exact H2].
        by apply preserves_when, load_and_build_masks_frame. }
      eapply (preserves_Ok test_losses) in H1; [exact H1|].
      by apply new_optimizer_frame. }
  apply when_Ok in H5 as [[-> H5]|[-> ->]].
  - apply evaluate_appends in H5 as [-> ->]. by rewrite Ha, Hl.
  - by rewrite !app_nil_r.
Qed.

Lemma for_each_appends {X T} (acc : world -> list T) (g : X -> list T)
    (l : list X) body :
  (forall x w w', body x w = Ok tt w' -> acc w' = acc w ++ g x) ->
  forall w w', for_each l body w = Ok tt w' ->
    acc w' = acc w ++ concat (map g l).
Proof.
  intros Hbody. induction l as [|x l IH]; intros w w' H; simpl in H.
  - injection H as <-. simpl. by rewrite app_nil_r.
  - apply bind_Ok in H as ([] & w1 & Hx & Hrest).
    rewrite (IH _ _ Hrest), (Hbody _ _ _ Hx). simpl. by rewrite <- app_assoc.
Qed.

(** X18 (lines 128-132): what a completed run reports at the end: each of
    the two sequences holds, for the 15 evaluated rounds, 15 references to
    itself and no scalar, and that is what the two final prints show. *)
Lemma reported_sequences dtr dte architecture ot init random eq w w' :
  prune_iteratively dtr dte architecture ot init random eq w = Ok tt w' ->
  test_accuracys w' = replicate 15 (PyListRef TestAccuracys) /\
  test_losses w' = replicate 15 (PyListRef TestLosses) /\
  PrintAccuracys (replicate 15 (PyListRef TestAccuracys)) ∈ trace w' /\
  PrintLosses (replicate 15 (PyListRef TestLosses)) ∈ trace w'.
Proof.
  unfold prune_iteratively. intros H.
  apply bind_Ok in H as ([ne la] & w0 & Hs & H).
  apply bind_Ok in H as ([] & w1 & He & H). injection He as <-.
  apply bind_Ok in H as ([] & w2 & Ha & H). injection Ha as <-.
  apply bind_Ok in H as ([] & w3 & Hl & H). injection Hl as <-.
  apply bind_Ok in H as ([] & w4 & Hloop & H).
  pose proof (for_each_appends test_accuracys
                (fun i => if evaluates i then [PyListRef TestAccuracys] else [])
                _ _ (fun i v v' Hv => proj1 (round_accumulators _ _ _ _ _ _ _ _ _ _ _ Hv))
                _ _ Hloop) as Haccs.
  pose proof (for_each_appends test_losses
                (fun i => if evaluates i then [PyListRef TestLosses] else [])
                _ _ (fun i v v' Hv => proj2 (round_accumulators _ _ _ _ _ _ _ _ _ _ _ Hv))
                _ _ Hloop) as Hlosses.
  simpl in Haccs, Hlosses.
  unfold bind in H. simpl in H. injection H as <-. simpl.
  rewrite Haccs, Hlosses. repeat split; try reflexivity; set_solver.
Qed.

Lemma pruning_round_setup ne la ot dtr dte init random eq i w w' :
  pruning_round ne la ot dtr dte init random eq i w = Ok tt w' ->
  exists w3 w4,
    round_setup ot init random eq i w = Ok tt w3 /\
    for_each (seq 1 ne) (train_epoch i ne la dtr) w3 = Ok tt w4 /\
    when (evaluates i) (evaluate i dte) w4 = Ok tt w'.
Proof.
  intros H. apply pruning_round_Ok in H
    as (w1 & w2 & w3 & w4 & H1 & H2 & H3 & H4 & H5).
  exists w3, w4. split; [|auto].
  unfold round_setup, bind. simpl. rewrite H1, H2. exact H3.
Qed.

Lemma new_optimizer_Ok ot w w' :
  new_optimizer ot w = Ok tt w' ->
  (ot = "sgd"%string /\
   the_optimizer w' = Some {| kind := SGD; lr := 1 # 10; state := no_buffers |})
  \/
  (ot = "adam"%string /\
   the_optimizer w' = Some {| kind := Adam; lr := 3 # 10000; state := no_buffers |}).
Proof.
  unfold new_optimizer.
  destruct (String.eqb_spec ot "sgd") as [->|_];
    [|destruct (String.eqb_spec ot "adam") as [->|_]].
  - intros [= <-]. by left.
  - intros [= <-]. by right.
  - discriminate.
Qed.

Lemma load_and_build_masks_optimizer i random :
  preserves the_optimizer (load_and_build_masks i random).
Proof.
  unfold load_and_build_masks, torch_load, load_state_dict, mask_loop_body,
    permute_masks, emit.
  frame.
Qed.

(** C10: every round builds its optimizer anew, with the initial learning
    rate and no buffers; reading the previous checkpoint and rewinding the
    weights leave it alone, so that the first epoch of the round starts from
    the new optimizer whatever state the previous round's optimizer was in
    and whatever optimizer state the checkpoints hold; and the checkpoint
    the round writes stores the state its optimizer ends in. *)
Theorem optimizer_fresh_every_round ne la ot dtr dte init random eq i w w' :
  (1 <= ne)%nat ->
  pruning_round ne la ot dtr dte init random eq i w = Ok tt w' ->
  exists w3 w4 cp,
    round_setup ot init random eq i w = Ok tt w3 /\
    ((ot = "sgd"%string /\
      the_optimizer w3
      = Some {| kind := SGD; lr := 1 # 10; state := no_buffers |}) \/
     (ot = "adam"%string /\
      the_optimizer w3
      = Some {| kind := Adam; lr := 3 # 10000; state := no_buffers |})) /\
    for_each (seq 1 ne) (train_epoch i ne la dtr) w3 = Ok tt w4 /\
    files w' !! (i, ne) = Some cp /\
    Some (optimizer_state_dict cp) = the_optimizer w4 /\
    the_optimizer w' = the_optimizer w4.
Proof.
  intros Hne H.
  destruct (round_checkpoint _ _ _ _ _ _ _ _ _ _ _ Hne H)
    as (_ & (cp & Hcp & _ & Hopt) & _).
  pose proof H as Hphases. apply pruning_round_Ok in Hphases
    as (w1 & w2 & w3' & w4' & H1 & H2 & H3 & _ & _).
  apply pruning_round_setup in H as (w3 & w4 & Hsetup & Htrain & Hev).
  assert (w3' = w3) as ->.
  { unfold round_setup, bind in Hsetup. simpl in Hsetup.
    rewrite H1, H2, H3 in Hsetup. by injection Hsetup. }
  destruct (evaluate_keeps _ _ _ _ Hev) as (_ & _ & _ & _ & Hkeep).
  exists w3, w4, cp. split; [exact Hsetup|]. split.
  - assert (the_optimizer w3 = the_optimizer w1) as ->.
    { transitivity (the_optimizer w2).
      - eapply (preserves_Ok the_optimizer); [|exact H3].
        apply load_weights_frame; done.
      - eapply (preserves_Ok the_optimizer); [|exact H2].
        apply preserves_when, load_and_build_masks_optimizer. }
    eapply new_optimizer_Ok. exact H1.
  - rewrite <- Hkeep. auto.
Qed.

End Orchestrator.

(** ** Masks across rounds *)

Section Refinement.
Context `{C : collaborators}.
Local Open Scope run_scope.

(** The optimizer updates values in place: the names and shapes of the
    parameters stay as they are. *)
Hypothesis step_layout : forall k lr b m g,
  layout (optimizer_step k lr b m g).2 = layout m.

Lemma layout_weights_length m : forall m',
  layout m = layout m' -> length (weights m) = length (weights m').
Proof.
  induction m as [|[name t] m IH]; intros [|[name' t'] m'] H;
    try discriminate; [done|].
  injection H as -> _ H. rewrite !weights_cons.
  destruct (is_weight name'); simpl; auto.
Qed.

Lemma mul__length t mask : length mask = length t -> length (mul_ t mask) = length t.
Proof. intros H. unfold mul_. rewrite length_zip_with. lia. Qed.

Lemma apply_masks_from_layout ms m : forall li m',
  apply_masks_from ms li m = inr m' -> layout m' = layout m.
Proof.
  induction m as [|[name params] m IH]; intros li m' H; simpl in H.
  - by injection H as <-.
  - destruct (is_weight name).
    + destruct (ms !! li) as [mask|]; [|discriminate].
      destruct (decide (length mask = length params)) as [Hlen|]; [|discriminate].
      destruct (apply_masks_from ms (S li) m) as [|rest'] eqn:E; [discriminate|].
      injection H as <-. simpl. rewrite (IH _ _ E), mul__length; done.
    + destruct (apply_masks_from ms li m) as [|rest'] eqn:E; [discriminate|].
      injection H as <-. simpl. by rewrite (IH _ _ E).
Qed.

Lemma load_weights_into_layout snapshot eq m : forall m',
  load_weights_into m snapshot eq = inr m' -> layout m' = layout m.
Proof.
  induction m as [|[name params] m IH]; intros m' H; simpl in H.
  - by injection H as <-.
  - destruct (load_weights_into m snapshot eq) as [|rest'] eqn:E; [discriminate|].
    destruct (negb eq && final_layer name).
    + injection H as <-. simpl. by rewrite (IH _ eq_refl).
    + destruct (assoc name snapshot) as [v|]; [|discriminate].
      destruct (decide (length v = length params)) as [Hlen|]; [|discriminate].
      injection H as <-. simpl. by rewrite (IH _ eq_refl), Hlen.
Qed.

Lemma apply_masks_layout b w w' :
  when b apply_masks w = Ok tt w' -> layout (model w') = layout (model w).
Proof.
  intros [[_ H]|[_ ->]]%when_Ok; [|done].
  apply apply_masks_Ok in H as (ms & m' & _ & H & ->). simpl.
  eapply apply_masks_from_layout. exact H.
Qed.

Lemma train_batch_layout i data w w' :
  train_batch i data w = Ok tt w' -> layout (model w') = layout (model w).
Proof.
  unfold train_batch. intros H.
  apply bind_Ok in H as ([] & wm & Hmask & H).
  apply apply_masks_layout in Hmask as <-.
  apply bind_Ok in H as (m & w1 & Hm & H). injection Hm as <- <-.
  apply bind_Ok in H as (ge & w1 & Hge & H). injection Hge as <- <-.
  apply bind_Ok in H as ([] & w1 & Hemit & H). injection Hemit as <-.
  apply bind_Ok in H as (o & w1 & Ho & H). apply local_Ok in Ho as [Ho ->].
  simpl in *.
  pose proof (step_layout (kind o) (lr o) (state o) (model wm)
                (gradient (model wm) (inputs data) (labels data))) as Hstep.
  destruct (optimizer_step _ _ _ _ _) as [bufs m'].
  unfold bind in H. simpl in H. injection H as <-. exact Hstep.
Qed.

Lemma train_epoch_layout i ne la dtr epoch w w' :
  train_epoch i ne la dtr epoch w = Ok tt w' ->
  layout (model w') = layout (model w).
Proof.
  unfold train_epoch. intros H.
  apply bind_Ok in H as ([] & w1 & Hset & H). injection Hset as <-.
  apply bind_Ok in H as ([] & w2 & Hanneal & H).
  apply bind_Ok in H as ([] & w3 & Hbatches & H).
  assert (model w2 = model w) as <-.
  { eapply (preserves_Ok model) in Hanneal; [exact Hanneal|].
    unfold anneal. frame. }
  assert (layout (model w3) = layout (model w2)) as <-.
  { revert Hbatches.
    apply (for_each_inv (fun v => layout (model v) = layout (model w2)));
      [|done].
    intros data v v' _ Hv Hrun. rewrite <- Hv. by eapply train_batch_layout. }
  apply when_Ok in H as [[_ H]|[_ ->]]; [|done].
  apply bind_Ok in H as ([] & w4 & Hmask & Hsave).
  apply apply_masks_layout in Hmask as <-.
  by apply torch_save_Ok in Hsave as (o & _ & ->).
Qed.

(** From the end of the mask building to the end of the round, the masks
    and the layout of the parameters stay as they are. *)
Lemma after_setup_layout ne la dtr dte init random eq i w2 w3 w4 w' :
  when (String.eqb random "false") (load_weights init eq) w2 = Ok tt w3 ->
  for_each (seq 1 ne) (train_epoch i ne la dtr) w3 = Ok tt w4 ->
  when (evaluates i) (evaluate i dte) w4 = Ok tt w' ->
  layout (model w') = layout (model w2) /\ masks w' = masks w2.
Proof.
  intros H3 H4 H5.
  destruct (evaluate_keeps _ _ _ _ H5) as (-> & _ & -> & _ & _).
  assert (layout (model w4) = layout (model w3) /\ masks w4 = masks w3)
    as [-> ->].
  { split.
    - revert H4.
      apply (for_each_inv (fun v => layout (model v) = layout (model w3)));
        [|done].
      intros epoch v v' _ Hv Hrun. rewrite <- Hv. by eapply train_epoch_layout.
    - eapply (preserves_Ok masks); [|exact H4].
      apply preserves_for_each. intros. apply train_epoch_masks. }
  split.
  - apply when_Ok in H3 as [[_ H]|[_ ->]]; [|done].
    unfold load_weights in H.
    apply bind_Ok in H as ([] & w0 & Hemit & H). injection Hemit as <-.
    destruct init as [snapshot|]; [|discriminate].
    apply bind_Ok in H as (m & w1 & Hm & H). injection Hm as <- <-.
    apply bind_Ok in H as (m' & w1 & Hm' & H). apply lift_Ok in Hm' as [Hm' ->].
    injection H as <-. simpl in *. by eapply load_weights_into_layout.
  - eapply (preserves_Ok masks); [|exact H3]. apply load_weights_frame; done.
Qed.

(** After a round [i != 0] there is one mask per prunable tensor. *)
Lemma round_masks_fit ne la ot dtr dte init random eq i w w' :
  i <> 0%nat ->
  pruning_round ne la ot dtr dte init random eq i w = Ok tt w' ->
  exists ms, masks w' = Some ms /\ length ms = length (weights (model w')).
Proof.
  intros Hi H. apply pruning_round_Ok in H
    as (w1 & w2 & w3 & w4 & _ & H2 & H3 & H4 & H5).
  destruct (after_setup_layout _ _ _ _ _ _ _ _ _ _ _ _ H3 H4 H5) as [Hlay Hms].
  destruct (Nat.eqb_spec i 0) as [|_]; [done|]. simpl in H2.
  apply load_and_build_masks_Ok in H2
    as (lst & cpt & q & thr & ms & d & _ & _ & _ & _ & _ & Hms2 & Hlen & _).
  exists ms. split; [congruence|].
  rewrite Hlen. symmetry. by apply layout_weights_length.
Qed.

(** The names and shapes of the parameters are those of the model the
    round started with. *)
Lemma pruning_round_layout ne la ot dtr dte init random eq i w w' :
  pruning_round ne la ot dtr dte init random eq i w = Ok tt w' ->
  layout (model w') = layout (model w).
Proof.
  intros H. apply pruning_round_Ok in H
    as (w1 & w2 & w3 & w4 & H1 & H2 & H3 & H4 & H5).
  destruct (after_setup_layout _ _ _ _ _ _ _ _ _ _ _ _ H3 H4 H5) as [-> _].
  transitivity (layout (model w1)).
  - apply when_Ok in H2 as [[_ H2]|[_ ->]]; [|done].
    by eapply load_and_build_masks_layout.
  - f_equal. eapply (preserves_Ok model) in H1; [exact H1|].
    by apply new_optimizer_frame.
Qed.

Lemma percentile_nonneg a q t :
  percentile (map Qabs a) q = inr t -> 0 <= t.
Proof.
  unfold percentile. destruct (negb _); [discriminate|].
  pose proof (abs_all_nonneg a) as Hall.
  destruct (map Qabs a) as [|x l]; [discriminate|]. intros [= <-].
  apply lerp_index_nonneg. apply (sort_Q_Forall _ (x :: l)). exact Hall.
Qed.

(** C3: with [random == 'false'], whatever the masks of a round prune is
    pruned by the masks of the next round as well (round 0 trains without
    masks: nothing is pruned). *)
Theorem masks_only_shrink ne la ot dtr dte init eq r w0 w1 w2 k j :
  (1 <= ne)%nat ->
  pruning_round ne la ot dtr dte init "false" eq r w0 = Ok tt w1 ->
  pruning_round ne la ot dtr dte init "false" eq (S r) w1 = Ok tt w2 ->
  pruned (round_masks r w1) k j -> pruned (round_masks (S r) w2) k j.
Proof.
  intros Hne Hr Hr' (mask & x & Hmask & Hx & Hzero).
  unfold round_masks in Hmask. destruct (Nat.eqb_spec r 0) as [|Hr0]; [done|].
  destruct (round_checkpoint _ _ _ _ _ _ _ _ _ _ _ Hne Hr)
    as (Hlast & (cp & Hcp & Hmodel & _) & Hz).
  destruct (Hz Hr0) as (ms1 & Hms1 & Hmz).
  destruct (round_masks_fit _ _ _ _ _ _ _ _ _ _ _ Hr0 Hr) as (ms1' & Hms1' & Hfit).
  rewrite Hms1 in Hms1'. injection Hms1' as <-.
  rewrite Hms1 in Hmask. simpl in Hmask.
  assert (k < length (weights (model w1)))%nat as Hk
    by (rewrite <- Hfit; eapply lookup_lt_Some; eassumption).
  destruct (lookup_lt_is_Some_2 _ _ Hk) as [t Ht].
  destruct (Hmz k t mask j x Ht Hmask Hx Hzero) as (y & Hy & Hy0).
  apply pruning_round_Ok in Hr'
    as (v1 & v2 & v3 & v4 & H1 & H2 & H3 & H4 & H5).
  destruct (after_setup_layout _ _ _ _ _ _ _ _ _ _ _ _ H3 H4 H5) as [_ Hms2].
  simpl in H2.
  assert (files v1 = files w1 /\ last_epoch v1 = last_epoch w1) as [Hf Hl].
  { split.
    - eapply (preserves_Ok files) in H1; [exact H1|].
      apply new_optimizer_frame; done.
    - eapply (preserves_Ok last_epoch) in H1; [exact H1|].
      apply new_optimizer_frame; done. }
  apply load_and_build_masks_Ok in H2
    as (lst & cpt & q & thr & ms2 & d & Hlst & Hcpt & Hm2 & _ & Hperc & Hmasks2
        & _ & Hplain & _).
  rewrite Hl, Hlast in Hlst. injection Hlst as <-.
  replace (S r - 1)%nat with r in Hcpt by lia.
  rewrite Hf, Hcp in Hcpt. injection Hcpt as <-.
  rewrite Hm2, Hmodel in *. specialize (Hplain eq_refl). subst ms2.
  apply percentile_nonneg in Hperc.
  exists (build_mask thr t), 0. unfold round_masks. simpl.
  rewrite Hms2, Hmasks2. simpl. split; [|split; [|reflexivity]].
  - by rewrite list_lookup_fmap, Ht.
  - apply (build_mask_below thr t j y Hy).
    assert (Qabs y == 0) as -> by (rewrite Hy0; reflexivity). exact Hperc.
Qed.

End Refinement.

(** ** More on the rounds *)

Section Rounds.
Context `{C : collaborators}.
Local Open Scope run_scope.

(** *** The learning rate *)

Lemma train_batch_optimizer i data w w' o :
  train_batch i data w = Ok tt w' -> the_optimizer w = Some o ->
  exists o', the_optimizer w' = Some o' /\ kind o' = kind o /\ lr o' = lr o.
Proof.
  unfold train_batch. intros H Ho.
  apply bind_Ok in H as ([] & wm & Hmask & H).
  assert (the_optimizer wm = Some o) as Hom.
  { rewrite <- Ho. eapply (preserves_Ok the_optimizer); [|exact Hmask].
    apply preserves_when, apply_masks_frame. reflexivity. }
  apply bind_Ok in H as (m & w1 & Hm & H). injection Hm as <- <-.
  apply bind_Ok in H as (ge & w1 & Hge & H). injection Hge as <- <-.
  apply bind_Ok in H as ([] & w1 & Hemit & H). injection Hemit as <-.
  apply bind_Ok in H as (o1 & w1 & Ho1 & H). apply local_Ok in Ho1 as [Ho1 ->].
  simpl in Ho1. rewrite Hom in Ho1. injection Ho1 as <-.
  destruct (optimizer_step _ _ _ _ _) as [bufs m'].
  unfold bind in H. simpl in H. injection H as <-. simpl. eauto.
Qed.

Lemma train_epoch_optimizer i ne la dtr epoch w w' o :
  train_epoch i ne la dtr epoch w = Ok tt w' -> the_optimizer w = Some o ->
  exists o', the_optimizer w' = Some o' /\ kind o' = kind o /\
             lr o' = if bool_decide (epoch ∈ la) then lr o / 10 else lr o.
Proof.
  unfold train_epoch. intros H Ho.
  apply bind_Ok in H as ([] & w1 & Hset & H). injection Hset as <-.
  apply bind_Ok in H as ([] & w2 & Hanneal & H).
  apply bind_Ok in H as ([] & w3 & Hbatches & H).
  assert (exists o2, the_optimizer w2 = Some o2 /\ kind o2 = kind o /\
            lr o2 = if bool_decide (epoch ∈ la) then lr o / 10 else lr o)
    as (o2 & Ho2 & Hk2 & Hl2).
  { destruct (bool_decide (epoch ∈ la)); simpl in Hanneal.
    - unfold anneal in Hanneal.
      apply bind_Ok in Hanneal as (o1 & w0 & Ho1 & Hmod).
      apply local_Ok in Ho1 as [Ho1 ->]. simpl in Ho1. rewrite Ho in Ho1.
      injection Ho1 as <-. injection Hmod as <-. simpl. eauto.
    - injection Hanneal as <-. simpl. eauto. }
  assert (exists o3, the_optimizer w3 = Some o3 /\ kind o3 = kind o2 /\
            lr o3 = lr o2) as (o3 & Ho3 & Hk3 & Hl3).
  { revert Hbatches.
    apply (for_each_inv (fun v => exists o3, the_optimizer v = Some o3 /\
                                   kind o3 = kind o2 /\ lr o3 = lr o2));
      [|eauto].
    intros data v v' _ (o' & Ho' & Hk' & Hl') Hrun.
    destruct (train_batch_optimizer _ _ _ _ _ Hrun Ho') as (o'' & ? & ? & ?).
    exists o''. split; [done|]. split; congruence. }
  exists o3. rewrite Hk3, Hl3, Hk2, Hl2. split; [|done].
  rewrite <- Ho3. apply when_Ok in H as [[_ H]|[_ ->]]; [|done].
  apply bind_Ok in H as ([] & w4 & Hmask & Hsave).
  apply torch_save_Ok in Hsave as (o4 & _ & ->). simpl.
  eapply (preserves_Ok the_optimizer); [|exact Hmask].
  apply preserves_when, apply_masks_frame. reflexivity.
Qed.

Lemma anneals_cons la epoch l :
  anneals la (epoch :: l)
  = if bool_decide (epoch ∈ la) then S (anneals la l) else anneals la l.
Proof.
  unfold anneals. rewrite filter_cons.
  destruct (decide (epoch ∈ la)) as [Hin|Hin].
  - by rewrite (bool_decide_eq_true_2 _ Hin).
  - by rewrite (bool_decide_eq_false_2 _ Hin).
Qed.

Lemma epochs_optimizer i ne la dtr l : forall w w' o,
  for_each l (train_epoch i ne la dtr) w = Ok tt w' ->
  the_optimizer w = Some o ->
  exists o', the_optimizer w' = Some o' /\ kind o' = kind o /\
             lr o' = annealed (anneals la l) (lr o).
Proof.
  induction l as [|epoch l IH]; intros w w' o H Ho; simpl in H.
  - injection H as <-. exists o. auto.
  - apply bind_Ok in H as ([] & w1 & Hepoch & Hrest).
    destruct (train_epoch_optimizer _ _ _ _ _ _ _ _ Hepoch Ho)
      as (o1 & Ho1 & Hk1 & Hl1).
    destruct (IH _ _ _ Hrest Ho1) as (o' & Ho' & Hk' & Hl').
    exists o'. split; [done|]. split; [congruence|].
    rewrite Hl', Hl1, anneals_cons. unfold annealed.
    destruct (bool_decide (epoch ∈ la)); [|done].
    by rewrite Nat.iter_succ_r.
Qed.

(** X1 (lines 51-56 and 93-94): at the end of a round the optimizer is of
    the kind asked for, and its learning rate is the initial one (0.1 for
    SGD, 0.0003 for Adam) divided by 10 once for every anneal epoch among
    the epochs [1..num_epochs] of this round.  The divisions of earlier
    rounds are forgotten: every round starts again from the initial rate. *)
Theorem learning_rate_after_round ne la ot dtr dte init random eq i w w' :
  pruning_round ne la ot dtr dte init random eq i w = Ok tt w' ->
  exists o, the_optimizer w' = Some o /\
    ((ot = "sgd"%string /\ kind o = SGD /\
      lr o = annealed (anneals la (seq 1 ne)) (1 # 10)) \/
     (ot = "adam"%string /\ kind o = Adam /\
      lr o = annealed (anneals la (seq 1 ne)) (3 # 10000))).
Proof.
  intros H. apply pruning_round_Ok in H
    as (w1 & w2 & w3 & w4 & H1 & H2 & H3 & H4 & H5).
  destruct (evaluate_keeps _ _ _ _ H5) as (_ & _ & _ & _ & ->).
  assert (the_optimizer w3 = the_optimizer w1) as H31.
  { transitivity (the_optimizer w2).
    - eapply (preserves_Ok the_optimizer); [|exact H3].
      apply load_weights_frame; done.
    - eapply (preserves_Ok the_optimizer); [|exact H2].
      apply preserves_when, load_and_build_masks_optimizer. }
  apply new_optimizer_Ok in H1 as [[-> Ho]|[-> Ho]]; rewrite <- H31 in Ho;
    destruct (epochs_optimizer _ _ _ _ _ _ _ _ H4 Ho) as (o & Ho' & Hk & Hl);
    exists o; (split; [exact Ho'|]); [left | right]; auto.
Qed.

End Rounds.

(** ** Checkpoints and steps *)

Section Checkpoints.
Context `{C : collaborators}.
Local Open Scope run_scope.

Lemma train_batch_files i data : preserves files (train_batch i data).
Proof. unfold train_batch, apply_masks. frame. Qed.

Lemma train_epoch_files_other i ne la dtr epoch w w' :
  epoch <> ne -> train_epoch i ne la dtr epoch w = Ok tt w' ->
  files w' = files w.
Proof.
  intros Hne H. eapply (preserves_Ok files); [|exact H].
  unfold train_epoch. destruct (Nat.eqb_spec epoch ne) as [|_]; [done|].
  unfold anneal, train_batch, apply_masks. frame.
Qed.

Lemma train_epoch_files_last i ne la dtr w w' :
  train_epoch i ne la dtr ne w = Ok tt w' ->
  exists cp, files w' = <[(i, ne) := cp]> (files w) /\
             cp_epoch cp = ne /\ model_state_dict cp = model w'.
Proof.
  unfold train_epoch. intros H.
  apply bind_Ok in H as ([] & w1 & Hset & H). injection Hset as <-.
  apply bind_Ok in H as ([] & w2 & Hanneal & H).
  apply bind_Ok in H as ([] & w3 & Hbatches & H).
  rewrite Nat.eqb_refl in H. simpl in H.
  apply bind_Ok in H as ([] & w4 & Hmask & Hsave).
  apply torch_save_Ok in Hsave as (o & _ & ->). simpl.
  exists {| cp_epoch := ne; model_state_dict := model w4;
            optimizer_state_dict := o |}.
  split; [|split; reflexivity]. simpl. f_equal.
  transitivity (files w3).
  { eapply (preserves_Ok files); [|exact Hmask].
    apply preserves_when, apply_masks_frame. reflexivity. }
  transitivity (files w2).
  { eapply (preserves_Ok files); [|exact Hbatches].
    apply preserves_for_each. intros. apply train_batch_files. }
  eapply (preserves_Ok files) in Hanneal; [exact Hanneal|].
  unfold anneal. frame.
Qed.

(** A round changes the checkpoint files at one place: its own. *)
Lemma round_files ne la ot dtr dte init random eq i w w' :
  (1 <= ne)%nat ->
  pruning_round ne la ot dtr dte init random eq i w = Ok tt w' ->
  exists cp, files w' = <[(i, ne) := cp]> (files w) /\
             cp_epoch cp = ne /\ model_state_dict cp = model w'.
Proof.
  intros Hne H. apply pruning_round_Ok in H
    as (w1 & w2 & w3 & w4 & H1 & H2 & H3 & H4 & H5).
  destruct (evaluate_keeps _ _ _ _ H5) as (-> & -> & _).
  assert (files w3 = files w) as <-.
  { transitivity (files w2).
    { eapply (preserves_Ok files); [|exact H3]. by apply load_weights_frame. }
    transitivity (files w1).
    { eapply (preserves_Ok files); [|exact H2].
      by apply preserves_when, load_and_build_masks_frame. }
    eapply (preserves_Ok files) in H1; [exact H1|].
    by apply new_optimizer_frame. }
  destruct ne as [|n]; [lia|]. rewrite seq_S, for_each_app in H4.
  apply bind_Ok in H4 as ([] & wa & Hfirst & Hlast). simpl in Hlast.
  apply bind_Ok in Hlast as ([] & wb & Hepoch & Hret). injection Hret as <-.
  assert (files wa = files w3) as <-.
  { revert Hfirst. apply (for_each_inv (fun v => files v = files w3)); [|done].
    intros epoch v v' Hin <- Hrun.
    eapply train_epoch_files_other; [|exact Hrun].
    apply elem_of_seq in Hin. lia. }
  by apply train_epoch_files_last in Hepoch.
Qed.

(** What a round adds to the log, for a projection that ignores the
    bookkeeping and the mask building. *)
Lemma pruning_round_yields_training {T} (obs : event -> option T) a c b
    ne la ot dtr dte init random eq i :
  obs (PrintRunning i) = None ->
  (forall e, is_new_optimizer e = true -> obs e = None) ->
  (forall e, of_mask_building e = true -> obs e = None) ->
  yields obs a (load_weights init eq) ->
  yields obs c (for_each (seq 1 ne) (train_epoch i ne la dtr)) ->
  yields obs b (evaluate i dte) ->
  yields obs ((if String.eqb random "false" then a else [])
              ++ c ++ (if evaluates i then b else []))
    (pruning_round ne la ot dtr dte init random eq i).
Proof.
  intros H0 H1 H2 Ha Hc Hb. unfold pruning_round.
  eapply yields_eq.
  - eapply yields_bind.
    { generalize (yields_emit obs (PrintRunning i)). rewrite H0. intros H; exact H. }
    intros _. eapply yields_bind.
    { eapply emits_yields; [exact H1 | apply new_optimizer_emits]. }
    intros _. eapply yields_bind.
    { apply yields_when. eapply emits_yields;
        [exact H2 | apply load_and_build_masks_emits]. }
    intros _. eapply yields_bind.
    { apply yields_when. exact Ha. }
    intros _. eapply yields_bind; [exact Hc|].
    intros _. apply yields_when. exact Hb.
  - simpl. by destruct (negb (i =? 0)%nat).
Qed.

Lemma load_weights_silent {T} (obs : event -> option T) init eq :
  obs CallLoadWeights = None -> yields obs [] (load_weights init eq).
Proof.
  intros H. eapply (emits_yields _ is_load_weights).
  - intros e He. by destruct e.
  - unfold load_weights. quiet.
Qed.

Lemma evaluate_silent {T} (obs : event -> option T) i dte :
  (forall b, obs (CallForward b) = None) ->
  (forall l a, obs (PrintTest i l a) = None) ->
  yields obs [] (evaluate i dte).
Proof.
  intros Hf Hp. unfold evaluate. apply (yields_bind _ [] []).
  - eapply emits_yields; [|apply test_emits]. intros e He. by destruct e.
  - intros [l a]. apply (yields_bind _ [] []).
    + generalize (yields_emit obs (PrintTest i l a)). by rewrite Hp.
    + intros _. eapply (emits_yields _ (fun _ => false)); [done|].
      apply append_results_emits.
Qed.

Lemma train_batch_emits i data : emits of_batch (train_batch i data).
Proof. unfold train_batch. quiet. Qed.

Lemma train_epoch_saves i ne la dtr epoch :
  yields as_save (if (epoch =? ne)%nat then [(i, epoch)] else [])
    (train_epoch i ne la dtr epoch).
Proof.
  unfold train_epoch. eapply yields_eq.
  - eapply yields_bind.
    { eapply (emits_yields _ (fun _ => false)); [done | quiet]. }
    intros _. eapply yields_bind.
    { eapply (emits_yields _ (fun _ => false)); [done | quiet]. }
    intros _. eapply yields_bind.
    { eapply (emits_yields _ of_batch); [by intros []|].
      apply emits_for_each. intros. apply train_batch_emits. }
    intros _. apply yields_when. eapply yields_bind.
    { eapply (emits_yields _ (fun _ => false)); [done | quiet]. }
    intros _. unfold torch_save. eapply yields_bind.
    { eapply (emits_yields _ (fun _ => false)); [done | quiet]. }
    intros m. eapply yields_bind.
    { eapply (emits_yields _ (fun _ => false)); [done | quiet]. }
    intros o. eapply yields_bind.
    { apply (yields_emit as_save (CallTorchSave i epoch)). }
    intros _. eapply (emits_yields _ (fun _ => false)); [done | quiet].
  - simpl. by destruct (epoch =? ne)%nat.
Qed.

Lemma last_epoch_only {T} (x : nat -> list T) n :
  concat (map (fun epoch => if (epoch =? S n)%nat then x epoch else [])
            (seq 1 (S n)))
  = x (S n).
Proof.
  rewrite seq_S, map_app, concat_app. simpl. rewrite Nat.eqb_refl, app_nil_r.
  assert (forall l : list nat, Forall (fun e => e <> S n) l ->
            concat (map (fun epoch => if (epoch =? S n)%nat then x epoch else []) l)
            = []) as Hnone.
  { induction 1 as [|e l He Hl IH]; simpl; [done|].
    destruct (Nat.eqb_spec e (S n)); [done | exact IH]. }
  rewrite Hnone; [done|]. apply Forall_forall. intros e He.
  apply elem_of_seq in He. lia.
Qed.

(** X2 (lines 114-121): a round of at least one epoch calls [torch.save]
    exactly once, for the file [(pruning_iter, num_epochs)]; the file holds
    the epoch number and the parameters the round ends with, and no other
    file is written or changed. *)
Theorem checkpoint_written_once ne la ot dtr dte init random eq i w w' :
  (1 <= ne)%nat ->
  pruning_round ne la ot dtr dte init random eq i w = Ok tt w' ->
  (exists d, trace w' = trace w ++ d /\ omap as_save d = [(i, ne)]) /\
  (exists cp, files w' !! (i, ne) = Some cp /\ cp_epoch cp = ne /\
              model_state_dict cp = model w') /\
  (forall k, k <> (i, ne) -> files w' !! k = files w !! k).
Proof.
  intros Hne H. split; [|].
  - assert (Hy : yields as_save [(i, ne)]
                   (pruning_round ne la ot dtr dte init random eq i)).
    { eapply yields_eq.
      - eapply (pruning_round_yields_training as_save [] _ []);
          try done; try (by intros []).
        + by apply load_weights_silent.
        + apply yields_for_each. intros epoch. apply train_epoch_saves.
        + by apply evaluate_silent.
      - destruct ne as [|n]; [lia|].
        rewrite (last_epoch_only (fun epoch => [(i, epoch)])).
        by destruct (String.eqb random "false"), (evaluates i). }
    exact (Hy _ _ _ H).
  - destruct (round_files _ _ _ _ _ _ _ _ _ _ _ Hne H) as (cp & -> & He & Hm).
    split.
    + exists cp. by rewrite lookup_insert_eq.
    + intros k Hk. by rewrite lookup_insert_ne.
Qed.

Lemma train_batch_steps i data : yields as_step [tt] (train_batch i data).
Proof.
  unfold train_batch. eapply yields_eq.
  - eapply yields_bind.
    { eapply (emits_yields _ (fun _ => false)); [done | quiet]. }
    intros _. eapply yields_bind.
    { eapply (emits_yields _ (fun _ => false)); [done | quiet]. }
    intros m. eapply yields_bind.
    { eapply (emits_yields _ (fun _ => false)); [done | quiet]. }
    intros ge. eapply (yields_bind _ []).
    { apply (yields_emit as_step (CallForward ge)). }
    intros _. eapply yields_bind.
    { eapply (emits_yields _ (fun _ => false)); [done | quiet]. }
    intros o. destruct (optimizer_step _ _ _ _ _) as [bufs m'].
    eapply yields_bind.
    { apply (yields_emit as_step CallOptimizerStep). }
    intros _. eapply (emits_yields _ (fun _ => false)); [done | quiet].
  - reflexivity.
Qed.

Lemma train_epoch_steps i ne la dtr epoch :
  yields as_step (replicate (length dtr) tt) (train_epoch i ne la dtr epoch).
Proof.
  unfold train_epoch. eapply yields_eq.
  - eapply yields_bind.
    { eapply (emits_yields _ (fun _ => false)); [done | quiet]. }
    intros _. eapply yields_bind.
    { eapply (emits_yields _ (fun _ => false)); [done | quiet]. }
    intros _. eapply yields_bind.
    { apply (yields_for_each as_step (fun _ => [tt])). intros data.
      apply train_batch_steps. }
    intros _. eapply (emits_yields _ (fun e => negb (of_batch e)));
      [by intros [] |].
    unfold torch_save. quiet.
  - simpl. rewrite app_nil_r. induction dtr as [|b l IH]; simpl; [done|].
    by rewrite IH.
Qed.

(** X3 (lines 91-112): a round makes one optimizer step per batch and
    epoch, [num_epochs * len(dataloader_train)] in all. *)
Theorem optimizer_steps_per_round ne la ot dtr dte init random eq i w w' :
  pruning_round ne la ot dtr dte init random eq i w = Ok tt w' ->
  exists d, trace w' = trace w ++ d /\
            length (omap as_step d) = (ne * length dtr)%nat.
Proof.
  intros H.
  assert (Hy : yields as_step
                 (concat (map (fun _ => replicate (length dtr) tt) (seq 1 ne)))
                 (pruning_round ne la ot dtr dte init random eq i)).
  { eapply yields_eq.
    - eapply (pruning_round_yields_training as_step [] _ []);
        try done; try (by intros []).
      + by apply load_weights_silent.
      + apply yields_for_each. intros epoch. apply train_epoch_steps.
      + by apply evaluate_silent.
    - destruct (String.eqb random "false"), (evaluates i); simpl;
        by rewrite app_nil_r. }
  destruct (Hy _ _ _ H) as (d & Hd & Hobs). exists d. split; [exact Hd|].
  rewrite Hobs. generalize 1%nat. clear.
  induction ne as [|n IH]; intros start; simpl; [done|].
  by rewrite length_app, length_replicate, IH.
Qed.

End Checkpoints.

(** ** Rounds in sequence *)

Section Sequence.
Context `{C : collaborators}.
Local Open Scope run_scope.

(** X4 (lines 57-81 and 102-107): round 0 reads no checkpoint, builds and
    permutes no mask, prints no pruned fraction and leaves the local [masks]
    as it is; each of its batches steps from the parameters as they are,
    with no mask applied. *)
Theorem round0_trains_unmasked ne la ot dtr dte init random eq w w' :
  pruning_round ne la ot dtr dte init random eq 0 w = Ok tt w' ->
  masks w' = masks w /\
  (exists d, trace w' = trace w ++ d /\
             forallb (fun e => negb (of_mask_building e)) d = true) /\
  (forall data v v',
     train_batch 0 data v = Ok tt v' ->
     exists o, the_optimizer v = Some o /\
       model v' = (optimizer_step (kind o) (lr o) (state o) (model v)
                     (gradient (model v) (inputs data) (labels data))).2).
Proof.
  intros H. split; [|split].
  - apply pruning_round_Ok in H as (w1 & w2 & w3 & w4 & H1 & H2 & H3 & H4 & H5).
    destruct (evaluate_keeps _ _ _ _ H5) as (_ & _ & -> & _).
    transitivity (masks w3).
    { eapply (preserves_Ok masks); [|exact H4].
      apply preserves_for_each. intros. apply train_epoch_masks. }
    transitivity (masks w2).
    { eapply (preserves_Ok masks); [|exact H3]. by apply load_weights_frame. }
    simpl in H2. injection H2 as <-.
    eapply (preserves_Ok masks) in H1; [exact H1|]. by apply new_optimizer_frame.
  - assert (He : emits (fun e => negb (of_mask_building e))
                   (pruning_round ne la ot dtr dte init random eq 0)).
    { unfold pruning_round, when. simpl.
      unfold new_optimizer, load_weights, train_epoch, anneal, train_batch,
        apply_masks, torch_save, evaluate, test, test_batch, append_results.
      quiet. }
    destruct (He w) as (d & Hd & Hall). rewrite H in Hd. eauto.
  - intros data v v' Hb. unfold train_batch in Hb. simpl in Hb.
    apply bind_Ok in Hb as ([] & v0 & Hret & Hb). injection Hret as <-.
    apply bind_Ok in Hb as (m & w1 & Hm & Hb). injection Hm as <- <-.
    apply bind_Ok in Hb as (ge & w1 & Hge & Hb). injection Hge as <- <-.
    apply bind_Ok in Hb as ([] & w1 & Hemit & Hb). injection Hemit as <-.
    apply bind_Ok in Hb as (o & w1 & Ho & Hb). apply local_Ok in Ho as [Ho ->].
    simpl in *. exists o. split; [exact Ho|].
    destruct (optimizer_step _ _ _ _ _) as [bufs m'].
    unfold bind in Hb. simpl in Hb. by injection Hb as <-.
Qed.

(** X5 (lines 59-60 and 83-84): in random-ticket mode
    ([random != 'false']) nothing rewinds the weights: the next round starts
    its first epoch from the parameters the previous round ended with (it
    reads them back from that round's checkpoint), with one mask per
    prunable tensor. *)
Theorem random_mode_continues_from_checkpoint
    ne la ot dtr dte init random eq r w0 w1 w3 :
  random <> "false"%string -> (1 <= ne)%nat ->
  pruning_round ne la ot dtr dte init random eq r w0 = Ok tt w1 ->
  round_setup ot init random eq (S r) w1 = Ok tt w3 ->
  model w3 = model w1 /\
  exists ms, masks w3 = Some ms /\ length ms = length (weights (model w1)).
Proof.
  intros Hrandom Hne Hr Hs.
  destruct (round_checkpoint _ _ _ _ _ _ _ _ _ _ _ Hne Hr)
    as (Hlast & (cp & Hcp & Hmodel & _) & _).
  unfold round_setup in Hs.
  apply bind_Ok in Hs as ([] & v0 & Hp & Hs). injection Hp as <-.
  apply bind_Ok in Hs as ([] & v1 & H1 & Hs).
  apply bind_Ok in Hs as ([] & v2 & H2 & Hs).
  apply String.eqb_neq in Hrandom. rewrite Hrandom in Hs. injection Hs as <-.
  assert (files v1 = files w1 /\ last_epoch v1 = last_epoch w1) as [Hf Hl].
  { split.
    - eapply (preserves_Ok files) in H1; [exact H1|].
      apply new_optimizer_frame; done.
    - eapply (preserves_Ok last_epoch) in H1; [exact H1|].
      apply new_optimizer_frame; done. }
  simpl in H2. apply load_and_build_masks_Ok in H2
    as (lst & cpt & q & thr & ms & d & Hlst & Hcpt & Hm2 & _ & _ & Hms & Hlen & _).
  rewrite Hl, Hlast in Hlst. injection Hlst as <-.
  replace (S r - 1)%nat with r in Hcpt by lia.
  rewrite Hf, Hcp in Hcpt. injection Hcpt as <-.
  rewrite Hm2, Hmodel in *. split; [done|]. eauto.
Qed.

(** X6 (lines 114-127): in a round that evaluates, the loss and accuracy
    printed last are those [test] returns on the parameters the round has
    just written to its checkpoint. *)
Theorem printed_metrics_are_of_the_checkpoint
    ne la ot dtr dte init random eq i w w' :
  (1 <= ne)%nat -> evaluates i = true ->
  pruning_round ne la ot dtr dte init random eq i w = Ok tt w' ->
  exists cp v test_loss test_accuracy v',
    files w' !! (i, ne) = Some cp /\
    model v = model_state_dict cp /\
    test dte v = Ok (test_loss, test_accuracy) v' /\
    last (trace w') = Some (PrintTest i test_loss test_accuracy).
Proof.
  intros Hne Hev H.
  apply pruning_round_Ok in H as (w1 & w2 & w3 & w4 & _ & _ & _ & H4 & H5).
  destruct (training_Ok _ _ _ _ _ _ Hne H4) as (_ & _ & (cp & Hcp & Hm & _) & _).
  destruct (evaluate_keeps _ _ _ _ H5) as (_ & Hf & _).
  rewrite Hev in H5. simpl in H5. unfold evaluate in H5.
  apply bind_Ok in H5 as ([test_loss test_accuracy] & v' & Htest & H5).
  apply bind_Ok in H5 as ([] & v2 & Hemit & H5). injection Hemit as <-.
  unfold append_results, bind in H5. simpl in H5. injection H5 as <-.
  exists cp, w4, test_loss, test_accuracy, v'. rewrite Hf.
  repeat split; try done. simpl. apply last_snoc.
Qed.

Lemma schedule_Ok architecture w ne la w1 :
  schedule architecture w = Ok (ne, la) w1 ->
  w1 = w /\
  ((architecture = "vgg19"%string /\ ne = 160%nat /\ la = [80; 120]%nat) \/
   (architecture = "resnet50"%string /\ ne = 90%nat /\ la = [50; 65; 80]%nat)).
Proof.
  unfold schedule.
  destruct (String.eqb_spec architecture "vgg19") as [->|_];
    [|destruct (String.eqb_spec architecture "resnet50") as [->|_]].
  - intros [= <- <- <-]. split; [done|]. by left.
  - intros [= <- <- <-]. split; [done|]. by right.
  - discriminate.
Qed.

(** A run that completes has run the 31 rounds, from the world with the
    two accumulators emptied. *)
Lemma prune_iteratively_Ok dtr dte architecture ot init random eq w w' :
  prune_iteratively dtr dte architecture ot init random eq w = Ok tt w' ->
  exists ne la w1,
    schedule architecture w = Ok (ne, la) w /\
    for_each (seq 0 31)
      (pruning_round ne la ot dtr dte init random eq)
      (set_test_losses [] (set_test_accuracys [] (log PrintStarted w)))
    = Ok tt w1 /\
    files w' = files w1 /\ model w' = model w1.
Proof.
  unfold prune_iteratively. intros H.
  apply bind_Ok in H as ([ne la] & w0 & Hs & H).
  pose proof (schedule_Ok _ _ _ _ _ Hs) as [-> _].
  apply bind_Ok in H as ([] & w1 & He & H). injection He as <-.
  apply bind_Ok in H as ([] & w2 & Ha & H). injection Ha as <-.
  apply bind_Ok in H as ([] & w3 & Hl & H). injection Hl as <-.
  apply bind_Ok in H as ([] & w4 & Hloop & H).
  unfold bind in H. simpl in H. injection H as <-.
  exists ne, la, w4. auto.
Qed.

Lemma rounds_checkpoints ne la ot dtr dte init random eq :
  (1 <= ne)%nat ->
  forall n w w',
    for_each (seq 0 n) (pruning_round ne la ot dtr dte init random eq) w
    = Ok tt w' ->
    forall i, (i < n)%nat ->
      exists cp, files w' !! (i, ne) = Some cp /\ cp_epoch cp = ne.
Proof.
  intros Hne. induction n as [|n IH]; intros w w' H i Hi; [lia|].
  rewrite seq_S, for_each_app in H.
  apply bind_Ok in H as ([] & w1 & Hfirst & Hlast). simpl in Hlast.
  apply bind_Ok in Hlast as ([] & w2 & Hround & Hret). injection Hret as <-.
  destruct (round_files _ _ _ _ _ _ _ _ _ _ _ Hne Hround) as (cp & -> & He & _).
  destruct (decide (i = n)) as [->|Hin].
  - exists cp. by rewrite lookup_insert_eq.
  - rewrite lookup_insert_ne by congruence. apply (IH _ _ Hfirst). lia.
Qed.

(** X7 (lines 34-41, 49 and 121): a run that completes leaves a checkpoint
    [(i, num_epochs)] for every round [i = 0..30], [num_epochs] being 160
    for vgg19 and 90 for resnet50. *)
Theorem completed_run_checkpoints
    dtr dte architecture ot init random eq w w' :
  prune_iteratively dtr dte architecture ot init random eq w = Ok tt w' ->
  exists ne,
    ((architecture = "vgg19"%string /\ ne = 160%nat) \/
     (architecture = "resnet50"%string /\ ne = 90%nat)) /\
    forall i, (i <= 30)%nat ->
      exists cp, files w' !! (i, ne) = Some cp /\ cp_epoch cp = ne.
Proof.
  intros H. apply prune_iteratively_Ok in H
    as (ne & la & w1 & Hs & Hloop & -> & _).
  apply schedule_Ok in Hs as [_ Hs]. exists ne. split.
  - destruct Hs as [(-> & -> & _)|(-> & -> & _)]; auto.
  - intros i Hi. eapply rounds_checkpoints; [|exact Hloop|lia].
    destruct Hs as [(_ & -> & _)|(_ & -> & _)]; lia.
Qed.

Lemma for_each_Ok_each {X} (l : list X) body : forall w w',
  for_each l body w = Ok tt w' ->
  forall x, x ∈ l -> exists v v', body x v = Ok tt v'.
Proof.
  induction l as [|y l IH]; intros w w' H x Hx; simpl in H.
  - by apply elem_of_nil in Hx.
  - apply bind_Ok in H as ([] & w1 & Hy & Hrest).
    apply elem_of_cons in Hx as [->|Hx]; [eauto|]. eapply IH; eassumption.
Qed.

Lemma percentile_in_range a q t : percentile a q = inr t -> 0 <= q <= 100.
Proof.
  unfold percentile.
  destruct (Qle_bool 0 q) eqn:E0; [|discriminate].
  destruct (Qle_bool q 100) eqn:E1; [|discriminate].
  intros _. split; by apply Qle_bool_iff.
Qed.

(** X8 (lines 45 and 68): a run completes only if [get_weight_fractions()]
    has, for every round [1..30], an entry at the round's index, and that
    entry is a percentile in [0, 100]. *)
Theorem completed_run_needs_the_schedule
    dtr dte architecture ot init random eq w w' i :
  prune_iteratively dtr dte architecture ot init random eq w = Ok tt w' ->
  (1 <= i <= 30)%nat ->
  exists q, weight_fractions !! i = Some q /\ 0 <= q <= 100.
Proof.
  intros H Hi. apply prune_iteratively_Ok in H
    as (ne & la & w1 & _ & Hloop & _).
  destruct (for_each_Ok_each _ _ _ _ Hloop i) as (v & v' & Hround).
  { apply elem_of_seq. lia. }
  apply pruning_round_Ok in Hround as (v1 & v2 & _ & _ & _ & H2 & _).
  destruct (Nat.eqb_spec i 0) as [|_]; [lia|]. simpl in H2.
  apply load_and_build_masks_Ok in H2
    as (lst & cpt & q & thr & ms & d & _ & _ & _ & Hq & Hp & _).
  exists q. split; [exact Hq|]. eapply percentile_in_range. exact Hp.
Qed.

Lemma bind_Raise {A B} (m : M A) (k : A -> M B) w e w' :
  bind m k w = Raise e w' ->
  m w = Raise e w' \/ exists a w1, m w = Ok a w1 /\ k a w1 = Raise e w'.
Proof. unfold bind. destruct (m w) as [a w1|e1 w1]; intros H;
    [right; exists a, w1; split; [reflexivity|exact H] | left; by injection H as -> ->]. Qed.

(** X9 (lines 131-133): a run that raises prints none of the three final
    lines (the accuracies, the losses, "finished"): the results collected so
    far are not reported. *)
Theorem failed_run_reports_nothing
    dtr dte architecture ot init random eq w e w' :
  prune_iteratively dtr dte architecture ot init random eq w = Raise e w' ->
  exists d, trace w' = trace w ++ d /\
            forallb (fun ev => negb (is_final_print ev)) d = true.
Proof.
  unfold prune_iteratively. intros H.
  apply bind_Raise in H as [H|([ne la] & w0 & Hs & H)].
  - exists []. split; [|done]. rewrite app_nil_r.
    unfold schedule in H.
    destruct (String.eqb architecture "vgg19"); [discriminate|].
    destruct (String.eqb architecture "resnet50"); [discriminate|].
    by injection H as _ <-.
  - apply schedule_Ok in Hs as [-> _].
    apply bind_Raise in H as [H|([] & w1 & He & H)]; [discriminate|].
    injection He as <-.
    apply bind_Raise in H as [H|([] & w2 & Ha & H)]; [discriminate|].
    injection Ha as <-.
    apply bind_Raise in H as [H|([] & w3 & Hl & H)]; [discriminate|].
    injection Hl as <-.
    apply bind_Raise in H as [H|([] & w4 & _ & H)]; [|discriminate].
    assert (He : emits (fun ev => negb (is_final_print ev))
                   (for_each (seq 0 31)
                      (pruning_round ne la ot dtr dte init random eq))).
    { apply emits_for_each. intros i.
      unfold pruning_round, new_optimizer, load_and_build_masks, torch_load,
        load_state_dict, mask_loop_body, load_weights, train_epoch, anneal,
        train_batch, apply_masks, torch_save, evaluate, test, test_batch,
        append_results.
      quiet. }
    match type of H with ?m ?v = _ => destruct (He v) as (d & Hd & Hall) end.
    rewrite H in Hd. simpl in Hd.
    exists (PrintStarted :: d). split; [|exact Hall].
    rewrite Hd. by rewrite <- app_assoc.
Qed.

End Sequence.

(** ** What [test] reports *)

Section Reports.
Context `{C : collaborators}.
Local Open Scope run_scope.

Lemma test_Ok dl w r w' :
  test dl w = Ok r w' ->
  (0 < list_sum (map (fun b => length (labels b)) dl))%nat.
Proof.
  intros H.
  destruct (test_loop dl (0%nat, 0%nat, 0) (set_grad_enabled false w) eq_refl)
    as (w1 & Hrun & _). simpl in Hrun. rewrite tally_fold in Hrun.
  unfold test, bind in H. simpl in H, Hrun. rewrite Hrun in H. simpl in H.
  destruct (Nat.eqb_spec (list_sum (map (fun b => length (labels b)) dl)) 0)
    as [|Hne]; [discriminate | lia].
Qed.

Lemma samples_pos_inv dl :
  (0 < list_sum (map (fun b => length (labels b)) dl))%nat ->
  Exists (fun b => labels b <> []) dl.
Proof.
  induction dl as [|data dl IH]; simpl; [lia|]. intros H.
  destruct (labels data) as [|y ys] eqn:E.
  - apply Exists_cons_tl, IH. simpl in H. exact H.
  - apply Exists_cons_hd. by rewrite E.
Qed.

Lemma tally_no_samples m dl : forall correct total total_loss,
  Forall (fun b => labels b = []) dl ->
  (fold_left (tally m) dl (correct, total, total_loss)).1.2 = total.
Proof.
  induction dl as [|data dl IH]; intros c t l H; simpl; [done|].
  inversion H as [|? ? Hd Hdl]; subst. rewrite IH by exact Hdl.
  rewrite Hd. simpl. lia.
Qed.

Lemma test_no_samples dl w :
  Forall (fun b => labels b = []) dl ->
  exists w', test dl w = Raise ZeroDivisionError w' /\
    model w' = model w /\ grad_enabled w' = grad_enabled w /\
    trace w' = trace w ++ replicate (length dl) (CallForward false).
Proof.
  intros Hdl.
  destruct (test_loop dl (0%nat, 0%nat, 0) (set_grad_enabled false w) eq_refl)
    as (w1 & Hrun & Hm & Hg & Ht). simpl in Hrun, Hm, Ht.
  pose proof (tally_no_samples (model w) dl 0%nat 0%nat 0 Hdl) as Htot.
  destruct (fold_left (tally (model w)) dl (0%nat, 0%nat, 0))
    as [[correct total] total_loss]. simpl in Htot. subst total.
  exists (set_grad_enabled (grad_enabled w) w1).
  unfold test, bind. simpl. rewrite Hrun. simpl. auto.
Qed.

(** X11 (lines 135-165 and 125-127): on a loader that yields no sample
    [test] raises ZeroDivisionError, after its forward passes, with the
    parameters and the autograd mode as before; a run with such a test
    loader cannot complete (round 0 evaluates). *)
Theorem test_without_samples dl w :
  Forall (fun b => labels b = []) dl ->
  (exists w', test dl w = Raise ZeroDivisionError w' /\
     model w' = model w /\ grad_enabled w' = grad_enabled w /\
     trace w' = trace w ++ replicate (length dl) (CallForward false)) /\
  (forall dtr architecture ot init random eq v v',
     prune_iteratively dtr dl architecture ot init random eq v <> Ok tt v').
Proof.
  intros Hdl. split; [by apply test_no_samples|].
  intros dtr architecture ot init random eq v v' H.
  apply prune_iteratively_Ok in H as (ne & la & w1 & _ & Hloop & _).
  destruct (for_each_Ok_each _ _ _ _ Hloop 0%nat) as (u & u' & Hround).
  { apply elem_of_seq. lia. }
  apply pruning_round_Ok in Hround as (u1 & u2 & u3 & u4 & _ & _ & _ & _ & H5).
  simpl in H5. unfold evaluate in H5.
  apply bind_Ok in H5 as (r & u5 & Htest & _).
  destruct (test_no_samples dl u4 Hdl) as (u6 & Hraise & _). congruence.
Qed.

End Reports.

(** ** The threshold as an order statistic *)

Section OrderStatistic.
Context `{C : collaborators}.
Local Open Scope run_scope.

Lemma insert_sorted_count (f : Q -> bool) x l :
  length (List.filter f (insert_sorted x l)) = length (List.filter f (x :: l)).
Proof.
  induction l as [|y l IH]; simpl; [done|].
  destruct (Qle_bool x y); simpl; [done|].
  simpl in IH. destruct (f y), (f x); simpl in *; lia.
Qed.

Lemma sort_Q_count (f : Q -> bool) l :
  length (List.filter f (sort_Q l)) = length (List.filter f l).
Proof.
  induction l as [|x l IH]; simpl; [done|].
  rewrite insert_sorted_count. simpl. destruct (f x); simpl; lia.
Qed.

Lemma insert_sorted_length x l : length (insert_sorted x l) = S (length l).
Proof.
  induction l as [|y l IH]; simpl; [done|].
  destruct (Qle_bool x y); simpl; lia.
Qed.

Lemma sort_Q_length l : length (sort_Q l) = length l.
Proof.
  induction l as [|x l IH]; simpl; [done|].
  rewrite insert_sorted_length. lia.
Qed.

Lemma insert_sorted_sorted x l :
  StronglySorted Qle l -> StronglySorted Qle (insert_sorted x l).
Proof.
  induction 1 as [|y l Hl IH Hy]; simpl.
  - repeat constructor.
  - destruct (Qle_bool x y) eqn:E.
    + apply Qle_bool_iff in E. constructor; [by constructor|].
      constructor; [exact E|].
      eapply Forall_impl; [exact Hy|]. intros z Hz. simpl in Hz. lra.
    + constructor; [exact IH|]. apply insert_sorted_Forall; [|exact Hy].
      destruct (Qlt_le_dec y x) as [Hlt|Hle]; [lra|].
      apply Qle_bool_iff in Hle. congruence.
Qed.

Lemma sort_Q_sorted l : StronglySorted Qle (sort_Q l).
Proof.
  induction l as [|x l IH]; simpl; [constructor|].
  by apply insert_sorted_sorted.
Qed.

Lemma Forall_nth_le (x : Q) l i :
  Forall (Qle x) l -> (i < length l)%nat -> x <= nth i l 0.
Proof.
  intros H. revert i. induction H as [|y l Hy Hl IH]; intros [|i] Hi;
    simpl in *; [lia | lia | exact Hy | apply IH; lia].
Qed.

Lemma sorted_nth_mono s :
  StronglySorted Qle s ->
  forall i j, (i <= j)%nat -> (j < length s)%nat -> nth i s 0 <= nth j s 0.
Proof.
  induction 1 as [|x s Hs IH Hx]; intros i j Hij Hj; simpl in Hj; [lia|].
  destruct i as [|i], j as [|j]; simpl; try lia.
  - lra.
  - apply Forall_nth_le; [exact Hx | lia].
  - apply IH; lia.
Qed.

(** In an ordered list at least [lo + 1] entries are at most any bound of
    the entry at position [lo]. *)
Lemma sorted_count t s :
  StronglySorted Qle s ->
  forall lo, (lo < length s)%nat -> nth lo s 0 <= t ->
    (lo + 1 <= length (List.filter (fun a => Qle_bool a t) s))%nat.
Proof.
  induction 1 as [|x s Hs IH Hx]; intros lo Hlo Ht; simpl in Hlo; [lia|].
  assert (Hxt : Qle_bool x t = true).
  { apply Qle_bool_iff. destruct lo as [|lo]; simpl in Ht; [exact Ht|].
    apply Qle_trans with (nth lo s 0); [|exact Ht].
    apply Forall_nth_le; [exact Hx | lia]. }
  simpl. rewrite Hxt. simpl. destruct lo as [|lo]; [lia|].
  simpl in Ht. specialize (IH lo ltac:(lia) Ht). lia.
Qed.

(** The interpolated order statistic is at least the order statistic below
    the virtual index, and that index is in range. *)
Lemma lerp_index_lower s q :
  StronglySorted Qle s -> s <> [] -> 0 <= q <= 100 ->
  exists lo, (lo < length s)%nat /\ nth lo s 0 <= lerp_index s q /\
             q / 100 * nat_Q (length s - 1) < nat_Q (lo + 1).
Proof.
  intros Hs Hne [Hq0 Hq100]. unfold lerp_index, nat_Q.
  set (n := length s). assert (1 <= n)%nat as Hn.
  { unfold n. destruct s; [done | simpl; lia]. }
  set (N := inject_Z (Z.of_nat (n - 1))).
  assert (0 <= N) as HN.
  { unfold N. change 0 with (inject_Z 0). rewrite <- Zle_Qle. lia. }
  set (idx := q / 100 * N).
  assert (Hq : 0 <= q / 100 /\ q / 100 <= 1).
  { split; [apply Qle_shift_div_l | apply Qle_shift_div_r]; lra. }
  assert (0 <= idx /\ idx <= N) as [Hi0 HiN] by (unfold idx; nra).
  pose proof (Qfloor_le idx) as Hlo. pose proof (Qlt_floor idx) as Hhi.
  assert (0 <= Qfloor idx)%Z as Hf0.
  { change 0%Z with (Qfloor 0). by apply Qfloor_resp_le. }
  assert (Qfloor idx <= Z.of_nat (n - 1))%Z as HfN.
  { rewrite <- (Qfloor_Z (Z.of_nat (n - 1))). by apply Qfloor_resp_le. }
  set (lo := Z.to_nat (Qfloor idx)).
  assert (lo <= n - 1)%nat as Hlon by (unfold lo; lia).
  exists lo. split; [lia|]. split.
  - set (hi := Nat.min (lo + 1) (n - 1)).
    assert (nth lo s 0 <= nth hi s 0) as Hab
      by (apply sorted_nth_mono; [exact Hs | unfold hi; lia | unfold hi, n in *; lia]).
    set (g := idx - inject_Z (Qfloor idx)).
    assert (0 <= g) as Hg by (unfold g; lra).
    revert Hab. generalize (nth lo s 0), (nth hi s 0). intros a b Hab.
    clearbody g. nra.
  - replace (Z.of_nat (lo + 1)) with (Qfloor idx + 1)%Z by (unfold lo; lia).
    exact Hhi.
Qed.

(** The zeros of a mask count at least the entries that are not above the
    threshold. *)
Lemma build_mask_zeros threshold t :
  (length (List.filter (fun a => Qle_bool a threshold) (map Qabs t))
   <= length (build_mask threshold t) - nonzero_count (build_mask threshold t)
   <= length t)%nat.
Proof.
  split; [|rewrite build_mask_length; lia].
  induction t as [|x t IH]; [done|].
  pose proof (List.filter_length_le (fun x => negb (Qeq_bool x 0))
                (build_mask threshold t)) as Hle.
  change (build_mask threshold (x :: t))
    with ((if Qgtb (to_dtype (Qabs x)) (to_dtype threshold) then 1 else 0)
          :: build_mask threshold t).
  unfold nonzero_count in *. simpl.
  destruct (Qle_bool (Qabs x) threshold) eqn:E.
  - apply Qle_bool_iff in E.
    rewrite (Qgtb_false _ _ (to_dtype_mono _ _ E)). simpl. lia.
  - destruct (Qgtb _ _); simpl; lia.
Qed.

Lemma zeros_below_count threshold ts :
  (length (List.filter (fun a => Qle_bool a threshold) (map Qabs (concat ts)))
   <= zeros_below threshold ts <= length (concat ts))%nat.
Proof.
  induction ts as [|t ts IH]; simpl; [done|].
  rewrite map_app, List.filter_app, !length_app.
  pose proof (build_mask_zeros threshold t). lia.
Qed.

(** X12 (lines 62-81): the number of pruned weights a round prints is at
    least 1, at most the number of weights, and more than
    [q / 100 * (total - 1)] for the round's percentile [q]: the schedule's
    fraction is met, and a weight of the smallest magnitude is pruned even
    for [q = 0]. *)
Theorem pruning_meets_the_schedule i random w w' :
  load_and_build_masks i random w = Ok tt w' ->
  exists q zeros total,
    weight_fractions !! i = Some q /\
    last (trace w') = Some (PrintFraction zeros total) /\
    (1 <= zeros <= total)%nat /\
    q / 100 * nat_Q (total - 1) < nat_Q zeros.
Proof.
  intros H. apply load_and_build_masks_Ok in H
    as (lst & cpt & q & threshold & ms & d & _ & _ & _ & Hq & Hp & _ & _ & _
        & _ & Ht & _).
  set (ts := weights (model w')) in *.
  exists q, (zeros_below threshold ts), (length (concat ts)).
  split; [exact Hq|]. split; [rewrite Ht, !app_assoc; apply last_snoc|].
  pose proof (percentile_in_range _ _ _ Hp) as Hrange.
  pose proof (zeros_below_count threshold ts) as [Hzlo Hzhi].
  revert Hzlo Hzhi. generalize (zeros_below threshold ts). intros zeros.
  assert (length (concat ts) = length (map Qabs (concat ts))) as ->
    by (by rewrite length_map). intros Hzlo Hzhi.
  remember (map Qabs (concat ts)) as a eqn:Ea. clear Ea.
  assert (a <> [] /\ threshold = lerp_index (sort_Q a) q) as [Hne ->].
  { unfold percentile in Hp. destruct (negb _); [discriminate|].
    destruct a; [discriminate|]. split; [done | by injection Hp]. }
  destruct (lerp_index_lower (sort_Q a) q (sort_Q_sorted a)) as
    (lo & Hlo & Hnth & Hidx); [|exact Hrange|].
  { intros E. apply (f_equal length) in E. rewrite sort_Q_length in E.
    by destruct a. }
  pose proof (sorted_count _ _ (sort_Q_sorted a) lo Hlo Hnth) as Hcount.
  rewrite sort_Q_count in Hcount. rewrite sort_Q_length in Hidx, Hlo.
  split; [lia|].
  eapply Qlt_le_trans; [exact Hidx|]. apply nat_Q_le. lia.
Qed.

End OrderStatistic.

(** ** What masking touches *)

Section Masking.
Context `{C : collaborators}.
Local Open Scope run_scope.

Lemma apply_masks_from_rest ms m : forall li m',
  apply_masks_from ms li m = inr m' ->
  map fst m' = map fst m /\
  forall k name t, m !! k = Some (name, t) -> is_weight name = false ->
                   m' !! k = Some (name, t).
Proof.
  induction m as [|[name params] m IH]; intros li m' H; simpl in H.
  - by injection H as <-.
  - destruct (is_weight name) eqn:Ew.
    + destruct (ms !! li) as [mask|]; [|discriminate].
      destruct (decide (length mask = length params)) as [_|]; [|discriminate].
      destruct (apply_masks_from ms (S li) m) as [|rest'] eqn:E; [discriminate|].
      injection H as <-. destruct (IH _ _ E) as [Hn Hk]. simpl. split.
      * by rewrite Hn.
      * intros [|k] name' t Hl Hw; simpl in *; [congruence | by apply Hk].
    + destruct (apply_masks_from ms li m) as [|rest'] eqn:E; [discriminate|].
      injection H as <-. destruct (IH _ _ E) as [Hn Hk]. simpl. split.
      * by rewrite Hn.
      * intros [|k] name' t Hl Hw; simpl in *; [done | by apply Hk].
Qed.

Lemma apply_masks_from_value ms m : forall li m',
  apply_masks_from ms li m = inr m' ->
  weights m' = zip_with mul_ (weights m) (drop li ms).
Proof.
  induction m as [|[name params] m IH]; intros li m' H; simpl in H.
  - by injection H as <-.
  - rewrite weights_cons. destruct (is_weight name) eqn:Ew.
    + destruct (ms !! li) as [mask|] eqn:Emask; [|discriminate].
      destruct (decide (length mask = length params)) as [_|]; [|discriminate].
      destruct (apply_masks_from ms (S li) m) as [|rest'] eqn:E; [discriminate|].
      injection H as <-. rewrite weights_cons, Ew, (drop_S _ _ _ Emask).
      simpl. f_equal. by apply IH.
    + destruct (apply_masks_from ms li m) as [|rest'] eqn:E; [discriminate|].
      injection H as <-. rewrite weights_cons, Ew. by apply IH.
Qed.

(** Masks that pair with the prunable tensors, size by size, can be
    applied. *)
Lemma apply_masks_from_fits ms m : forall li,
  Forall2 (fun (mask t : tensor) => length mask = length t)
    (drop li ms) (weights m) ->
  exists m', apply_masks_from ms li m = inr m'.
Proof.
  induction m as [|[name t] m IH]; intros li H; [simpl; eauto|].
  rewrite weights_cons in H. simpl. destruct (is_weight name).
  - inversion H as [|mask t0 rest ts Hlen Hrest Hdrop Heq]; subst.
    assert (ms !! li = Some mask) as Hmask.
    { rewrite <- (Nat.add_0_r li), <- lookup_drop, <- Hdrop. done. }
    rewrite Hmask. destruct (decide _) as [_|]; [|done].
    rewrite (drop_S _ _ _ Hmask) in Hdrop. injection Hdrop as ->.
    destruct (IH _ Hrest) as [r ->]. eauto.
  - destruct (IH _ H) as [r ->]. eauto.
Qed.

(** X13 (lines 103-107 and 116-120): with one mask per prunable tensor, of
    the tensor's size, applying the masks returns; it keeps the names of the
    parameters, leaves every parameter without "weight" in its name as it
    is, multiplies the k-th prunable tensor entry by entry with the k-th
    mask, and changes nothing else: no file, no mask, no optimizer state, no
    print. *)
Theorem masking_touches_prunable_tensors_only w ms :
  masks w = Some ms ->
  Forall2 (fun (mask t : tensor) => length mask = length t)
    ms (weights (model w)) ->
  exists w',
    apply_masks w = Ok tt w' /\
    map fst (model w') = map fst (model w) /\
    (forall k name t, model w !! k = Some (name, t) -> is_weight name = false ->
                      model w' !! k = Some (name, t)) /\
    weights (model w') = zip_with (zip_with Qmult) (weights (model w)) ms /\
    trace w' = trace w /\ files w' = files w /\ masks w' = masks w /\
    the_optimizer w' = the_optimizer w.
Proof.
  intros Hms Hfit.
  destruct (apply_masks_from_fits ms (model w) 0 Hfit) as [m' Hm'].
  destruct (apply_masks_from_rest _ _ _ _ Hm') as [Hn Hk].
  exists (set_model m' w). split.
  { unfold apply_masks, bind, local, gets. rewrite Hms. simpl.
    rewrite Hm'. reflexivity. }
  simpl. split; [exact Hn|]. split; [exact Hk|]. split; [|done].
  exact (apply_masks_from_value _ _ _ _ Hm').
Qed.

End Masking.

(** ** What a round needs to return *)

Section Needs.
Context `{C : collaborators}.
Local Open Scope run_scope.

Lemma load_weights_into_same_layout snapshot eq m : forall m1 m1',
  layout m = layout m1 -> load_weights_into m1 snapshot eq = inr m1' ->
  exists m', load_weights_into m snapshot eq = inr m'.
Proof.
  induction m as [|[name t] m IH]; intros [|[name1 t1] m1] m1' Hl H;
    try discriminate Hl.
  - simpl. eauto.
  - injection Hl as -> Hlen Hl. simpl in H |- *.
    destruct (load_weights_into m1 snapshot eq) as [|r1] eqn:E; [discriminate|].
    destruct (IH _ _ Hl E) as [r ->].
    destruct (negb eq && final_layer name1); [eauto|].
    destruct (assoc name1 snapshot) as [v|]; [|discriminate].
    destruct (decide (length v = length t1)) as [Hv|]; [|discriminate].
    destruct (decide (length v = length t)) as [|Hn]; [eauto | congruence].
Qed.

Lemma evaluate_needs_samples i dte w w' :
  evaluates i = true ->
  when (evaluates i) (evaluate i dte) w = Ok tt w' ->
  Exists (fun b => labels b <> []) dte.
Proof.
  intros -> H. simpl in H. unfold evaluate in H.
  apply bind_Ok in H as (r & v & Htest & _).
  apply samples_pos_inv. eapply test_Ok. exact Htest.
Qed.

(** X14 (lines 50-129): a round in winning-ticket mode
    ([random == 'false']) returns only if: the optimizer type is sgd or
    adam; from round 1 on the previous round's checkpoint exists, has the
    model's names and shapes and some prunable weight, and the schedule has
    a percentile in [0, 100] for the round; the initialization snapshot
    loads into the model ([load_weights] as the specification describes
    it); and, if the round evaluates, the test loader yields a sample. *)
Theorem winning_ticket_round_returns_only_if ne la ot dtr dte init eq i w w' :
  pruning_round ne la ot dtr dte init "false" eq i w = Ok tt w' ->
  (ot = "sgd"%string \/ ot = "adam"%string) /\
  (i <> 0%nat -> exists last cpt q,
     last_epoch w = Some last /\
     files w !! ((i - 1)%nat, last) = Some cpt /\
     layout (model_state_dict cpt) = layout (model w) /\
     weight_fractions !! i = Some q /\ 0 <= q <= 100 /\
     concat (weights (model_state_dict cpt)) <> []) /\
  (exists snapshot m', init = Some snapshot /\
     load_weights_into (model w) snapshot eq = inr m') /\
  (evaluates i = true -> Exists (fun b => labels b <> []) dte).
Proof.
  intros H. apply pruning_round_Ok in H
    as (w1 & w2 & w3 & w4 & H1 & H2 & H3 & H4 & H5).
  assert (model w1 = model w /\ files w1 = files w /\
          last_epoch w1 = last_epoch w) as (Hm1 & Hf1 & Hl1).
  { split; [|split].
    - eapply (preserves_Ok model) in H1; [exact H1|].
      by apply new_optimizer_frame.
    - eapply (preserves_Ok files) in H1; [exact H1|].
      by apply new_optimizer_frame.
    - eapply (preserves_Ok last_epoch) in H1; [exact H1|].
      by apply new_optimizer_frame. }
  assert (layout (model w2) = layout (model w)) as Hl2.
  { rewrite <- Hm1. apply when_Ok in H2 as [[_ H2]|[_ ->]]; [|done].
    by eapply load_and_build_masks_layout. }
  split; [apply new_optimizer_Ok in H1 as [[? _]|[? _]]; auto|].
  split; [|split].
  - intros Hi. destruct (Nat.eqb_spec i 0) as [|_]; [done|]. simpl in H2.
    apply load_and_build_masks_Ok in H2
      as (last & cpt & q & thr & l & d & Hlast & Hfile & Hmodel & Hq & Hp & _).
    exists last, cpt, q. rewrite <- Hl1, <- Hf1, <- Hl2, Hmodel.
    split; [exact Hlast|]. split; [exact Hfile|]. split; [reflexivity|].
    split; [exact Hq|]. split; [eapply percentile_in_range; exact Hp|].
    intros E. rewrite Hmodel, E in Hp. unfold percentile in Hp. simpl in Hp.
    destruct (negb _); discriminate.
  - simpl in H3. unfold load_weights in H3.
    apply bind_Ok in H3 as ([] & v0 & Hemit & H3). injection Hemit as <-.
    destruct init as [snapshot|]; [|discriminate].
    apply bind_Ok in H3 as (m & v1 & Hm & H3). injection Hm as <- <-.
    apply bind_Ok in H3 as (m' & v1 & Hm' & _). apply lift_Ok in Hm' as [Hm' _].
    simpl in Hm'.
    destruct (load_weights_into_same_layout snapshot eq (model w) (model w2) m'
                (eq_sym Hl2) Hm') as [m0 Hm0].
    eauto.
  - intros Hev. eapply evaluate_needs_samples; eassumption.
Qed.

Lemma layout_shapes m m' : layout m = layout m' -> shapes m = shapes m'.
Proof.
  intros H. unfold shapes.
  assert (forall m0 : state_dict,
            map (fun p => (is_weight p.1, length p.2)) m0
            = map (fun nk : string * nat => (is_weight nk.1, nk.2)) (layout m0))
    as E.
  { intros m0. unfold layout. by rewrite map_map. }
  by rewrite !E, H.
Qed.

(** X15 (lines 14-133): for an optimizer that keeps the names and shapes of
    the parameters (and [load_weights] as the specification describes it),
    a completed run leaves the model with as many parameters as it started
    with, each of the size it had and prunable exactly if it was. *)
Theorem run_keeps_the_shapes dtr dte architecture ot init random eq w w' :
  (forall k lr b m g, layout (optimizer_step k lr b m g).2 = layout m) ->
  prune_iteratively dtr dte architecture ot init random eq w = Ok tt w' ->
  shapes (model w') = shapes (model w).
Proof.
  intros step_layout H. apply layout_shapes.
  apply prune_iteratively_Ok in H as (ne & la & w1 & _ & Hloop & _ & ->).
  revert Hloop.
  apply (for_each_inv (fun v => layout (model v) = layout (model w)));
    [|done].
  intros i v v' _ Hv Hround. rewrite <- Hv.
  eapply pruning_round_layout; [exact step_layout | exact Hround].
Qed.

End Needs.

(** ** The script *)

Section ScriptFacts.
Context `{C : collaborators}.
Variable load_dataset : string -> nat -> bool -> exn + list batch.
Variable load_model : string -> nat -> exn + state_dict.
Variable snapshot_at : string -> option state_dict.
Local Open Scope run_scope.

Lemma num_classes_supported dataset role :
  dataset ∈ ["cifar10"; "svhn"; "fashionmnist"; "cifar100"]%string ->
  Script.num_classes dataset role
  = inr (if String.eqb dataset "cifar100" then 100%nat else 10%nat).
Proof.
  intros H. unfold Script.num_classes.
  destruct (String.eqb_spec dataset "cifar100") as [->|Hne].
  - reflexivity.
  - rewrite bool_decide_eq_true_2; [done|].
    rewrite !elem_of_cons in H. rewrite !elem_of_cons. tauto.
Qed.

Lemma num_classes_unsupported dataset role :
  dataset ∉ ["cifar10"; "svhn"; "fashionmnist"; "cifar100"]%string ->
  Script.num_classes dataset role
  = inl (ValueError (dataset ++ " as a " ++ role ++ " dataset is not supported")).
Proof.
  intros H. unfold Script.num_classes.
  rewrite !bool_decide_eq_false_2; [reflexivity | |];
    intros Hin; apply H; rewrite !elem_of_cons in Hin; rewrite !elem_of_cons;
    tauto.
Qed.

(** X16 (lines 181-198): with a source or target dataset outside cifar10,
    svhn, fashionmnist and cifar100 the script raises before a model is
    built or anything is trained: the model, the files and the log are as
    they were.  The datasets are
    loaded first; when both loaders return, the error is the ValueError
    naming the source dataset, or, the source being supported, the one
    naming the target dataset. *)
Theorem script_rejects_unsupported_datasets a w :
  Script.source_dataset a ∉ ["cifar10"; "svhn"; "fashionmnist"; "cifar100"]%string
  \/ Script.target_dataset a ∉ ["cifar10"; "svhn"; "fashionmnist"; "cifar100"]%string ->
  exists e,
    Script.main load_dataset load_model snapshot_at a w = Raise e w /\
    (forall dataloader_train dataloader_test,
       load_dataset (Script.target_dataset a) (Script.batch_size a) true
         = inr dataloader_train ->
       load_dataset (Script.target_dataset a) (Script.batch_size a) false
         = inr dataloader_test ->
       exists dataset role,
         e = ValueError (dataset ++ " as a " ++ role ++ " dataset is not supported") /\
         ((dataset = Script.source_dataset a /\ role = "source"%string) \/
          (Script.source_dataset a
             ∈ ["cifar10"; "svhn"; "fashionmnist"; "cifar100"]%string /\
           dataset = Script.target_dataset a /\ role = "target"%string))).
Proof.
  intros H. unfold Script.main, bind.
  destruct (load_dataset _ _ true) as [e1|dtr]; simpl.
  { exists e1. split; [reflexivity|]. intros ? ? [=]. }
  destruct (load_dataset _ _ false) as [e2|dte]; simpl.
  { exists e2. split; [reflexivity|]. intros ? ? _ [=]. }
  destruct (decide (Script.source_dataset a
                      ∈ ["cifar10"; "svhn"; "fashionmnist"; "cifar100"]%string))
    as [Hs|Hs].
  - destruct H as [H|H]; [done|].
    rewrite (num_classes_supported _ _ Hs). simpl.
    rewrite (num_classes_unsupported _ _ H). simpl.
    eexists. split; [reflexivity|]. intros _ _ _ _.
    exists (Script.target_dataset a), "target"%string. auto.
  - rewrite (num_classes_unsupported _ _ Hs). simpl.
    eexists. split; [reflexivity|]. intros _ _ _ _.
    exists (Script.source_dataset a), "source"%string. auto.
Qed.

Lemma num_classes_inr dataset role n :
  Script.num_classes dataset role = inr n ->
  dataset ∈ ["cifar10"; "svhn"; "fashionmnist"; "cifar100"]%string /\
  n = if String.eqb dataset "cifar100" then 100%nat else 10%nat.
Proof.
  intros H.
  destruct (decide (dataset ∈ ["cifar10"; "svhn"; "fashionmnist"; "cifar100"]%string))
    as [Hs|Hs].
  - rewrite (num_classes_supported _ _ Hs) in H. by injection H as <-.
  - by rewrite (num_classes_unsupported _ _ Hs) in H.
Qed.

(** X17 (lines 181-209): a script that completes loaded both loaders from
    the target dataset, built the model for the target's number of classes
    (100 for cifar100, 10 otherwise), and ran [prune_iteratively] on that
    model with [is_equal_classes] true exactly when source and target are
    both cifar100 or both not. *)
Theorem script_trains_on_the_target a w w' :
  Script.main load_dataset load_model snapshot_at a w = Ok tt w' ->
  exists dataloader_train dataloader_test m,
    load_dataset (Script.target_dataset a) (Script.batch_size a) true
      = inr dataloader_train /\
    load_dataset (Script.target_dataset a) (Script.batch_size a) false
      = inr dataloader_test /\
    Script.source_dataset a
      ∈ ["cifar10"; "svhn"; "fashionmnist"; "cifar100"]%string /\
    Script.target_dataset a
      ∈ ["cifar10"; "svhn"; "fashionmnist"; "cifar100"]%string /\
    load_model (Script.architecture a)
      (if String.eqb (Script.target_dataset a) "cifar100" then 100 else 10)%nat
      = inr m /\
    prune_iteratively dataloader_train dataloader_test
      (Script.architecture a) (Script.optimizer a)
      (snapshot_at (Script.init_path a)) (Script.random a)
      (Bool.eqb (String.eqb (Script.source_dataset a) "cifar100")
                (String.eqb (Script.target_dataset a) "cifar100"))
      (set_model m w) = Ok tt w'.
Proof.
  unfold Script.main. intros H.
  apply bind_Ok in H as (dtr & w1 & H1 & H). apply lift_Ok in H1 as [H1 ->].
  apply bind_Ok in H as (dte & w1 & H2 & H). apply lift_Ok in H2 as [H2 ->].
  apply bind_Ok in H as (ns & w1 & Hs & H). apply lift_Ok in Hs as [Hs ->].
  apply bind_Ok in H as (nt & w1 & Ht & H). apply lift_Ok in Ht as [Ht ->].
  apply bind_Ok in H as (m & w1 & Hm & H). apply lift_Ok in Hm as [Hm ->].
  apply bind_Ok in H as ([] & w1 & Hset & H). injection Hset as <-.
  apply num_classes_inr in Hs as [Hs ->]. apply num_classes_inr in Ht as [Ht ->].
  exists dtr, dte, m. repeat (split; [assumption|]).
  destruct (String.eqb (Script.source_dataset a) "cifar100"),
           (String.eqb (Script.target_dataset a) "cifar100"); exact H.
Qed.

End ScriptFacts.

(** ** The theorems at work on the small environment *)

Section Witnesses.
Import Example.

Lemma sgd_step_layout k lr bufs m grads :
  layout (sgd_step k lr bufs m grads).2 = layout m.
Proof.
  unfold sgd_step. simpl.
  assert (forall (f : nat -> string * tensor -> tensor * (string * tensor)),
            (forall i p, (f i p).2.1 = p.1 /\ length (f i p).2.2 = length p.2) ->
            layout (map snd (imap f m)) = layout m) as Himap.
  { induction m as [|p m IH]; intros f Hf; simpl; [done|].
    destruct (Hf 0%nat p) as [-> ->]. f_equal. apply IH. intros i q. apply Hf. }
  apply Himap. intros i [name t]. simpl.
  unfold sgd_tensor. simpl. split; [done|]. by rewrite length_imap.
Qed.

(** A run on the small environment completes: evaluated, not proved. *)
Ltac runs := refine (succeeds_Ok _ _); vm_compute; reflexivity.

(** Round 1 starts its first batch from the rewound weights with the
    second weight pruned; the batch masks it to zero, the gradient there is
    1, and the SGD step leaves it at -1/10. *)
Example first_batch_of_round1 :
  model before_first_batch = init_net /\
  masks before_first_batch = Some [[1; 0]] /\
  model (world_of (train_batch 1 first_batch before_first_batch))
  = net (99999 # 200000) (-1 # 10) (1 # 10) (1 # 10).
Proof. repeat split; vm_compute; reflexivity. Qed.

(** Round 1 in random-ticket mode on two prunable tensors: the permuter
    runs twice, on one mask and then on two. *)
Example permuter_calls_on_two_weights :
  omap as_permute
    (trace (world_of (load_and_build_masks 1 "true" random_round1_start)))
  = [1; 2]%nat.
Proof. vm_compute. reflexivity. Qed.

(** Round 0 evaluated: the scalars are printed, the lists receive
    themselves. *)
Example evaluated_round0 :
  last (trace after_round0) = Some (PrintTest 0 (3286 # 10000) (100000 # 1000)) /\
  test_accuracys after_round0 = [PyListRef TestAccuracys] /\
  test_losses after_round0 = [PyListRef TestLosses].
Proof. repeat split; vm_compute; reflexivity. Qed.





Lemma masks_only_shrink_witness :
  (1 <= 2)%nat /\
  round 1 after_round0 = Ok tt after_round1 /\
  round 2 after_round1 = Ok tt after_round2 /\
  pruned (round_masks 1 after_round1) 0 1 /\
  pruned (round_masks 2 after_round2) 0 1.
Proof.
  assert (Hne : (1 <= 2)%nat) by lia.
  assert (H1 : round 1 after_round0 = Ok tt after_round1) by runs.
  assert (H2 : round 2 after_round1 = Ok tt after_round2) by runs.
  assert (Hp : pruned (round_masks 1 after_round1) 0 1).
  { exists [1; 0], 0. vm_compute. exact (conj eq_refl (conj eq_refl eq_refl)). }
  refine (conj Hne (conj H1 (conj H2 (conj Hp _)))).
  exact (masks_only_shrink (C := env) sgd_step_layout 2 [1%nat] "sgd" data data
           (Some init_net) true 1 after_round0 after_round1 after_round2 0 1
           Hne H1 H2 Hp).
Defined.

Lemma permuter_called_per_tensor_witness :
  "true"%string <> "false"%string /\
  load_and_build_masks 1 "true" random_round1_start
  = Ok tt (world_of (load_and_build_masks 1 "true" random_round1_start)) /\
  exists d,
    trace (world_of (load_and_build_masks 1 "true" random_round1_start))
    = trace random_round1_start ++ d /\
    omap as_permute d
    = seq 1 (length (weights (model (world_of
               (load_and_build_masks 1 "true" random_round1_start))))).
Proof.
  assert (Hr : "true"%string <> "false"%string) by discriminate.
  assert (H : load_and_build_masks 1 "true" random_round1_start
              = Ok tt (world_of (load_and_build_masks 1 "true" random_round1_start)))
    by runs.
  refine (conj Hr (conj H _)).
  exact (permuter_called_per_tensor (C := env) 1 "true" random_round1_start _ Hr H).
Defined.

Lemma evaluation_appends_the_list_itself_witness :
  evaluate 0 data after_round0 = Ok tt (world_of (evaluate 0 data after_round0)) /\
  exists test_loss test_accuracy w1,
    test data after_round0 = Ok (test_loss, test_accuracy) w1 /\
    last (trace (world_of (evaluate 0 data after_round0)))
    = Some (PrintTest 0 test_loss test_accuracy) /\
    test_accuracys (world_of (evaluate 0 data after_round0))
    = test_accuracys after_round0 ++ [PyListRef TestAccuracys] /\
    test_losses (world_of (evaluate 0 data after_round0))
    = test_losses after_round0 ++ [PyListRef TestLosses].
Proof.
  assert (H : evaluate 0 data after_round0
              = Ok tt (world_of (evaluate 0 data after_round0))) by runs.
  split; [exact H|].
  exact (evaluation_appends_the_list_itself (C := env) 0 data after_round0 _ H).
Defined.

Lemma weight_reset_iff_not_random_witness :
  round 1 after_round0 = Ok tt after_round1 /\
  exists d, trace after_round1 = trace after_round0 ++ d /\
    ("false"%string = "false"%string -> omap as_load_weights d = [tt]) /\
    ("false"%string <> "false"%string -> omap as_load_weights d = []).
Proof.
  assert (H : round 1 after_round0 = Ok tt after_round1) by runs.
  split; [exact H|].
  exact (weight_reset_iff_not_random (C := env) 2 [1%nat] "sgd" data data
           (Some init_net) "false" true 1 after_round0 after_round1 H).
Defined.

Lemma unsupported_configuration_fails_fast_witness :
  (("lenet" <> "vgg19" /\ "lenet" <> "resnet50")%string \/
   ("sgd" <> "sgd" /\ "sgd" <> "adam")%string) /\
  exists msg w',
    prune_iteratively data data "lenet" "sgd" (Some init_net) "false" true
      (start init_net)
    = Raise (ValueError msg) w' /\
    model w' = model (start init_net) /\ files w' = files (start init_net) /\
    exists d, trace w' = trace (start init_net) ++ d /\
              forallb (fun e => negb (of_training e)) d = true.
Proof.
  assert (H : ("lenet" <> "vgg19" /\ "lenet" <> "resnet50")%string \/
              ("sgd" <> "sgd" /\ "sgd" <> "adam")%string)
    by (left; split; discriminate).
  split; [exact H|].
  exact (unsupported_configuration_fails_fast (C := env) data data "lenet" "sgd"
           (Some init_net) "false" true (start init_net) H).
Defined.

(** One batch of two samples whose scores are all 0: each sample's loss is
    1, and so is the batch's; [test] returns 1/2, the batch's loss over the
    number of samples, where the mean loss is 1. *)
Lemma test_loss_is_not_the_mean :
  value_of (test data (start zero_net)) = Some (5000 # 10000, 50000 # 1000) /\
  forward zero_net [1; -1] = [[0; 0]; [0; 0]] /\
  sample_error [0; 0] 0 == 1 /\ sample_error [0; 0] 1 == 1 /\
  criterion [[0; 0]; [0; 0]] [0; 1]%nat == 1 /\
  ~ 5000 # 10000 == float_round ((1 + 1) / 2) 4.
Proof.
  split; [vm_compute; reflexivity|]. split; [vm_compute; reflexivity|].
  split; [vm_compute; reflexivity|]. split; [vm_compute; reflexivity|].
  split; [vm_compute; reflexivity|]. vm_compute. discriminate.
Qed.

Lemma test_contract_witness :
  Exists (fun b => labels b <> []) data /\
  Forall (fun b => 0 <= criterion (forward (model (start zero_net)) (inputs b))
                         (labels b)) data /\
  exists correct total total_loss w',
    total = list_sum (map (fun b => length (labels b)) data) /\
    correct = list_sum (map (fun b => top1_correct
                                        (forward (model (start zero_net))
                                           (inputs b))
                                        (labels b)) data) /\
    total_loss
    = fold_left (fun s b => to_float (s + criterion
                                            (forward (model (start zero_net))
                                               (inputs b))
                                            (labels b))) data 0 /\
    (forall row j x, row !! j = Some x ->
       exists y, row !! argmax row = Some y /\ x <= y) /\
    test data (start zero_net)
    = Ok (float_round (to_float (total_loss / nat_Q total)) 4,
          float_round (to_float (to_float (nat_Q correct / nat_Q total) * 100)) 3)
         w' /\
    0 <= float_round (to_float (total_loss / nat_Q total)) 4 /\
    0 <= float_round (to_float (to_float (nat_Q correct / nat_Q total) * 100)) 3
      <= 100 /\
    model w' = model (start zero_net) /\
    grad_enabled w' = grad_enabled (start zero_net) /\
    trace w' = trace (start zero_net)
               ++ replicate (length data) (CallForward false).
Proof.
  assert (H1 : Exists (fun b => labels b <> []) data)
    by (apply Exists_cons_hd; discriminate).
  assert (H2 : Forall (fun b => 0 <= criterion
                         (forward (model (start zero_net)) (inputs b))
                         (labels b)) data)
    by (repeat constructor; vm_compute; discriminate).
  refine (conj H1 (conj H2 _)).
  exact (test_contract (C := env) data (start zero_net) H1 H2).
Defined.

Lemma evaluation_rounds_witness :
  let run := prune_iteratively data data "resnet50" "sgd" (Some init_net)
               "false" true (start init_net) in
  run = Ok tt (world_of run) /\
  exists d, trace (world_of run) = trace (start init_net) ++ d /\
    omap as_tested_round d
    = filter (fun i => i <= 6 \/ i mod 3 = 0)%nat (seq 0 31).
Proof.
  intros run.
  assert (H : run = Ok tt (world_of run)) by runs.
  split; [exact H|].
  exact (evaluation_rounds (C := env) data data "resnet50" "sgd" (Some init_net)
           "false" true (start init_net) _ H).
Defined.

Lemma optimizer_fresh_every_round_witness :
  (1 <= 2)%nat /\
  round 1 after_round0 = Ok tt after_round1 /\
  exists w3 w4 cp,
    round_setup "sgd" (Some init_net) "false" true 1 after_round0 = Ok tt w3 /\
    (("sgd" = "sgd"%string /\
      the_optimizer w3
      = Some {| kind := SGD; lr := 1 # 10; state := no_buffers |}) \/
     ("sgd" = "adam"%string /\
      the_optimizer w3
      = Some {| kind := Adam; lr := 3 # 10000; state := no_buffers |})) /\
    for_each (seq 1 2) (train_epoch 1 2 [1%nat] data) w3 = Ok tt w4 /\
    files after_round1 !! (1%nat, 2%nat) = Some cp /\
    Some (optimizer_state_dict cp) = the_optimizer w4 /\
    the_optimizer after_round1 = the_optimizer w4.
Proof.
  assert (Hne : (1 <= 2)%nat) by lia.
  assert (H : round 1 after_round0 = Ok tt after_round1) by runs.
  refine (conj Hne (conj H _)).
  exact (optimizer_fresh_every_round (C := env) 2 [1%nat] "sgd" data data
           (Some init_net) "false" true 1 after_round0 after_round1 Hne H).
Defined.

(** *** Further runs *)

(** The whole run on the small environment completes. *)
Lemma whole_run_completes : whole_run = Ok tt (world_of whole_run).
Proof. runs. Qed.

(** Round 1 of the small run. *)
Lemma round1_completes : round 1 after_round0 = Ok tt after_round1.
Proof. runs. Qed.

Lemma learning_rate_after_round_witness :
  round 1 after_round0 = Ok tt after_round1 /\
  exists o, the_optimizer after_round1 = Some o /\
    (("sgd" = "sgd"%string /\ kind o = SGD /\
      lr o = annealed (anneals [1%nat] (seq 1 2)) (1 # 10)) \/
     ("sgd" = "adam"%string /\ kind o = Adam /\
      lr o = annealed (anneals [1%nat] (seq 1 2)) (3 # 10000))).
Proof.
  split; [exact round1_completes|].
  exact (learning_rate_after_round (C := env) 2 [1%nat] "sgd" data data
           (Some init_net) "false" true 1 after_round0 after_round1
           round1_completes).
Defined.

Lemma checkpoint_written_once_witness :
  (1 <= 2)%nat /\
  round 1 after_round0 = Ok tt after_round1 /\
  (exists d, trace after_round1 = trace after_round0 ++ d /\
             omap as_save d = [(1%nat, 2%nat)]) /\
  (exists cp, files after_round1 !! (1%nat, 2%nat) = Some cp /\
              cp_epoch cp = 2%nat /\ model_state_dict cp = model after_round1) /\
  (forall k, k <> (1%nat, 2%nat) ->
             files after_round1 !! k = files after_round0 !! k).
Proof.
  assert (Hne : (1 <= 2)%nat) by lia.
  refine (conj Hne (conj round1_completes _)).
  exact (checkpoint_written_once (C := env) 2 [1%nat] "sgd" data data
           (Some init_net) "false" true 1 after_round0 after_round1
           Hne round1_completes).
Defined.

Lemma optimizer_steps_per_round_witness :
  round 1 after_round0 = Ok tt after_round1 /\
  exists d, trace after_round1 = trace after_round0 ++ d /\
            length (omap as_step d) = (2 * length data)%nat.
Proof.
  split; [exact round1_completes|].
  exact (optimizer_steps_per_round (C := env) 2 [1%nat] "sgd" data data
           (Some init_net) "false" true 1 after_round0 after_round1
           round1_completes).
Defined.

Lemma round0_trains_unmasked_witness :
  let w' := world_of (round 0 (start init_net)) in
  round 0 (start init_net) = Ok tt w' /\
  masks w' = masks (start init_net) /\
  (exists d, trace w' = trace (start init_net) ++ d /\
             forallb (fun e => negb (of_mask_building e)) d = true) /\
  (forall data v v',
     train_batch 0 data v = Ok tt v' ->
     exists o, the_optimizer v = Some o /\
       model v' = (optimizer_step (kind o) (lr o) (state o) (model v)
                     (gradient (model v) (inputs data) (labels data))).2).
Proof.
  intros w'.
  assert (H : round 0 (start init_net) = Ok tt w') by runs.
  split; [exact H|].
  exact (round0_trains_unmasked (C := env) 2 [1%nat] "sgd" data data
           (Some init_net) "false" true (start init_net) w' H).
Defined.

Lemma random_mode_continues_from_checkpoint_witness :
  let w1 := world_of (pruning_round 2 [1%nat] "sgd" data data None "true" true
                        0 (start two_weights)) in
  let w3 := world_of (round_setup "sgd" None "true" true 1 w1) in
  "true"%string <> "false"%string /\ (1 <= 2)%nat /\
  pruning_round 2 [1%nat] "sgd" data data None "true" true 0 (start two_weights)
  = Ok tt w1 /\
  round_setup "sgd" None "true" true 1 w1 = Ok tt w3 /\
  model w3 = model w1 /\
  exists ms, masks w3 = Some ms /\ length ms = length (weights (model w1)).
Proof.
  intros w1 w3.
  assert (Hr : "true"%string <> "false"%string) by discriminate.
  assert (Hne : (1 <= 2)%nat) by lia.
  assert (H0 : pruning_round 2 [1%nat] "sgd" data data None "true" true 0
                 (start two_weights) = Ok tt w1) by runs.
  assert (H1 : round_setup "sgd" None "true" true 1 w1 = Ok tt w3) by runs.
  refine (conj Hr (conj Hne (conj H0 (conj H1 _)))).
  exact (random_mode_continues_from_checkpoint (C := env) 2 [1%nat] "sgd" data
           data None "true" true 0 (start two_weights) w1 w3 Hr Hne H0 H1).
Defined.

Lemma printed_metrics_are_of_the_checkpoint_witness :
  (1 <= 2)%nat /\ evaluates 1 = true /\
  round 1 after_round0 = Ok tt after_round1 /\
  exists cp v test_loss test_accuracy v',
    files after_round1 !! (1%nat, 2%nat) = Some cp /\
    model v = model_state_dict cp /\
    test data v = Ok (test_loss, test_accuracy) v' /\
    last (trace after_round1) = Some (PrintTest 1 test_loss test_accuracy).
Proof.
  assert (Hne : (1 <= 2)%nat) by lia.
  assert (Hev : evaluates 1 = true) by reflexivity.
  refine (conj Hne (conj Hev (conj round1_completes _))).
  exact (printed_metrics_are_of_the_checkpoint (C := env) 2 [1%nat] "sgd" data
           data (Some init_net) "false" true 1 after_round0 after_round1
           Hne Hev round1_completes).
Defined.

Lemma completed_run_checkpoints_witness :
  whole_run = Ok tt (world_of whole_run) /\
  exists ne,
    (("resnet50" = "vgg19"%string /\ ne = 160%nat) \/
     ("resnet50" = "resnet50"%string /\ ne = 90%nat)) /\
    forall i, (i <= 30)%nat ->
      exists cp, files (world_of whole_run) !! (i, ne) = Some cp /\
                 cp_epoch cp = ne.
Proof.
  split; [exact whole_run_completes|].
  exact (completed_run_checkpoints (C := env) data data "resnet50" "sgd"
           (Some init_net) "false" true (start init_net) _
           whole_run_completes).
Defined.

Lemma completed_run_needs_the_schedule_witness :
  whole_run = Ok tt (world_of whole_run) /\ (1 <= 30 <= 30)%nat /\
  exists q, weight_fractions !! 30%nat = Some q /\ 0 <= q <= 100.
Proof.
  assert (Hi : (1 <= 30 <= 30)%nat) by lia.
  refine (conj whole_run_completes (conj Hi _)).
  exact (completed_run_needs_the_schedule (C := env) data data "resnet50" "sgd"
           (Some init_net) "false" true (start init_net) _ 30
           whole_run_completes Hi).
Defined.

Lemma failed_run_reports_nothing_witness :
  let run := prune_iteratively data data "resnet50" "rmsprop" (Some init_net)
               "false" true (start init_net) in
  run = Raise (ValueError "rmsprop optimizer not supported") (world_of run) /\
  exists d, trace (world_of run) = trace (start init_net) ++ d /\
            forallb (fun ev => negb (is_final_print ev)) d = true.
Proof.
  intros run.
  assert (H : run = Raise (ValueError "rmsprop optimizer not supported")
                (world_of run))
    by (refine (error_of_Raise _ _ _); vm_compute; reflexivity).
  split; [exact H|].
  exact (failed_run_reports_nothing (C := env) data data "resnet50" "rmsprop"
           (Some init_net) "false" true (start init_net) _ _ H).
Defined.

Lemma test_without_samples_witness :
  let no_samples := [{| inputs := []; labels := [] |}] in
  Forall (fun b => labels b = []) no_samples /\
  (exists w', test no_samples (start init_net) = Raise ZeroDivisionError w' /\
     model w' = model (start init_net) /\
     grad_enabled w' = grad_enabled (start init_net) /\
     trace w' = trace (start init_net)
                ++ replicate (length no_samples) (CallForward false)) /\
  (forall dtr architecture ot init random eq v v',
     prune_iteratively dtr no_samples architecture ot init random eq v
     <> Ok tt v').
Proof.
  intros no_samples.
  assert (H : Forall (fun b => labels b = []) no_samples)
    by (repeat constructor).
  split; [exact H|].
  exact (test_without_samples (C := env) no_samples (start init_net) H).
Defined.

Lemma pruning_meets_the_schedule_witness :
  let w' := world_of (load_and_build_masks 1 "false" after_round0) in
  load_and_build_masks 1 "false" after_round0 = Ok tt w' /\
  exists q zeros total,
    weight_fractions !! 1%nat = Some q /\
    last (trace w') = Some (PrintFraction zeros total) /\
    (1 <= zeros <= total)%nat /\
    q / 100 * nat_Q (total - 1) < nat_Q zeros.
Proof.
  intros w'.
  assert (H : load_and_build_masks 1 "false" after_round0 = Ok tt w') by runs.
  split; [exact H|].
  exact (pruning_meets_the_schedule (C := env) 1 "false" after_round0 w' H).
Defined.

Lemma masking_touches_prunable_tensors_only_witness :
  let w := before_first_batch in
  masks w = Some [[1; 0]] /\
  Forall2 (fun (mask t : tensor) => length mask = length t)
    [[1; 0]] (weights (model w)) /\
  exists w',
    apply_masks w = Ok tt w' /\
    map fst (model w') = map fst (model w) /\
    (forall k name t, model w !! k = Some (name, t) -> is_weight name = false ->
                      model w' !! k = Some (name, t)) /\
    weights (model w') = zip_with (zip_with Qmult) (weights (model w)) [[1; 0]] /\
    trace w' = trace w /\ files w' = files w /\ masks w' = masks w /\
    the_optimizer w' = the_optimizer w.
Proof.
  intros w.
  assert (Hms : masks w = Some [[1; 0]]) by (vm_compute; reflexivity).
  assert (Hfit : Forall2 (fun (mask t : tensor) => length mask = length t)
                   [[1; 0]] (weights (model w)))
    by (vm_compute; repeat constructor).
  refine (conj Hms (conj Hfit _)).
  exact (masking_touches_prunable_tensors_only (C := env) w [[1; 0]] Hms Hfit).
Defined.

Lemma winning_ticket_round_returns_only_if_witness :
  round 1 after_round0 = Ok tt after_round1 /\
  ("sgd" = "sgd"%string \/ "sgd" = "adam"%string) /\
  (1%nat <> 0%nat -> exists last cpt q,
     last_epoch after_round0 = Some last /\
     files after_round0 !! ((1 - 1)%nat, last) = Some cpt /\
     layout (model_state_dict cpt) = layout (model after_round0) /\
     weight_fractions !! 1%nat = Some q /\ 0 <= q <= 100 /\
     concat (weights (model_state_dict cpt)) <> []) /\
  (exists snapshot m', Some init_net = Some snapshot /\
     load_weights_into (model after_round0) snapshot true = inr m') /\
  (evaluates 1 = true -> Exists (fun b => labels b <> []) data).
Proof.
  split; [exact round1_completes|].
  exact (winning_ticket_round_returns_only_if (C := env) 2 [1%nat] "sgd" data
           data (Some init_net) true 1 after_round0 after_round1
           round1_completes).
Defined.

Lemma run_keeps_the_shapes_witness :
  (forall k lr b m g, layout (optimizer_step k lr b m g).2 = layout m) /\
  whole_run = Ok tt (world_of whole_run) /\
  shapes (model (world_of whole_run)) = shapes (model (start init_net)).
Proof.
  refine (conj sgd_step_layout (conj whole_run_completes _)).
  exact (run_keeps_the_shapes (C := env) data data "resnet50" "sgd"
           (Some init_net) "false" true (start init_net) _ sgd_step_layout
           whole_run_completes).
Defined.

Lemma script_rejects_unsupported_datasets_witness :
  let a := arguments "imagenet" "cifar10" in
  (Script.source_dataset a
     ∉ ["cifar10"; "svhn"; "fashionmnist"; "cifar100"]%string \/
   Script.target_dataset a
     ∉ ["cifar10"; "svhn"; "fashionmnist"; "cifar100"]%string) /\
  exists e,
    Script.main load_dataset load_model snapshot_at a (start [])
    = Raise e (start []) /\
    (forall dataloader_train dataloader_test,
       load_dataset (Script.target_dataset a) (Script.batch_size a) true
         = inr dataloader_train ->
       load_dataset (Script.target_dataset a) (Script.batch_size a) false
         = inr dataloader_test ->
       exists dataset role,
         e = ValueError (dataset ++ " as a " ++ role ++ " dataset is not supported") /\
         ((dataset = Script.source_dataset a /\ role = "source"%string) \/
          (Script.source_dataset a
             ∈ ["cifar10"; "svhn"; "fashionmnist"; "cifar100"]%string /\
           dataset = Script.target_dataset a /\ role = "target"%string))).
Proof.
  intros a.
  assert (H : Script.source_dataset a
                ∉ ["cifar10"; "svhn"; "fashionmnist"; "cifar100"]%string \/
              Script.target_dataset a
                ∉ ["cifar10"; "svhn"; "fashionmnist"; "cifar100"]%string).
  { left. simpl. intros Hin.
    repeat (apply elem_of_cons in Hin as [Hin|Hin]; [discriminate|]).
    by apply elem_of_nil in Hin. }
  split; [exact H|].
  exact (script_rejects_unsupported_datasets (C := env) load_dataset load_model
           snapshot_at a (start []) H).
Defined.

Lemma script_trains_on_the_target_witness :
  let a := arguments "cifar100" "svhn" in
  let run := Script.main load_dataset load_model snapshot_at a (start []) in
  run = Ok tt (world_of run) /\
  exists dataloader_train dataloader_test m,
    load_dataset (Script.target_dataset a) (Script.batch_size a) true
      = inr dataloader_train /\
    load_dataset (Script.target_dataset a) (Script.batch_size a) false
      = inr dataloader_test /\
    Script.source_dataset a
      ∈ ["cifar10"; "svhn"; "fashionmnist"; "cifar100"]%string /\
    Script.target_dataset a
      ∈ ["cifar10"; "svhn"; "fashionmnist"; "cifar100"]%string /\
    load_model (Script.architecture a)
      (if String.eqb (Script.target_dataset a) "cifar100" then 100 else 10)%nat
      = inr m /\
    prune_iteratively dataloader_train dataloader_test
      (Script.architecture a) (Script.optimizer a)
      (snapshot_at (Script.init_path a)) (Script.random a)
      (Bool.eqb (String.eqb (Script.source_dataset a) "cifar100")
                (String.eqb (Script.target_dataset a) "cifar100"))
      (set_model m (start [])) = Ok tt (world_of run).
Proof.
  intros a run.
  assert (H : run = Ok tt (world_of run)) by runs.
  split; [exact H|].
  exact (script_trains_on_the_target (C := env) load_dataset load_model
           snapshot_at a (start []) _ H).
Defined.

Lemma reported_sequences_witness :
  whole_run = Ok tt (world_of whole_run) /\
  test_accuracys (world_of whole_run) = replicate 15 (PyListRef TestAccuracys) /\
  test_losses (world_of whole_run) = replicate 15 (PyListRef TestLosses) /\
  PrintAccuracys (replicate 15 (PyListRef TestAccuracys))
    ∈ trace (world_of whole_run) /\
  PrintLosses (replicate 15 (PyListRef TestLosses)) ∈ trace (world_of whole_run).
Proof.
  split; [exact whole_run_completes|].
  exact (reported_sequences (C := env) data data "resnet50" "sgd"
           (Some init_net) "false" true (start init_net) _
           whole_run_completes).
Defined.

End Witnesses.
